(** * xastropy: the IGMGuesses component model

    A shallow embedding of [xastropy/xguis/igmguesses.py]: absorption
    components, the line-masking policy, the model synthesizer, the
    cursor commands of the velocity plot, the edit boxes, the command line
    and the JSON persistence of a session; and of two routines it sits
    beside, [XSpectrum1D.pix_minmax] of [xastropy/spec/utils.py] and
    [AbslineSurvey.upd_mask] of [xastropy/igm/abs_sys/abssurvey.py].

    Conventions of the embedding.
    - Python floats are idealised as rationals ([Q]); [10**x], the Voigt
      synthesis and the catalogue look-ups belong to numpy / linetools and
      are parameters of the development.
    - Component objects live in a store ([heap]) and are named by
      references ([loc]), so that aliasing between the component list, the
      fiddle widget and [current_comp] is the one the program has.
    - Functions that mutate or raise are written in a small state, log and
      exception monad [M]; the state carried by [Raised] is the state at the
      moment of the [raise]. *)

From stdpp Require Import gmap strings list fin_maps.
From Stdlib Require Import Ascii QArith Qabs Qround Lqa.

Local Open Scope Z_scope.
Local Open Scope nat_scope.

(* ===================================================================== *)
(** ** Numbers *)
(* ===================================================================== *)

(** [x < y] on floats. *)
Definition Qltb (x y : Q) : bool := negb (Qle_bool y x).

(** [np.sum] over an integer array. *)
Definition np_sum (l : list Z) : Z := foldr Z.add 0%Z l.
Arguments np_sum : simpl never.

(** [np.min] / [np.max]; [None] stands for the [ValueError] numpy raises on
    an empty array. *)
Definition np_min (l : list Q) : option Q :=
  match l with
  | [] => None
  | x :: r => Some (foldl (fun a y => if Qltb y a then y else a) x r)
  end.

Definition np_max (l : list Q) : option Q :=
  match l with
  | [] => None
  | x :: r => Some (foldl (fun a y => if Qltb a y then y else a) x r)
  end.

(** [c_mks = const.c.to('km/s').value]. *)
Definition c_mks : Q := 299792458 # 1000.

(* ===================================================================== *)
(** ** Data model *)
(* ===================================================================== *)

(** One row of atomic data ([line.data]). *)
Record Transition := mkTransition {
  t_name : string;     (* data['name'], e.g. "HI 1215" *)
  t_wrest : Q;         (* data['wrest'], Angstrom *)
  t_f : Q;             (* data['f'] *)
  t_gamma : Q;         (* data['gamma'] *)
  t_Ej : Q             (* data['Ej'] *)
}.

(** linetools' [AbsLine]: atomic data, [attrib] and [analy['vlim']]. *)
Record AbsLine := mkAbsLine {
  data : Transition;
  l_z : Q;             (* attrib['z'] *)
  l_logN : Q;          (* attrib['logN'] *)
  l_b : Q;             (* attrib['b'], km/s *)
  l_N : Q;             (* attrib['N'], cm^-2 *)
  l_vlim : Q * Q       (* analy['vlim'], km/s *)
}.

(** The attribute dictionary installed by [comp_init_attrib]. *)
Record Attrib := mkAttrib {
  a_N : Q; a_Nsig : Q; a_flagN : Z;
  a_logN : Q; a_sig_logN : Q;
  a_b : Q; a_bsig : Q;
  a_z : Q; a_zsig : Q;
  a_Reliability : string
}.

(** linetools' [AbsComponent] with the attributes IGMGuesses adds to it. *)
Record AbsComponent := mkAbsComponent {
  name : string;
  zcomp : Q;
  vlim : Q * Q;
  stars : option string;
  init_wrest : Q;
  attrib : Attrib;
  comment : string;
  _abslines : list AbsLine;
  mask_abslines : list Z      (* 0: do not use, 1: display only, 2: fit *)
}.

Definition set_abslines (ls : list AbsLine) (c : AbsComponent) : AbsComponent :=
  mkAbsComponent (name c) (zcomp c) (vlim c) (stars c) (init_wrest c)
                 (attrib c) (comment c) ls (mask_abslines c).

Definition set_mask_abslines (m : list Z) (c : AbsComponent) : AbsComponent :=
  mkAbsComponent (name c) (zcomp c) (vlim c) (stars c) (init_wrest c)
                 (attrib c) (comment c) (_abslines c) m.

Definition set_name (n : string) (c : AbsComponent) : AbsComponent :=
  mkAbsComponent n (zcomp c) (vlim c) (stars c) (init_wrest c)
                 (attrib c) (comment c) (_abslines c) (mask_abslines c).

Definition set_init_wrest (w : Q) (c : AbsComponent) : AbsComponent :=
  mkAbsComponent (name c) (zcomp c) (vlim c) (stars c) w
                 (attrib c) (comment c) (_abslines c) (mask_abslines c).

Definition set_attrib (a : Attrib) (c : AbsComponent) : AbsComponent :=
  mkAbsComponent (name c) (zcomp c) (vlim c) (stars c) (init_wrest c)
                 a (comment c) (_abslines c) (mask_abslines c).

Definition set_comment (s : string) (c : AbsComponent) : AbsComponent :=
  mkAbsComponent (name c) (zcomp c) (vlim c) (stars c) (init_wrest c)
                 (attrib c) s (_abslines c) (mask_abslines c).

Definition set_a_z (v : Q) (a : Attrib) : Attrib :=
  mkAttrib (a_N a) (a_Nsig a) (a_flagN a) (a_logN a) (a_sig_logN a)
           (a_b a) (a_bsig a) v (a_zsig a) (a_Reliability a).

Definition set_a_b (v : Q) (a : Attrib) : Attrib :=
  mkAttrib (a_N a) (a_Nsig a) (a_flagN a) (a_logN a) (a_sig_logN a)
           v (a_bsig a) (a_z a) (a_zsig a) (a_Reliability a).

Definition set_a_logN (v : Q) (a : Attrib) : Attrib :=
  mkAttrib (a_N a) (a_Nsig a) (a_flagN a) v (a_sig_logN a)
           (a_b a) (a_bsig a) (a_z a) (a_zsig a) (a_Reliability a).

Definition set_a_Reliability (v : string) (a : Attrib) : Attrib :=
  mkAttrib (a_N a) (a_Nsig a) (a_flagN a) (a_logN a) (a_sig_logN a)
           (a_b a) (a_bsig a) (a_z a) (a_zsig a) v.

(** Exceptions the modelled code can raise.  [Dangling] is not a Python
    exception: it marks a reference outside the store, which no
    well-formed state contains. *)
Inductive exn :=
| ValueError | IndexError | KeyError | AttributeError | ZeroDivisionError
| Dangling.

(** What the program prints or warns. *)
Inductive msg :=
| WarnSpecFileMismatch        (* 'Spec file names do not match! ...' *)
| WarnSettingAllAbslines      (* 'Setting all abslines to 2' *)
| WarnNoLineAboveMinEw (comp_name : string) (min_ew : Q).

Inductive result (A : Type) :=
| Ok (a : A)
| Err (e : exn).
Arguments Ok {A} a.
Arguments Err {A} e.

(* ===================================================================== *)
(** ** The state, log and exception monad *)
(* ===================================================================== *)

Inductive res (S A : Type) :=
| Done (a : A) (s : S)
| Raised (e : exn) (s : S).
Arguments Done {S A} a s.
Arguments Raised {S A} e s.

Definition M (S A : Type) : Type := S -> list msg * res S A.

Definition ret {S A} (a : A) : M S A := fun s => ([], Done a s).

Definition bind {S A B} (m : M S A) (k : A -> M S B) : M S B := fun s =>
  match m s with
  | (w, Done a s') => let (w', r) := k a s' in (w ++ w', r)
  | (w, Raised e s') => (w, Raised e s')
  end.

Notation "'let*' x ':=' m 'in' k" := (bind m (fun x => k))
  (at level 10, x name, m at level 100, k at level 200, only parsing).
Notation "m ';;' k" := (bind m (fun _ => k))
  (at level 100, k at level 200, right associativity, only parsing).

Definition raise {S A} (e : exn) : M S A := fun s => ([], Raised e s).
Definition tell {S} (w : msg) : M S unit := fun s => ([w], Done tt s).
Definition gets {S A} (f : S -> A) : M S A := fun s => ([], Done (f s) s).
Definition modify {S} (f : S -> S) : M S unit := fun s => ([], Done tt (f s)).

(** The state a computation ends in, whether it returned or raised. *)
Definition final_state {S A} (r : list msg * res S A) : S :=
  match r.2 with
  | Done _ s => s
  | Raised _ s => s
  end.

(** A reading of a possibly absent value ([l[i]], [d[k]]). *)
Definition expect {S A} (e : exn) (o : option A) : M S A :=
  match o with
  | Some a => ret a
  | None => raise e
  end.

(** [for x in xs: body x]. *)
Fixpoint for_each {S A} (xs : list A) (body : A -> M S unit) : M S unit :=
  match xs with
  | [] => ret tt
  | x :: r => body x ;; for_each r body
  end.

(* ===================================================================== *)
(** ** Strings *)
(* ===================================================================== *)

(** [s.split(' ')[0]]: the characters before the first blank. *)
Fixpoint first_word (s : string) : string :=
  match s with
  | EmptyString => EmptyString
  | String a r => if Ascii.eqb a " "%char then EmptyString
                  else String a (first_word r)
  end.

(** [len(s.split('*')) - 1]: the number of asterisks in [s]. *)
Fixpoint count_stars (s : string) : nat :=
  match s with
  | EmptyString => 0
  | String a r => (if Ascii.eqb a "*"%char then 1 else 0) + count_stars r
  end.

(** ['*' * n]. *)
Fixpoint star_string (n : nat) : string :=
  match n with
  | O => EmptyString
  | S k => String "*"%char (star_string k)
  end.

(* ===================================================================== *)
(** ** The session state *)
(* ===================================================================== *)

(** A reference to a component object. *)
Abbreviation loc := nat.

(** The state of an [IGMGuessesGui] with its widgets, flattened. *)
Record IGMGuessesGui := mkGui {
  heap : list AbsComponent;   (* the store of component objects *)
  all_comp : list loc;   (* comps_widg.all_comp *)
  all_items : list string;   (* comps_widg.all_items *)
  fiddle_component : option loc;   (* fiddle_widg.component *)
  current_comp : option loc;   (* velplot_widg.current_comp; None before the first add_component *)
  spec_wavelength : list Q;   (* spec.wavelength *)
  spec_flux : list Q;   (* spec.flux *)
  spec_sig : list Q;   (* spec.sig *)
  spec_filename : string;   (* spec.filename *)
  bad_pixels : list Z;   (* spec.bad_pixels *)
  model_flux : list Q;   (* velplot_widg.model.flux *)
  plot_residuals : bool;
  residual_normalization_factor : Q;
  residual_limit : list Q;
  residual : list Q;
  fwhm : Q;   (* self.fwhm, also handed to velplot_widg *)
  min_ew : Q;   (* self.min_ew, Angstrom *)
  vp_z : Q   (* velplot_widg.z *)
}.

Definition set_heap (v : list AbsComponent) (g : IGMGuessesGui) : IGMGuessesGui :=
  mkGui v (all_comp g) (all_items g) (fiddle_component g) (current_comp g)
    (spec_wavelength g) (spec_flux g) (spec_sig g) (spec_filename g)
    (bad_pixels g) (model_flux g) (plot_residuals g)
    (residual_normalization_factor g) (residual_limit g) (residual g) 
    (fwhm g) (min_ew g) (vp_z g).

Definition set_all_comp (v : list loc) (g : IGMGuessesGui) : IGMGuessesGui :=
  mkGui (heap g) v (all_items g) (fiddle_component g) (current_comp g)
    (spec_wavelength g) (spec_flux g) (spec_sig g) (spec_filename g)
    (bad_pixels g) (model_flux g) (plot_residuals g)
    (residual_normalization_factor g) (residual_limit g) (residual g) 
    (fwhm g) (min_ew g) (vp_z g).

Definition set_all_items (v : list string) (g : IGMGuessesGui) : IGMGuessesGui :=
  mkGui (heap g) (all_comp g) v (fiddle_component g) (current_comp g)
    (spec_wavelength g) (spec_flux g) (spec_sig g) (spec_filename g)
    (bad_pixels g) (model_flux g) (plot_residuals g)
    (residual_normalization_factor g) (residual_limit g) (residual g) 
    (fwhm g) (min_ew g) (vp_z g).

Definition set_fiddle_component (v : option loc) (g : IGMGuessesGui) : IGMGuessesGui :=
  mkGui (heap g) (all_comp g) (all_items g) v (current_comp g)
    (spec_wavelength g) (spec_flux g) (spec_sig g) (spec_filename g)
    (bad_pixels g) (model_flux g) (plot_residuals g)
    (residual_normalization_factor g) (residual_limit g) (residual g) 
    (fwhm g) (min_ew g) (vp_z g).

Definition set_current_comp (v : option loc) (g : IGMGuessesGui) : IGMGuessesGui :=
  mkGui (heap g) (all_comp g) (all_items g) (fiddle_component g) v
    (spec_wavelength g) (spec_flux g) (spec_sig g) (spec_filename g)
    (bad_pixels g) (model_flux g) (plot_residuals g)
    (residual_normalization_factor g) (residual_limit g) (residual g) 
    (fwhm g) (min_ew g) (vp_z g).

Definition set_bad_pixels (v : list Z) (g : IGMGuessesGui) : IGMGuessesGui :=
  mkGui (heap g) (all_comp g) (all_items g) (fiddle_component g)
    (current_comp g) (spec_wavelength g) (spec_flux g) (spec_sig g)
    (spec_filename g) v (model_flux g) (plot_residuals g)
    (residual_normalization_factor g) (residual_limit g) (residual g) 
    (fwhm g) (min_ew g) (vp_z g).

Definition set_model_flux (v : list Q) (g : IGMGuessesGui) : IGMGuessesGui :=
  mkGui (heap g) (all_comp g) (all_items g) (fiddle_component g)
    (current_comp g) (spec_wavelength g) (spec_flux g) (spec_sig g)
    (spec_filename g) (bad_pixels g) v (plot_residuals g)
    (residual_normalization_factor g) (residual_limit g) (residual g) 
    (fwhm g) (min_ew g) (vp_z g).

Definition set_residual_limit (v : list Q) (g : IGMGuessesGui) : IGMGuessesGui :=
  mkGui (heap g) (all_comp g) (all_items g) (fiddle_component g)
    (current_comp g) (spec_wavelength g) (spec_flux g) (spec_sig g)
    (spec_filename g) (bad_pixels g) (model_flux g) (plot_residuals g)
    (residual_normalization_factor g) v (residual g) (fwhm g) (min_ew g)
    (vp_z g).

Definition set_residual (v : list Q) (g : IGMGuessesGui) : IGMGuessesGui :=
  mkGui (heap g) (all_comp g) (all_items g) (fiddle_component g)
    (current_comp g) (spec_wavelength g) (spec_flux g) (spec_sig g)
    (spec_filename g) (bad_pixels g) (model_flux g) (plot_residuals g)
    (residual_normalization_factor g) (residual_limit g) v (fwhm g) (min_ew
    g) (vp_z g).


Abbreviation Gui := IGMGuessesGui.

(* ===================================================================== *)
(** ** The persisted file *)
(* ===================================================================== *)

(** One entry of [igmg_dict['cmps']].  Keys every format carries are
    fields; keys a legacy file may lack are optional.  [r_lines] is what
    linetools' [to_dict] stores and [from_dict] restores. *)
Record CompRecord := mkCompRecord {
  r_lines : option (list AbsLine);        (* 'lines' *)
  r_mask_abslines : option (list Z);      (* 'mask_abslines' *)
  r_zcomp : Q;
  r_vlim : Q * Q;
  r_stars : option string;                (* kept by to_dict in 'Name' *)
  r_wrest : Q;
  r_zfit : Q;
  r_Nfit : Q;
  r_bfit : Q;
  r_Reliability : option string;          (* 'Reliability' *)
  r_Quality : option string;              (* 'Quality', old files *)
  r_Comment : string
}.

Definition set_r_Reliability (v : option string) (r : CompRecord) : CompRecord :=
  mkCompRecord (r_lines r) (r_mask_abslines r) (r_zcomp r) (r_vlim r)
               (r_stars r) (r_wrest r) (r_zfit r) (r_Nfit r) (r_bfit r)
               v (r_Quality r) (r_Comment r).

Record IgmgDict := mkIgmgDict {
  d_cmps : gmap string CompRecord;
  d_spec_file : string;
  d_fwhm : Q;
  d_bad_pixels : option (list Z)
}.

Definition set_d_spec_file (f : string) (d : IgmgDict) : IgmgDict :=
  mkIgmgDict (d_cmps d) f (d_fwhm d) (d_bad_pixels d).

(** A key press inside the velocity plot: [event.key], the [gid] of
    [event.inaxes] (absent outside the panels) and [event.xdata]. *)
Record KeyEvent := mkKeyEvent {
  key : ascii;
  inaxes_gid : option Q;
  xdata : Q
}.

(* ===================================================================== *)
(** ** numpy helpers *)
(* ===================================================================== *)

(** [np.where(p(a))[0]] *)
Fixpoint np_where_from {A} (p : A -> bool) (i : nat) (a : list A) : list nat :=
  match a with
  | [] => []
  | x :: r => if p x then i :: np_where_from p (S i) r
              else np_where_from p (S i) r
  end.
Definition np_where {A} (p : A -> bool) (a : list A) : list nat :=
  np_where_from p 0 a.

(** [np.argmin(a)]: the first index of the least entry. *)
Fixpoint np_argmin_from (best : Q) (ibest i : nat) (a : list Q) : nat :=
  match a with
  | [] => ibest
  | x :: r => if Qltb x best then np_argmin_from x i (S i) r
              else np_argmin_from best ibest (S i) r
  end.
Definition np_argmin (a : list Q) : option nat :=
  match a with
  | [] => None
  | x :: r => Some (np_argmin_from x 0 1 r)
  end.

(** An index into an array of length [n]; negative indices count from the
    end. *)
Definition np_index (n : nat) (i : Z) : option nat :=
  if decide (0 <= i < Z.of_nat n)%Z then Some (Z.to_nat i)
  else if decide (- Z.of_nat n <= i < 0)%Z then Some (Z.to_nat (i + Z.of_nat n))
  else None.

(** [a[np.array(idx)] = v] *)
Definition np_put (idx : list Z) (v : Z) (a : list Z) : option (list Z) :=
  ix ← mapM (np_index (length a)) idx;
  Some (foldl (fun acc i => <[i := v]> acc) a ix).

(** [l.index(x)] *)
Definition list_index (x : string) (l : list string) : option nat :=
  fst <$> list_find (fun y => y = x) l.

(* ===================================================================== *)
(** ** A small session, for the examples *)
(* ===================================================================== *)

(** Lyman alpha and Lyman beta of neutral hydrogen. *)
Definition HI_1215 : Transition :=
  {| t_name := "HI 1215"; t_wrest := 121567 # 100; t_f := 4164 # 10000;
     t_gamma := 626500000; t_Ej := 0 |}.

Definition HI_1025 : Transition :=
  {| t_name := "HI 1025"; t_wrest := 10257222 # 10000; t_f := 7912 # 100000;
     t_gamma := 189700000; t_Ej := 0 |}.

(** [10**x], exact where [x] is integral. *)
Definition sample_pow10 (x : Q) : Q := (10 ^ Qfloor x)%Q.

(** A catalogue that knows the two hydrogen lines. *)
Definition sample_catalogue (wrest : Q) : list Transition :=
  if Qeq_bool wrest (t_wrest HI_1215) || Qeq_bool wrest (t_wrest HI_1025)
  then [HI_1215; HI_1025] else [].

Definition sample_atomic_data (wrest : Q) : Transition :=
  if Qeq_bool wrest (t_wrest HI_1025) then HI_1025 else HI_1215.

(** A catalogue that knows no line. *)
Definition empty_catalogue (wrest : Q) : list Transition := [].

(** The samples sit at redshift 2.3. *)
Definition sample_fmt_z5 (z : Q) : string := "2.30000".
Definition sample_from_dict_name (z : Q) (ls : list AbsLine) : string :=
  "HI_z2.30000".

(** A stand-in for the Voigt synthesis: some absorbed flux on the grid. *)
Definition sample_voigt (wv : list Q) (lines : list AbsLine) (fwhm : Q)
  : list Q := (fun _ => 1 # 2) <$> wv.

Definition sample_selected (items : list string) : string := "None".

Definition sample_line (t : Transition) (logN : Q) : AbsLine :=
  {| data := t; l_z := 23 # 10; l_logN := logN; l_b := 20; l_N := 0;
     l_vlim := ((-200)%Q, 200%Q) |}.

Definition sample_attrib (logN : Q) (rel : string) : Attrib :=
  {| a_N := 0; a_Nsig := 0; a_flagN := 0; a_logN := logN; a_sig_logN := 0;
     a_b := 20; a_bsig := 0; a_z := 23 # 10; a_zsig := 0;
     a_Reliability := rel |}.

(** A hydrogen component at logN = 12: at the threshold 0.005 A its Lyman
    alpha line counts (0.0054 A) and its Lyman beta line (0.0007 A) is
    masked out. *)
Definition sample_comp : AbsComponent :=
  {| name := "z2.30000_HI"; zcomp := 23 # 10;
     vlim := ((-200)%Q, 200%Q); stars := None;
     init_wrest := 121567 # 100;
     attrib := sample_attrib 12 "a";
     comment := "forest";
     _abslines := [sample_line HI_1215 12; sample_line HI_1025 12];
     mask_abslines := [2; 0]%Z |}.

(** The same absorber marked in the Lyman beta panel: same name. *)
Definition sample_comp_beta : AbsComponent :=
  set_init_wrest (10257222 # 10000) sample_comp.

(** The component at logN = 10: every line is masked out. *)
Definition faint_comp : AbsComponent :=
  {| name := "z2.30000_HI"; zcomp := 23 # 10;
     vlim := ((-200)%Q, 200%Q); stars := None;
     init_wrest := 121567 # 100;
     attrib := sample_attrib 10 "a";
     comment := "forest";
     _abslines := [sample_line HI_1215 10; sample_line HI_1025 10];
     mask_abslines := [0; 0]%Z |}.

(** A session on a four-pixel spectrum, with the given components (all
    listed), bad pixels and model. *)
Definition sample_session (comps : list AbsComponent) (bad : list Z)
           (model : list Q) : Gui :=
  {| heap := comps;
     all_comp := seq 0 (length comps);
     all_items := name <$> comps;
     fiddle_component := None;
     current_comp := None;
     spec_wavelength := [4000; 4011; 4500; 5000]%Q;
     spec_flux := [1; 1 # 2; 1; 1]%Q;
     spec_sig := [1 # 10; 1 # 10; 1 # 10; 1 # 10]%Q;
     spec_filename := "q1422.fits";
     bad_pixels := bad;
     model_flux := model;
     plot_residuals := true;
     residual_normalization_factor := 1 # 5;
     residual_limit := [];
     residual := [];
     fwhm := 3;
     min_ew := 5 # 1000;
     vp_z := 23 # 10 |}.

(* ===================================================================== *)
(** ** Components: construction, synchronisation, masking *)
(* ===================================================================== *)

Section Model.

Set Default Proof Using "Type".

(** [10**x] on floats. *)
Variable pow10 : Q -> Q.
(** [linelist.all_transitions(wrest)] on the session's ISM catalogue; a
    single transition (a [dict]) is the one-element list. *)
Variable all_transitions : Q -> list Transition.
(** The atomic data [AbsLine(wrest)] attaches to a new line. *)
Variable atomic_data : Q -> Transition.
(** ['{:.5f}'.format(z)]. *)
Variable fmt_z5 : Q -> string.

(** [AbsLine(trans['wrest'])] followed by the two assignments of
    [create_component]; the other attributes keep linetools' defaults. *)
Definition new_absline (z : Q) (vl : Q * Q) (trans : Transition) : AbsLine :=
  {| data := atomic_data (t_wrest trans);
     l_z := z; l_logN := 0; l_b := 0; l_N := 0; l_vlim := vl |}.

Definition comp_init_attrib (comp : AbsComponent) : Attrib :=
  {| a_N := 0; a_Nsig := 0; a_flagN := 0;
     a_logN := 0; a_sig_logN := 0;
     a_b := 0; a_bsig := 0;
     a_z := zcomp comp; a_zsig := 0;
     a_Reliability := "None" |}.

(** linetools' [AbsComponent.from_abslines]: the component takes its
    redshift and velocity limits from the first line and owns all the
    lines it is given (they share species, redshift and limits here). *)
Definition from_abslines (first : AbsLine) (abslines : list AbsLine)
           (st : option string) : AbsComponent :=
  {| name := EmptyString;
     zcomp := l_z first;
     vlim := l_vlim first;
     stars := st;
     init_wrest := 0;
     attrib := mkAttrib 0 0 0 0 0 0 0 0 0 EmptyString;
     comment := EmptyString;
     _abslines := abslines;
     mask_abslines := [] |}.

Definition create_component (z wrest : Q) (vl : Q * Q) : result AbsComponent :=
  let all_trans := all_transitions wrest in
  let abslines := fmap (new_absline z vl) all_trans in
  match abslines with
  | [] => Err IndexError                       (* abslines[0] *)
  | first :: _ =>
      let st := if Qltb 0 (t_Ej (data first))
                then Some (star_string (count_stars (t_name (data first))))
                else None in
      let comp := from_abslines first abslines st in
      let comp := set_init_wrest wrest comp in
      let comp := set_attrib (comp_init_attrib comp) comp in
      let comp := set_mask_abslines
                    (replicate (length (_abslines comp)) 2%Z) comp in
      let comp := set_name
                    ("z" +:+ fmt_z5 (zcomp comp) +:+ "_" +:+
                     first_word (t_name (data first))) comp in
      Ok comp
  end.

Definition sync_line (a : Attrib) (line : AbsLine) : AbsLine :=
  {| data := data line;
     l_z := a_z a; l_logN := a_logN a; l_b := a_b a;
     l_N := l_N line; l_vlim := l_vlim line |}.

Definition sync_comp_lines : M AbsComponent unit :=
  modify (fun comp =>
    set_abslines (fmap (sync_line (attrib comp)) (_abslines comp)) comp).

(** The optically thin estimate, in Angstrom^2 / cm (the unit the
    expression of the source carries). *)
Definition ew (line : AbsLine) : Q :=
  (t_f (data line) * (t_wrest (data line)) ^ 2 * pow10 (l_logN line)
     / ((113 # 100) * 10 ^ 12))%Q.

(** [ew < min_ew]: astropy converts [min_ew], given in Angstrom, to the
    unit of [ew]; one Angstrom is 1e8 Angstrom^2 / cm. *)
Definition ew_lt (e min_ew : Q) : bool := Qltb e (min_ew * 10 ^ 8)%Q.

(** [comp.mask_abslines[ii] = v] *)
Definition mask_set (ii : nat) (v : Z) : M AbsComponent unit := fun comp =>
  if decide (ii < length (mask_abslines comp))
  then ([], Done tt (set_mask_abslines (<[ii := v]> (mask_abslines comp)) comp))
  else ([], Raised IndexError comp).

(** [comp.mask_abslines[ii]] *)
Definition mask_get (ii : nat) : M AbsComponent Z :=
  let* m := gets mask_abslines in expect IndexError (m !! ii).

Fixpoint mask_loop (min_ew : Q) (ii : nat) (lines : list AbsLine)
  : M AbsComponent unit :=
  match lines with
  | [] => ret tt
  | line :: rest =>
      (if ew_lt (ew line) min_ew then
         mask_set ii 0
       else
         let* m := mask_get ii in
         if (m =? 0)%Z then mask_set ii 2 else ret tt) ;;
      mask_loop min_ew (S ii) rest
  end.

(** What one pass of the loop makes of one mask entry. *)
Definition mask_entry (min_ew : Q) (line : AbsLine) (m : Z) : Z :=
  if ew_lt (ew line) min_ew then 0%Z
  else if (m =? 0)%Z then 2%Z else m.

(** The mask array the loop leaves, as a function. *)
Fixpoint mask_apply (min_ew : Q) (ii : nat) (lines : list AbsLine)
         (mask : list Z) : list Z :=
  match lines with
  | [] => mask
  | line :: rest =>
      mask_apply min_ew (S ii) rest (alter (mask_entry min_ew line) ii mask)
  end.

(** The estimate in Angstrom, the unit of the threshold. *)
Definition ew_angstrom (line : AbsLine) : Q := (ew line / 10 ^ 8)%Q.

Definition mask_comp_lines (min_ew : Q) : M AbsComponent unit :=
  let* lines := gets _abslines in
  mask_loop min_ew 0 lines ;;
  let* m := gets mask_abslines in
  if (np_sum m =? 0)%Z then
    let* n := gets name in tell (WarnNoLineAboveMinEw n min_ew)
  else ret tt.


(* ===================================================================== *)
(** ** The store *)
(* ===================================================================== *)

Definition deref (l : loc) : M Gui AbsComponent :=
  let* h := gets heap in expect Dangling (h !! l).

(** Run a method of the component object at [l]; its mutations, also those
    made before a [raise], land in the store. *)
Definition at_comp {A} (l : loc) (m : M AbsComponent A) : M Gui A := fun g =>
  match heap g !! l with
  | None => ([], Raised Dangling g)
  | Some c =>
      match m c with
      | (w, Done a c') => (w, Done a (set_heap (<[l := c']> (heap g)) g))
      | (w, Raised e c') => (w, Raised e (set_heap (<[l := c']> (heap g)) g))
      end
  end.

(** A new object. *)
Definition alloc (c : AbsComponent) : M Gui loc := fun g =>
  ([], Done (length (heap g)) (set_heap (heap g ++ [c]) g)).

(** [copy.deepcopy(comps)] *)
Fixpoint deepcopy (comps : list loc) : M Gui (list loc) :=
  match comps with
  | [] => ret []
  | l :: r =>
      let* c := deref l in
      let* l' := alloc c in
      let* r' := deepcopy r in
      ret (l' :: r')
  end.

(** The elementwise operation on two arrays over the same grid. *)
Definition np_zip (f : Q -> Q -> Q) (a b : list Q) : list Q := zip_with f a b.

(* ===================================================================== *)
(** ** IGGVelPlotWidget.update_model *)
(* ===================================================================== *)

(** [lav.voigt_from_abslines(wavelength, gdlin, fwhm=fwhm).flux] *)
Variable voigt_from_abslines : list Q -> list AbsLine -> Q -> list Q.

Definition set_l_N (v : Q) (line : AbsLine) : AbsLine :=
  {| data := data line; l_z := l_z line; l_logN := l_logN line;
     l_b := l_b line; l_N := v; l_vlim := l_vlim line |}.

(** The inner loop of [update_model] over the lines of one component:
    the lines kept for the model, each with its [N] refreshed. *)
Fixpoint good_lines (wvmin wvmax : Q) (ii : nat) (lines : list AbsLine)
  : M AbsComponent (list AbsLine) :=
  match lines with
  | [] => ret []
  | line :: rest =>
      let* m := mask_get ii in
      if (m =? 0)%Z then good_lines wvmin wvmax (S ii) rest
      else
        let wvobs := ((1 + l_z line) * t_wrest (data line))%Q in
        if Qltb wvmin wvobs && Qltb wvobs wvmax then
          let line' := set_l_N (pow10 (l_logN line)) line in
          modify (fun c => set_abslines (<[ii := line']> (_abslines c)) c) ;;
          let* gd := good_lines wvmin wvmax (S ii) rest in
          ret (line' :: gd)
        else good_lines wvmin wvmax (S ii) rest
  end.

Fixpoint gather_lines (wvmin wvmax : Q) (comps : list loc)
  : M Gui (list AbsLine) :=
  match comps with
  | [] => ret []
  | l :: r =>
      let* gd := at_comp l (let* ls := gets _abslines in
                            good_lines wvmin wvmax 0 ls) in
      let* gd' := gather_lines wvmin wvmax r in
      ret (gd ++ gd')
  end.

(** [self.parent] is the main window throughout the application, so the
    [parent is None] exit is never taken. *)
Definition update_model : M Gui unit :=
  let* all := gets all_comp in
  if decide (length all = 0) then
    modify (fun g => set_model_flux (fmap (fun _ => 1%Q) (model_flux g)) g)
  else
    let* wv := gets spec_wavelength in
    let* wvmin := expect ValueError (np_min wv) in
    let* wvmax := expect ValueError (np_max wv) in
    let* gdlin := gather_lines wvmin wvmax all in
    (if decide (0 < length gdlin) then
       let* fw := gets fwhm in
       modify (set_model_flux (voigt_from_abslines wv gdlin fw))
     else ret tt) ;;
    let* pr := gets plot_residuals in
    if pr then
      modify (fun g => set_residual_limit
        (fmap (fun s => s * residual_normalization_factor g)%Q (spec_sig g)) g) ;;
      modify (fun g => set_residual
        (fmap (fun d => d * residual_normalization_factor g)%Q
             (np_zip Qminus (spec_flux g) (model_flux g))) g)
    else ret tt.

(* ===================================================================== *)
(** ** The component list and the fiddle widget *)
(* ===================================================================== *)

(** The text of the row the Qt list widget reports as selected, given the
    names it holds; the toolkit decides it. *)
Variable selected_text : list string -> string.

(** [FiddleComponentWidget.init_component] / [reset]: the edit boxes are
    display only. *)
Definition fiddle_init_component (l : loc) : M Gui unit :=
  deref l ;; modify (set_fiddle_component (Some l)).

Definition fiddle_reset : M Gui unit := modify (set_fiddle_component None).

(** [ComponentListWidget.add_component] *)
Definition comps_add_component (l : loc) : M Gui unit :=
  modify (fun g => set_all_comp (all_comp g ++ [l]) g) ;;
  let* c := deref l in
  modify (fun g => set_all_items (all_items g ++ [name c]) g).

(** [ComponentListWidget.on_list_change] with [updated_compslist] *)
Definition on_list_change : M Gui unit :=
  let* items := gets all_items in
  let txt := selected_text items in
  if decide (txt = "None") then fiddle_reset
  else
    let* ii := expect ValueError (list_index txt items) in
    let* comps := gets all_comp in
    let* l := expect IndexError (comps !! ii) in
    fiddle_init_component l.

(** [ComponentListWidget.remove_item] *)
Definition remove_item (comp_name : string) : M Gui unit :=
  let* items := gets all_items in
  let* idx := expect ValueError (list_index comp_name items) in
  modify (set_all_items (delete idx items)) ;;
  let* comps := gets all_comp in
  (if decide (idx < length comps) then modify (set_all_comp (delete idx comps))
   else raise IndexError) ;;
  on_list_change.

(** [IGMGuessesGui.delete_component]; the redraw is display only. *)
Definition delete_component (component : loc) : M Gui unit :=
  let* c := deref component in
  remove_item (name c) ;;
  let* f := gets fiddle_component in
  (if decide (f = Some component) then fiddle_reset else ret tt) ;;
  update_model.

(** [IGGVelPlotWidget.add_component] called with [update_model=False],
    once the component object exists. *)
Definition add_component (new_comp : loc) : M Gui unit :=
  comps_add_component new_comp ;;
  fiddle_init_component new_comp ;;
  modify (set_current_comp (Some new_comp)).

Definition get_current_comp : M Gui loc :=
  let* c := gets current_comp in expect AttributeError c.

(* ===================================================================== *)
(** ** IGGVelPlotWidget.on_key: grabbing and deleting a component *)
(* ===================================================================== *)

(** [dvz] of [on_key]: one velocity offset per matching component. *)
Fixpoint velocity_offsets (z : Q) (components : list loc) (mtc : list nat)
  : M Gui (list Q) :=
  match mtc with
  | [] => ret []
  | mt :: r =>
      let* l := expect IndexError (components !! mt) in
      let* c := deref l in
      (if Qeq_bool (1 + z) 0 then raise ZeroDivisionError else ret tt) ;;
      let* dv := velocity_offsets z components r in
      ret ((c_mks * (z - zcomp c) / (1 + z))%Q :: dv)
  end.

(** [[comp.init_wrest.value for comp in components]] *)
Fixpoint init_wrests (components : list loc) : M Gui (list Q) :=
  match components with
  | [] => ret []
  | l :: r =>
      let* c := deref l in
      let* ws := init_wrests r in
      ret (init_wrest c :: ws)
  end.

(** What [on_key] does for the keys 'D', 'S' and 'd' (for any other key
    this part of [on_key] is skipped).  None of the earlier branches of
    [on_key] fires for these keys; the redraw that ends [on_key] is display
    only. *)
Definition on_key_grab (event : KeyEvent) : M Gui unit :=
  match inaxes_gid event with
  | None => ret tt                     (* AttributeError: return *)
  | Some wrest =>
      if negb (Ascii.eqb (key event) "D" || Ascii.eqb (key event) "S"
               || Ascii.eqb (key event) "d") then ret tt
      else if Ascii.eqb (key event) "d" then
        let* f := gets fiddle_component in
        let* l := expect AttributeError f in
        delete_component l
      else
        let* components := gets all_comp in
        let* iwrest := init_wrests components in
        let mtc := np_where (Qeq_bool wrest) iwrest in
        if decide (length mtc = 0) then ret tt
        else
          let* z := gets vp_z in
          let* dvz := velocity_offsets z components mtc in
          let* mindvz :=
            expect ValueError
              (np_argmin (fmap (fun d => Qabs (d + xdata event)) dvz)) in
          let* mt := expect IndexError (mtc !! mindvz) in
          let* target := expect IndexError (components !! mt) in
          if Ascii.eqb (key event) "S" then fiddle_init_component target
          else if Ascii.eqb (key event) "D" then delete_component target
          else ret tt
  end.

(* ===================================================================== *)
(** ** IGMGuessesGui.write_out *)
(* ===================================================================== *)

(** The lines of a component whose mask is not 0, with their masks. *)
Fixpoint unmasked (ii : nat) (lines : list AbsLine)
  : M AbsComponent (list AbsLine * list Z) :=
  match lines with
  | [] => ret ([], [])
  | line :: rest =>
      let* m := mask_get ii in
      let* r := unmasked (S ii) rest in
      ret (if (m =? 0)%Z then r else (line :: r.1, m :: r.2))
  end.

(** The same selection, as a function of the two arrays. *)
Fixpoint kept (lines : list AbsLine) (mask : list Z) : list AbsLine * list Z :=
  match lines, mask with
  | line :: rest, m :: mrest =>
      let r := kept rest mrest in
      if (m =? 0)%Z then r else (line :: r.1, m :: r.2)
  | _, _ => ([], [])
  end.

(** The copy of a component that is written out. *)
Definition pruned (c : AbsComponent) : AbsComponent :=
  let r := kept (_abslines c) (mask_abslines c) in
  set_mask_abslines r.2 (set_abslines r.1 c).

Definition drop_masked : M AbsComponent unit :=
  let* lines := gets _abslines in
  let* r := unmasked 0 lines in
  modify (set_abslines r.1) ;;
  modify (set_mask_abslines r.2).

(** [comp.to_dict()] and the keys [write_out] adds to it. *)
Definition to_record (comp : AbsComponent) : CompRecord :=
  {| r_lines := Some (_abslines comp);
     r_mask_abslines := Some (mask_abslines comp);
     r_zcomp := zcomp comp;
     r_vlim := vlim comp;
     r_stars := stars comp;
     r_wrest := init_wrest comp;
     r_zfit := a_z (attrib comp);
     r_Nfit := a_logN (attrib comp);
     r_bfit := a_b (attrib comp);
     r_Reliability := Some (a_Reliability (attrib comp));
     r_Quality := None;
     r_Comment := comment comp |}.

Fixpoint write_comps (comps_aux : list loc) (cmps : gmap string CompRecord)
  : M Gui (gmap string CompRecord) :=
  match comps_aux with
  | [] => ret cmps
  | l :: r =>
      at_comp l drop_masked ;;
      let* comp := deref l in
      write_comps r (<[name comp := to_record comp]> cmps)
  end.

(** The returned dictionary is the content of the JSON file. *)
Definition write_out : M Gui IgmgDict :=
  let* all := gets all_comp in
  let* comps_aux := deepcopy all in
  let* cmps := write_comps comps_aux ∅ in
  let* bad := gets bad_pixels in
  let* fn := gets spec_filename in
  let* fw := gets fwhm in
  ret {| d_cmps := cmps;
         d_spec_file := fn;
         d_fwhm := fw;
         d_bad_pixels := Some (Z.of_nat <$> np_where (Z.eqb 1) bad) |}.

(* ===================================================================== *)
(** ** IGMGuessesGui.read_previous *)
(* ===================================================================== *)

(** The name linetools gives a component it rebuilds from a record: built
    from the ion of its lines and its redshift, not the key of the record. *)
Variable from_dict_name : Q -> list AbsLine -> string.

(** linetools' [AbsComponent.from_dict] on the part of a record that
    [to_dict] wrote. *)
Definition from_dict (r : CompRecord) (ls : list AbsLine) : AbsComponent :=
  {| name := from_dict_name (r_zcomp r) ls;
     zcomp := r_zcomp r;
     vlim := r_vlim r;
     stars := r_stars r;
     init_wrest := 0;
     attrib := mkAttrib 0 0 0 0 0 0 0 0 0 EmptyString;
     comment := EmptyString;
     _abslines := ls;
     mask_abslines := [] |}.

Definition lift_result {S A} (r : result A) : M S A :=
  match r with
  | Ok a => ret a
  | Err e => raise e
  end.

Definition load_bad_pixels (d : IgmgDict) : M Gui unit :=
  match d_bad_pixels d with
  | Some bad =>
      if decide (0 < length bad) then
        let* bp := gets bad_pixels in
        let* bp' := expect IndexError (np_put bad 1 bp) in
        modify (set_bad_pixels bp')
      else ret tt
  | None => ret tt
  end.

(** The body of the loop over [igmg_dict['cmps']], first half: the
    component is rebuilt from its record, or, for a record without lines,
    made anew from the catalogue, and added to the session. *)
Definition load_build (r : CompRecord) : M Gui unit :=
  match r_lines r with
  | Some ls =>
      let comp := from_dict r ls in
      let comp := set_attrib (comp_init_attrib comp) comp in
      let comp := set_init_wrest (r_wrest r) comp in
      let* comp :=
        match r_mask_abslines r with
        | Some m => ret (set_mask_abslines m comp)
        | None =>
            tell WarnSettingAllAbslines ;;
            ret (set_mask_abslines
                   (replicate (length (_abslines comp)) 2%Z) comp)
        end in
      let* l := alloc comp in
      add_component l
  | None =>
      let* comp := lift_result
                     (create_component (r_zcomp r) (r_wrest r) (r_vlim r)) in
      let* l := alloc comp in
      add_component l
  end.

(** Second half: name, fitted values, reliability and comment are set on
    [current_comp], which is then synchronised and masked. *)
Definition load_fill (key : string) (r : CompRecord) : M Gui unit :=
  let* cur := get_current_comp in
  at_comp cur (modify (set_name key)) ;;
  let* cur := get_current_comp in
  at_comp cur (modify (fun c => set_attrib (set_a_z (r_zfit r) (attrib c)) c)) ;;
  let* cur := get_current_comp in
  at_comp cur (modify (fun c => set_attrib (set_a_b (r_bfit r) (attrib c)) c)) ;;
  let* cur := get_current_comp in
  at_comp cur (modify (fun c => set_attrib (set_a_logN (r_Nfit r) (attrib c)) c)) ;;
  let* rel := match r_Reliability r with
              | Some v => ret v
              | None => expect KeyError (r_Quality r)
              end in
  let* cur := get_current_comp in
  at_comp cur (modify (fun c =>
                 set_attrib (set_a_Reliability rel (attrib c)) c)) ;;
  let* cur := get_current_comp in
  at_comp cur (modify (set_comment (r_Comment r))) ;;
  let* cur := get_current_comp in
  at_comp cur sync_comp_lines ;;
  let* mew := gets min_ew in
  let* cur := get_current_comp in
  at_comp cur (mask_comp_lines mew).

Definition load_component (key : string) (r : CompRecord) : M Gui unit :=
  load_build r ;; load_fill key r.

Definition read_previous (igmg_dict : IgmgDict) : M Gui unit :=
  let* fw := gets fwhm in
  if negb (Qeq_bool (d_fwhm igmg_dict) fw) then raise ValueError
  else
    load_bad_pixels igmg_dict ;;
    let* fn := gets spec_filename in
    (if decide (fn = d_spec_file igmg_dict) then ret tt
     else tell WarnSpecFileMismatch) ;;
    for_each (map_to_list (d_cmps igmg_dict))
             (fun kr => load_component kr.1 kr.2) ;;
    update_model ;;
    let* cur := get_current_comp in
    fiddle_init_component cur.

(* ===================================================================== *)
(** * Properties *)
(* ===================================================================== *)

(** Unfold the monad's operations in the goal. *)
Ltac run_monad :=
  repeat (progress (unfold bind, ret, raise, tell, gets, modify, expect); cbn).

Lemma bind_Done {S A B} (m : M S A) (k : A -> M S B) s w a s' :
  m s = (w, Done a s') -> bind m k s = (w ++ (k a s').1, (k a s').2).
Proof. unfold bind. intros ->. by destruct (k a s'). Qed.

Lemma bind_Done_nil {S A B} (m : M S A) (k : A -> M S B) s a s' :
  m s = ([], Done a s') -> bind m k s = k a s'.
Proof. unfold bind. intros ->. by destruct (k a s'). Qed.

Lemma bind_Raised {S A B} (m : M S A) (k : A -> M S B) s w e s' :
  m s = (w, Raised e s') -> bind m k s = (w, Raised e s').
Proof. unfold bind. by intros ->. Qed.

Lemma bind_assoc {S A B C} (m : M S A) (k : A -> M S B) (k' : B -> M S C) s :
  bind (bind m k) k' s = bind m (fun a => bind (k a) k') s.
Proof.
  unfold bind. destruct (m s) as [w [a s'|e s']]; [|done].
  destruct (k a s') as [w' [b s''|e s'']]; [|done].
  destruct (k' b s'') as [w'' r]. by rewrite app_assoc.
Qed.

Lemma bind_gets {S A B} (f : S -> A) (k : A -> M S B) s :
  bind (gets f) k s = k (f s) s.
Proof. unfold bind, gets. by destruct (k (f s) s). Qed.

Lemma bind_ret {S A B} (a : A) (k : A -> M S B) s : bind (ret a) k s = k a s.
Proof. unfold bind, ret. by destruct (k a s). Qed.

Lemma bind_modify {S B} (f : S -> S) (k : unit -> M S B) s :
  bind (modify f) k s = k tt (f s).
Proof. unfold bind, modify. by destruct (k tt (f s)). Qed.

Lemma bind_tell {S B} (w : msg) (k : unit -> M S B) s :
  bind (tell w) k s = (w :: (k tt s).1, (k tt s).2).
Proof. unfold bind, tell. by destruct (k tt s). Qed.

Lemma bind_raise {S A B} (e : exn) (k : A -> M S B) s :
  bind (raise e) k s = ([], Raised e s).
Proof. done. Qed.

(** Normalise a run of [bind]s up to the next effectful step. *)
Ltac mnorm :=
  repeat (rewrite bind_assoc || rewrite bind_gets || rewrite bind_ret
          || rewrite bind_modify || rewrite bind_tell).

Lemma Qltb_lt x y : Qltb x y = true <-> (x < y)%Q.
Proof.
  unfold Qltb. rewrite negb_true_iff.
  destruct (Qle_bool y x) eqn:E.
  - apply Qle_bool_iff in E. split; [discriminate|].
    intros H. exfalso. apply (Qlt_not_le _ _ H E).
  - split; [|reflexivity]. intros _. apply Qnot_le_lt.
    intros H. apply Qle_bool_iff in H. congruence.
Qed.

Lemma Qltb_ge x y : Qltb x y = false <-> (y <= x)%Q.
Proof.
  unfold Qltb. rewrite negb_false_iff. apply Qle_bool_iff.
Qed.

Lemma Qdiv_div (a b c : Q) : (a / b / c == a / (b * c))%Q.
Proof.
  unfold Qdiv. transitivity (a * (/ b * / c))%Q.
  - symmetry. apply Qmult_assoc.
  - apply Qmult_comp; [reflexivity|]. symmetry. apply Qinv_mult_distr.
Qed.

Lemma lookup_fmap_Some_2 {A B} (f : A -> B) (l : list A) i x :
  l !! i = Some x -> (f <$> l) !! i = Some (f x).
Proof. intros H. by rewrite list_lookup_fmap, H. Qed.

Lemma set_mask_abslines_id c : set_mask_abslines (mask_abslines c) c = c.
Proof. by destruct c. Qed.

(** ** Masking *)

Lemma ew_lt_angstrom line thr :
  ew_lt (ew line) thr = true <-> (ew_angstrom line < thr)%Q.
Proof.
  unfold ew_lt, ew_angstrom. rewrite Qltb_lt.
  assert (H8 : (0 < 10 ^ 8)%Q) by reflexivity.
  split; intros H.
  - apply Qlt_shift_div_r; [exact H8 | exact H].
  - apply (Qmult_lt_r _ _ _ H8) in H.
    assert (E : (ew line == ew line / 10 ^ 8 * 10 ^ 8)%Q) by field.
    rewrite E. exact H.
Qed.

Lemma ew_ge_angstrom line thr :
  ew_lt (ew line) thr = false <-> (thr <= ew_angstrom line)%Q.
Proof.
  split; intros H.
  - apply Qnot_lt_le. intros L. apply ew_lt_angstrom in L. congruence.
  - destruct (ew_lt (ew line) thr) eqn:E; [|done].
    apply ew_lt_angstrom in E. exfalso. apply (Qlt_not_le _ _ E H).
Qed.

Lemma length_mask_apply thr lines : forall ii mask,
  length (mask_apply thr ii lines mask) = length mask.
Proof.
  induction lines as [|line rest IH]; intros ii mask; simpl; [done|].
  by rewrite IH, length_alter.
Qed.

Lemma mask_apply_ge thr lines : forall ii mask,
  length mask <= ii -> mask_apply thr ii lines mask = mask.
Proof.
  induction lines as [|line rest IH]; intros ii mask Hii; simpl; [done|].
  rewrite IH by (rewrite length_alter; lia).
  apply list_eq. intros j. destruct (decide (ii = j)) as [->|Hne].
  - rewrite list_lookup_alter_eq.
    by rewrite (lookup_ge_None_2 mask j) by lia.
  - by rewrite list_lookup_alter_ne.
Qed.

Lemma lookup_mask_apply_lt thr lines : forall ii mask j,
  j < ii -> mask_apply thr ii lines mask !! j = mask !! j.
Proof.
  induction lines as [|line rest IH]; intros ii mask j Hj; simpl; [done|].
  rewrite IH by lia. apply list_lookup_alter_ne. lia.
Qed.

Lemma lookup_mask_apply thr lines : forall ii mask i line,
  lines !! i = Some line ->
  mask_apply thr ii lines mask !! (ii + i)
  = mask_entry thr line <$> mask !! (ii + i).
Proof.
  induction lines as [|l0 rest IH]; intros ii mask i line Hi; [done|].
  destruct i as [|i]; simpl in *.
  - injection Hi as ->. rewrite Nat.add_0_r.
    rewrite lookup_mask_apply_lt by lia. apply list_lookup_alter_eq.
  - replace (ii + S i) with (S ii + i) by lia.
    rewrite (IH _ _ _ _ Hi). by rewrite list_lookup_alter_ne by lia.
Qed.

Lemma lookup_mask_apply_0 thr lines mask i line :
  lines !! i = Some line ->
  mask_apply thr 0 lines mask !! i = mask_entry thr line <$> mask !! i.
Proof. apply (lookup_mask_apply thr lines 0 mask i line). Qed.

Lemma lookup_mask_apply_beyond thr lines : forall ii mask j,
  ii + length lines <= j -> mask_apply thr ii lines mask !! j = mask !! j.
Proof.
  induction lines as [|l0 rest IH]; intros ii mask j Hj; simpl in *; [done|].
  rewrite IH by lia. apply list_lookup_alter_ne. lia.
Qed.

(** Whether the loop reaches the end of [lines] without an index error. *)
Definition loop_fits (ii : nat) (lines : list AbsLine) (mask : list Z) : Prop :=
  lines = [] \/ ii + length lines <= length mask.

#[local] Instance loop_fits_dec ii lines mask :
  Decision (loop_fits ii lines mask) := ltac:(unfold loop_fits; apply _).

Lemma mask_loop_run thr lines : forall ii c,
  mask_loop thr ii lines c
  = ([], (if decide (loop_fits ii lines (mask_abslines c))
          then Done tt else Raised IndexError)
           (set_mask_abslines
              (mask_apply thr ii lines (mask_abslines c)) c)).
Proof.
  induction lines as [|line rest IH]; intros ii c.
  - simpl. unfold ret. rewrite set_mask_abslines_id.
    destruct (decide (loop_fits ii [] (mask_abslines c))) as [|N]; [done|].
    exfalso. apply N. by left.
  - cbn [mask_loop mask_apply].
    destruct (decide (ii < length (mask_abslines c))) as [Hlt|Hge].
    + assert (Hstep :
        (if ew_lt (ew line) thr then mask_set ii 0
         else let* m := mask_get ii in
              if (m =? 0)%Z then mask_set ii 2 else ret tt) c
        = ([], Done tt (set_mask_abslines
              (alter (mask_entry thr line) ii (mask_abslines c)) c))).
      { destruct (lookup_lt_is_Some_2 _ _ Hlt) as [m Hm].
        assert (Ha : forall v, mask_entry thr line m = v ->
           alter (mask_entry thr line) ii (mask_abslines c)
           = <[ii := v]> (mask_abslines c)).
        { intros v <-. apply list_eq. intros j.
          destruct (decide (ii = j)) as [->|].
          - rewrite list_lookup_alter_eq, list_lookup_insert_eq by done.
            by rewrite Hm.
          - by rewrite list_lookup_alter_ne, list_lookup_insert_ne. }
        unfold mask_entry in Ha |- *.
        destruct (ew_lt (ew line) thr).
        - unfold mask_set. rewrite decide_True by done.
          by rewrite (Ha 0%Z).
        - unfold mask_get. run_monad. rewrite Hm. cbn.
          destruct (m =? 0)%Z eqn:E.
          + unfold mask_set. rewrite decide_True by done.
            by rewrite (Ha 2%Z).
          + unfold ret. rewrite (Ha m) by done.
            rewrite list_insert_id by done.
            by rewrite set_mask_abslines_id. }
      unfold bind at 1. rewrite Hstep, IH. cbn.
      assert (Hiff :
        loop_fits (S ii) rest (alter (mask_entry thr line) ii (mask_abslines c))
        <-> loop_fits ii (line :: rest) (mask_abslines c)).
      { unfold loop_fits. rewrite length_alter. simpl. split.
        - intros [->|F]; right; simpl; lia.
        - intros [F|F]; [done|].
          destruct rest; [by left|right; simpl in *; lia]. }
      destruct c; cbn in *.
      repeat case_decide; try done; exfalso; destruct Hiff; eauto.
    + assert (Hstep :
        (if ew_lt (ew line) thr then mask_set ii 0
         else let* m := mask_get ii in
              if (m =? 0)%Z then mask_set ii 2 else ret tt) c
        = ([], Raised IndexError c)).
      { destruct (ew_lt (ew line) thr).
        - unfold mask_set. by rewrite decide_False by done.
        - unfold mask_get. run_monad.
          by rewrite (lookup_ge_None_2 _ ii) by lia. }
      unfold bind at 1. rewrite Hstep.
      rewrite decide_False.
      2:{ unfold loop_fits. simpl. intros [?|?]; [done|lia]. }
      rewrite (mask_apply_ge thr rest).
      2:{ rewrite length_alter. lia. }
      replace (alter (mask_entry thr line) ii (mask_abslines c))
        with (mask_abslines c).
      * by rewrite set_mask_abslines_id.
      * apply list_eq. intros j. destruct (decide (ii = j)) as [->|].
        -- rewrite list_lookup_alter_eq.
           by rewrite (lookup_ge_None_2 _ j) by lia.
        -- by rewrite list_lookup_alter_ne.
Qed.

Lemma mask_comp_lines_run thr c :
  mask_comp_lines thr c
  = let m' := mask_apply thr 0 (_abslines c) (mask_abslines c) in
    if decide (loop_fits 0 (_abslines c) (mask_abslines c)) then
      (if (np_sum m' =? 0)%Z then [WarnNoLineAboveMinEw (name c) thr] else [],
       Done tt (set_mask_abslines m' c))
    else ([], Raised IndexError (set_mask_abslines m' c)).
Proof.
  unfold mask_comp_lines. unfold bind at 1. cbn.
  unfold bind at 1. rewrite mask_loop_run. cbn.
  case_decide; [|done].
  destruct c; simpl.
  destruct (np_sum _ =? 0)%Z; reflexivity.
Qed.

Lemma mask_entry_idem thr line m :
  mask_entry thr line (mask_entry thr line m) = mask_entry thr line m.
Proof.
  unfold mask_entry. destruct (ew_lt (ew line) thr); [done|].
  destruct (m =? 0)%Z eqn:E; [done|]. by rewrite E.
Qed.

Lemma mask_apply_idem thr lines mask :
  mask_apply thr 0 lines (mask_apply thr 0 lines mask)
  = mask_apply thr 0 lines mask.
Proof.
  apply list_eq. intros j.
  destruct (lines !! j) as [line|] eqn:Hj.
  - rewrite !(lookup_mask_apply thr lines 0 _ j line Hj).
    destruct (mask !! (0 + j)); cbn; [|done]. by rewrite mask_entry_idem.
  - apply lookup_ge_None_1 in Hj.
    by rewrite !lookup_mask_apply_beyond by (cbn; lia).
Qed.

(** C3. For every component and threshold (the component carrying a mask
    entry for each of its lines), [mask_comp_lines] returns; it leaves the
    lines as they are; the equivalent width it estimates for a line is
    [f * wrest^2 * 10^logN / (1.13e12 * cm)], one centimetre being 1e8
    Angstrom; afterwards every line whose estimate is below the threshold has
    mask 0, and every line whose estimate is at or above the threshold and
    whose mask was 0 has mask 2. *)
Theorem mask_comp_lines_threshold (thr : Q) (c : AbsComponent) :
  length (_abslines c) <= length (mask_abslines c) ->
  exists w c',
    mask_comp_lines thr c = (w, Done tt c') /\
    _abslines c' = _abslines c /\
    forall i line, _abslines c !! i = Some line ->
      (ew_angstrom line ==
         t_f (data line) * t_wrest (data line) ^ 2 * pow10 (l_logN line)
         / ((113 # 100) * 10 ^ 12 * 10 ^ 8))%Q /\
      ((ew_angstrom line < thr)%Q -> mask_abslines c' !! i = Some 0%Z) /\
      ((thr <= ew_angstrom line)%Q -> mask_abslines c !! i = Some 0%Z ->
         mask_abslines c' !! i = Some 2%Z).
Proof.
  intros Hlen. rewrite mask_comp_lines_run. cbv zeta.
  rewrite decide_True by (right; cbn; lia).
  eexists _, _. split; [reflexivity|]. split; [by destruct c|].
  intros i line Hi.
  assert (Hlt : i < length (mask_abslines c)).
  { apply lookup_lt_Some in Hi. lia. }
  destruct (lookup_lt_is_Some_2 _ _ Hlt) as [m Hm].
  assert (Hnew : mask_abslines
            (set_mask_abslines
               (mask_apply thr 0 (_abslines c) (mask_abslines c)) c) !! i
          = Some (mask_entry thr line m)).
  { destruct c; cbn in *.
    rewrite (lookup_mask_apply thr _ 0 _ i line Hi). cbn. by rewrite Hm. }
  split; [|split].
  - unfold ew_angstrom, ew. apply Qdiv_div.
  - intros Hew. rewrite Hnew. unfold mask_entry.
    apply ew_lt_angstrom in Hew. by rewrite Hew.
  - intros Hew Hzero. rewrite Hnew. unfold mask_entry.
    apply ew_ge_angstrom in Hew. rewrite Hew.
    rewrite Hm in Hzero. by injection Hzero as ->.
Qed.

(** C4. Masking is idempotent: a second call of [mask_comp_lines] with the
    same threshold on the component the first call left (its lines, hence
    their logN, untouched) ends exactly as the first call did, with the same
    mask array. *)
Theorem mask_comp_lines_idempotent (thr : Q) (c : AbsComponent) :
  mask_comp_lines thr (final_state (mask_comp_lines thr c))
  = mask_comp_lines thr c /\
  mask_abslines
    (final_state (mask_comp_lines thr (final_state (mask_comp_lines thr c))))
  = mask_abslines (final_state (mask_comp_lines thr c)) /\
  _abslines (final_state (mask_comp_lines thr c)) = _abslines c.
Proof.
  set (m' := mask_apply thr 0 (_abslines c) (mask_abslines c)).
  assert (Hf : final_state (mask_comp_lines thr c) = set_mask_abslines m' c).
  { rewrite mask_comp_lines_run. cbv zeta. fold m'. by case_decide. }
  assert (Hs : mask_comp_lines thr (set_mask_abslines m' c)
               = mask_comp_lines thr c).
  { rewrite !mask_comp_lines_run. cbv zeta.
    assert (Hm : mask_abslines (set_mask_abslines m' c) = m') by (by destruct c).
    assert (Hl : _abslines (set_mask_abslines m' c) = _abslines c)
      by (by destruct c).
    assert (Hn : name (set_mask_abslines m' c) = name c) by (by destruct c).
    assert (Hss : forall x, set_mask_abslines x (set_mask_abslines m' c)
                            = set_mask_abslines x c) by (by destruct c).
    rewrite Hm, Hl, Hn, Hss. subst m'. rewrite mask_apply_idem.
    assert (Hiff :
      loop_fits 0 (_abslines c)
                (mask_apply thr 0 (_abslines c) (mask_abslines c))
      <-> loop_fits 0 (_abslines c) (mask_abslines c)).
    { unfold loop_fits. by rewrite length_mask_apply. }
    repeat case_decide; try done; exfalso; destruct Hiff; eauto. }
  rewrite Hf, Hs, Hf. repeat split; by destruct c.
Qed.

(** C10. For every component whose mask entries all lie in {0, 1, 2} (one
    entry per line at least), [mask_comp_lines] returns with every entry
    still in {0, 1, 2}; and a line with mask 1 whose estimated equivalent
    width is at or above the threshold keeps mask 1. *)
Theorem mask_comp_lines_keeps_display_only (thr : Q) (c : AbsComponent) :
  length (_abslines c) <= length (mask_abslines c) ->
  Forall (fun m => m = 0 \/ m = 1 \/ m = 2)%Z (mask_abslines c) ->
  exists w c',
    mask_comp_lines thr c = (w, Done tt c') /\
    Forall (fun m => m = 0 \/ m = 1 \/ m = 2)%Z (mask_abslines c') /\
    forall i line, _abslines c !! i = Some line ->
      mask_abslines c !! i = Some 1%Z ->
      (thr <= ew_angstrom line)%Q ->
      mask_abslines c' !! i = Some 1%Z.
Proof.
  intros Hlen Hval. rewrite mask_comp_lines_run. cbn.
  rewrite decide_True by (right; cbn; lia).
  eexists _, _. split; [reflexivity|].
  destruct c as [n zc vl st iw att cm lines mask]; cbn in *. split.
  - apply Forall_lookup. intros j m Hj.
    destruct (lines !! j) as [line|] eqn:Hl.
    + rewrite (lookup_mask_apply_0 thr lines mask j line Hl) in Hj.
      destruct (mask !! j) as [m0|] eqn:Hm0; [|done].
      cbn in Hj. injection Hj as <-.
      pose proof (proj1 (Forall_lookup _ _) Hval j m0 Hm0) as Hv.
      unfold mask_entry. destruct (ew_lt _ _); [by left|].
      destruct (m0 =? 0)%Z; [by right; right|done].
    + apply lookup_ge_None_1 in Hl.
      rewrite lookup_mask_apply_beyond in Hj by (cbn; lia).
      exact (proj1 (Forall_lookup _ _) Hval j m Hj).
  - intros i line Hi Hone Hew.
    rewrite (lookup_mask_apply_0 thr lines mask i line Hi).
    rewrite Hone. cbn. unfold mask_entry.
    apply ew_ge_angstrom in Hew. by rewrite Hew.
Qed.

(** ** Construction *)

(** C6, as the code has it.  When the catalogue returns no transition,
    [create_component] fails with the [IndexError] of reading the first line
    of an empty list (no [ValueError] is raised).  When it returns at least
    one, the component has the given redshift and velocity limits and one
    line per transition, in order, each built on the atomic data of that
    transition's wavelength, with the component's redshift and velocity
    limits and mask 2. *)
Theorem create_component_lines (z wrest : Q) (vl : Q * Q) :
  (all_transitions wrest = [] ->
   create_component z wrest vl = Err IndexError) /\
  (all_transitions wrest <> [] ->
   exists c,
     create_component z wrest vl = Ok c /\
     zcomp c = z /\ vlim c = vl /\ init_wrest c = wrest /\
     length (_abslines c) = length (all_transitions wrest) /\
     length (mask_abslines c) = length (_abslines c) /\
     forall i trans, all_transitions wrest !! i = Some trans ->
       exists line,
         _abslines c !! i = Some line /\
         data line = atomic_data (t_wrest trans) /\
         l_z line = z /\ l_vlim line = vl /\
         mask_abslines c !! i = Some 2%Z).
Proof.
  unfold create_component. split.
  - by intros ->.
  - intros Hne. destruct (all_transitions wrest) as [|t0 ts] eqn:E; [done|].
    cbn. eexists. split; [reflexivity|]. cbn.
    rewrite length_replicate, !length_fmap.
    repeat split.
    intros i trans Hi. exists (new_absline z vl trans). repeat split.
    + destruct i as [|i]; cbn in *; [by injection Hi as ->|].
      exact (lookup_fmap_Some_2 (new_absline z vl) ts i trans Hi).
    + apply (lookup_replicate_2 (S (length ts)) 2%Z i).
      apply lookup_lt_Some in Hi. cbn in Hi. lia.
Qed.

(** ** Reading a previous file: the FWHM check *)

Lemma load_bad_pixels_run d g :
  exists r, load_bad_pixels d g = ([], r) /\
    spec_filename (final_state (([] : list msg), r)) = spec_filename g.
Proof.
  unfold load_bad_pixels. destruct (d_bad_pixels d) as [bad|].
  - case_decide.
    + run_monad. destruct (np_put bad 1 (bad_pixels g)); cbn; eauto.
    + run_monad. eauto.
  - run_monad. eauto.
Qed.

(** C5. [read_previous] raises [ValueError] whenever the stored FWHM differs
    from the session's, in the state it was called in: nothing has been
    mutated and no component built.  A differing spectrum file name changes
    neither the outcome nor the final state of [read_previous]; once the bad
    pixels are loaded it only adds the warning to what is reported. *)
Theorem read_previous_fwhm_check (igmg_dict : IgmgDict) (g : Gui) :
  (~ (d_fwhm igmg_dict == fwhm g)%Q ->
   read_previous igmg_dict g = ([], Raised ValueError g)) /\
  ((d_fwhm igmg_dict == fwhm g)%Q ->
   spec_filename g <> d_spec_file igmg_dict ->
   let same_name := set_d_spec_file (spec_filename g) igmg_dict in
   (read_previous igmg_dict g).2 = (read_previous same_name g).2 /\
   forall g1, load_bad_pixels igmg_dict g = ([], Done tt g1) ->
     (read_previous igmg_dict g).1
     = WarnSpecFileMismatch :: (read_previous same_name g).1).
Proof.
  split.
  - intros Hne. unfold read_previous. unfold bind at 1. cbn.
    destruct (Qeq_bool (d_fwhm igmg_dict) (fwhm g)) eqn:E; [|done].
    apply Qeq_bool_iff in E. done.
  - intros Heq Hfile same_name.
    apply Qeq_bool_iff in Heq.
    unfold read_previous. rewrite !bind_gets.
    change (d_fwhm same_name) with (d_fwhm igmg_dict). rewrite Heq. cbn [negb].
    destruct (load_bad_pixels_run igmg_dict g) as (r & Hbad & Hfn).
    change (load_bad_pixels same_name) with (load_bad_pixels igmg_dict).
    destruct r as [[] g1|e g1]; cbn in Hfn.
    2:{ rewrite !(bind_Raised _ _ _ _ _ _ Hbad). split; [done|].
        intros g2 Hg2. rewrite Hg2 in Hbad. done. }
    rewrite !(bind_Done _ _ _ _ _ _ Hbad). rewrite !bind_gets.
    change (d_spec_file same_name) with (spec_filename g).
    rewrite Hfn. rewrite decide_False by done. rewrite decide_True by done.
    rewrite bind_tell, bind_ret.
    change (d_cmps same_name) with (d_cmps igmg_dict). cbn.
    split; [done|]. by intros g2 _.
Qed.

(** ** A small program logic for [M] *)

(** [triple P m Post E]: from a state in [P], [m] returns [a] in a state of
    [Post a], or raises in a state of [E]. *)
Definition triple {S A} (P : S -> Prop) (m : M S A)
           (Post : A -> S -> Prop) (E : S -> Prop) : Prop :=
  forall s, P s ->
    match (m s).2 with
    | Done a s' => Post a s'
    | Raised _ s' => E s'
    end.

Lemma triple_bind {S A B} (P : S -> Prop) (m : M S A) (k : A -> M S B)
      (Post : A -> S -> Prop) (Post' : B -> S -> Prop) (E : S -> Prop) :
  triple P m Post E -> (forall a, triple (Post a) (k a) Post' E) ->
  triple P (bind m k) Post' E.
Proof.
  intros Hm Hk s Hs. specialize (Hm s Hs). unfold bind.
  destruct (m s) as [w [a s'|e s']]; cbn in *; [|done].
  specialize (Hk a s' Hm). by destruct (k a s') as [w' r].
Qed.

Lemma triple_ret {S A} (P : S -> Prop) (a : A) (Post : A -> S -> Prop) E :
  (forall s, P s -> Post a s) -> triple P (ret a) Post E.
Proof. intros H s Hs. by apply H. Qed.

Lemma triple_gets {S A} (P : S -> Prop) (f : S -> A) (Post : A -> S -> Prop) E :
  (forall s, P s -> Post (f s) s) -> triple P (gets f) Post E.
Proof. intros H s Hs. by apply H. Qed.

Lemma triple_modify {S} (P : S -> Prop) (f : S -> S) (Post : unit -> S -> Prop) E :
  (forall s, P s -> Post tt (f s)) -> triple P (modify f) Post E.
Proof. intros H s Hs. by apply H. Qed.

Lemma triple_tell {S} (P : S -> Prop) w (Post : unit -> S -> Prop) E :
  (forall s, P s -> Post tt s) -> triple P (tell w) Post E.
Proof. intros H s Hs. by apply H. Qed.

Lemma triple_raise {S A} (P : S -> Prop) e (Post : A -> S -> Prop) (E : S -> Prop) :
  (forall s, P s -> E s) -> triple P (raise e) Post E.
Proof. intros H s Hs. by apply H. Qed.

Lemma triple_expect {S A} (P : S -> Prop) e (o : option A)
      (Post : A -> S -> Prop) (E : S -> Prop) :
  (forall a s, o = Some a -> P s -> Post a s) ->
  (forall s, o = None -> P s -> E s) ->
  triple P (expect e o) Post E.
Proof. intros H1 H2 s Hs. destruct o; cbn; eauto. Qed.

Lemma triple_pure {S A} (P : S -> Prop) (m : M S A) (Post : A -> S -> Prop)
      (E : S -> Prop) (phi : Prop) :
  triple P m Post E ->
  triple (fun s => P s /\ phi) m (fun a s => Post a s /\ phi) E.
Proof.
  intros H s [Hs Hphi]. specialize (H s Hs).
  destruct ((m s).2); [by split|done].
Qed.

Lemma triple_final {S A} (P : S -> Prop) (m : M S A) (I : S -> Prop) s :
  triple P m (fun _ => I) I -> P s -> I (final_state (m s)).
Proof.
  intros H Hs. specialize (H s Hs). unfold final_state.
  by destruct ((m s).2).
Qed.

(** ** Writing out leaves the live registry alone *)

(** [s] is [g0] with a store that only grew past the objects of [g0]. *)
Definition grown_from (g0 s : Gui) : Prop :=
  set_heap (heap g0) s = g0 /\ exists ext, heap s = heap g0 ++ ext.

Lemma grown_from_refl g : grown_from g g.
Proof. split; [by destruct g|]. exists []. by rewrite app_nil_r. Qed.

Lemma grown_from_set_heap g0 s h :
  grown_from g0 s -> (exists ext, h = heap g0 ++ ext) ->
  grown_from g0 (set_heap h s).
Proof. intros [H1 _] H2. split; [|done]. rewrite <- H1 at 2. by destruct s. Qed.

Lemma gets_grown {A} g0 (f : Gui -> A) :
  triple (grown_from g0) (gets f) (fun _ => grown_from g0) (grown_from g0).
Proof. by apply triple_gets. Qed.

Lemma deref_grown g0 l :
  triple (grown_from g0) (deref l) (fun _ => grown_from g0) (grown_from g0).
Proof.
  unfold deref. eapply triple_bind; [apply gets_grown|].
  intros h. by apply triple_expect.
Qed.

Lemma alloc_grown g0 c :
  triple (grown_from g0) (alloc c)
         (fun l s => grown_from g0 s /\ length (heap g0) <= l) (grown_from g0).
Proof.
  intros s Hs. cbn. split.
  - apply grown_from_set_heap; [done|]. destruct Hs as [_ [ext ->]].
    exists (ext ++ [c]). by rewrite app_assoc.
  - destruct Hs as [_ [ext ->]]. rewrite length_app. lia.
Qed.

Lemma at_comp_grown {A} g0 (l : loc) (m : M AbsComponent A) :
  length (heap g0) <= l ->
  triple (grown_from g0) (at_comp l m) (fun _ => grown_from g0) (grown_from g0).
Proof.
  intros Hl s Hs. unfold at_comp.
  destruct (heap s !! l) as [c|] eqn:Hc; [|exact Hs].
  assert (Hh : forall c', exists ext, <[l := c']> (heap s) = heap g0 ++ ext).
  { intros c'. destruct Hs as [_ [ext Hext]]. rewrite Hext.
    exists (<[l - length (heap g0) := c']> ext).
    by rewrite insert_app_r_alt by lia. }
  destruct (m c) as [w [a c'|e c']]; cbn; by apply grown_from_set_heap.
Qed.

Lemma deepcopy_grown g0 comps :
  triple (grown_from g0) (deepcopy comps)
         (fun locs s => grown_from g0 s /\
                        Forall (fun l => length (heap g0) <= l) locs)
         (grown_from g0).
Proof.
  induction comps as [|l r IH]; cbn [deepcopy].
  - apply triple_ret. by split.
  - eapply triple_bind; [apply deref_grown|].
    intros c. eapply triple_bind; [apply alloc_grown|].
    intros l'. eapply triple_bind.
    + apply (triple_pure _ _ _ _ (length (heap g0) <= l') IH).
    + intros r'. apply triple_ret. intros s [[Hs Hr] Hl']. split; [done|].
      by constructor.
Qed.

Lemma write_comps_grown g0 comps_aux : forall cmps,
  Forall (fun l => length (heap g0) <= l) comps_aux ->
  triple (grown_from g0) (write_comps comps_aux cmps)
         (fun _ => grown_from g0) (grown_from g0).
Proof.
  induction comps_aux as [|l r IH]; intros cmps Hall; cbn [write_comps].
  - by apply triple_ret.
  - inversion Hall as [|? ? Hl Hr]; subst.
    eapply triple_bind; [by apply at_comp_grown|]. intros u.
    eapply triple_bind; [apply deref_grown|].
    intros c. by apply IH.
Qed.

Lemma write_out_grown g : grown_from g (final_state (write_out g)).
Proof.
  apply (triple_final (grown_from g)); [|apply grown_from_refl].
  unfold write_out.
  eapply triple_bind; [apply gets_grown|]. intros all.
  eapply triple_bind; [apply deepcopy_grown|]. intros comps_aux.
  eapply triple_bind.
  { intros s [Hs Hall]. by apply write_comps_grown. }
  intros cmps.
  eapply triple_bind; [apply gets_grown|]. intros bad.
  eapply triple_bind; [apply gets_grown|]. intros fn.
  eapply triple_bind; [apply gets_grown|]. intros fw.
  by apply triple_ret.
Qed.

(** C9. [write_out] does not mutate the live registry.  Whether it returns
    or raises, the component list and the list of names are the ones it
    started with, every component object that existed before the call is
    unchanged (its lines and its mask array among the rest), and nothing
    but the store, where the deep copies were made, differs from the state
    before. *)
Theorem write_out_keeps_registry (g : Gui) :
  let g' := final_state (write_out g) in
  all_comp g' = all_comp g /\
  all_items g' = all_items g /\
  (forall l c, heap g !! l = Some c ->
     heap g' !! l = Some c /\
     (forall c', heap g' !! l = Some c' ->
        _abslines c' = _abslines c /\ mask_abslines c' = mask_abslines c)) /\
  set_heap (heap g) g' = g.
Proof.
  intros g'. destruct (write_out_grown g) as [Hset [ext Hext]].
  fold g' in Hset, Hext.
  assert (Hl : forall l c, heap g !! l = Some c -> heap g' !! l = Some c).
  { intros l c Hl. rewrite Hext. rewrite lookup_app_l; [done|].
    by apply lookup_lt_Some in Hl. }
  split; [by rewrite <- Hset|]. split; [by rewrite <- Hset|].
  split; [|done]. intros l c Hc. split; [by apply Hl|].
  intros c' Hc'. apply Hl in Hc. rewrite Hc in Hc'. by injection Hc' as ->.
Qed.

(** ** Writing out, step by step *)

Lemma set_heap_set_heap h h' g : set_heap h (set_heap h' g) = set_heap h g.
Proof. by destruct g. Qed.

Lemma set_heap_id g : set_heap (heap g) g = g.
Proof. by destruct g. Qed.

Lemma deref_run (l : loc) g c :
  heap g !! l = Some c -> deref l g = ([], Done c g).
Proof. intros H. unfold deref. rewrite bind_gets. by rewrite H. Qed.

Lemma alloc_run c g :
  alloc c g = ([], Done (length (heap g)) (set_heap (heap g ++ [c]) g)).
Proof. done. Qed.

Lemma at_comp_run {A} (l : loc) (m : M AbsComponent A) g c w a c' :
  heap g !! l = Some c -> m c = (w, Done a c') ->
  at_comp l m g = (w, Done a (set_heap (<[l := c']> (heap g)) g)).
Proof. intros H Hm. unfold at_comp. by rewrite H, Hm. Qed.

Lemma mask_get_run ii c m :
  mask_abslines c !! ii = Some m -> mask_get ii c = ([], Done m c).
Proof. intros H. unfold mask_get. rewrite bind_gets. by rewrite H. Qed.

Lemma unmasked_run lines : forall ii c,
  ii + length lines <= length (mask_abslines c) ->
  unmasked ii lines c = ([], Done (kept lines (drop ii (mask_abslines c))) c).
Proof.
  induction lines as [|line rest IH]; intros ii c Hlen; cbn [unmasked].
  - by destruct (drop ii (mask_abslines c)).
  - cbn in Hlen.
    destruct (lookup_lt_is_Some_2 (mask_abslines c) ii) as [m Hm]; [lia|].
    rewrite (bind_Done _ _ _ _ _ _ (mask_get_run ii c m Hm)).
    rewrite (bind_Done _ _ _ _ _ _ (IH (S ii) c ltac:(lia))).
    rewrite (drop_S _ _ _ Hm). cbn. by destruct (m =? 0)%Z.
Qed.

Lemma drop_masked_run c :
  length (_abslines c) <= length (mask_abslines c) ->
  drop_masked c = ([], Done tt (pruned c)).
Proof.
  intros Hlen. unfold drop_masked. rewrite bind_gets.
  rewrite (bind_Done _ _ _ _ _ _ (unmasked_run (_abslines c) 0 c Hlen)).
  cbn. by destruct c.
Qed.

Lemma kept_length lines : forall mask,
  length (kept lines mask).1 = length (kept lines mask).2.
Proof.
  induction lines as [|line rest IH]; intros [|m mrest]; cbn; try done.
  destruct (m =? 0)%Z; cbn; by rewrite ?IH.
Qed.

Lemma kept_masks lines : forall mask,
  length mask = length lines ->
  (kept lines mask).2 = filter (fun m => m <> 0%Z) mask.
Proof.
  induction lines as [|line rest IH]; intros [|m mrest] Hlen;
    try done.
  cbn [kept]. rewrite filter_cons. cbn in Hlen.
  destruct (Z.eqb_spec m 0) as [->|Hne].
  - rewrite decide_False by (intros H; by apply H). apply IH. lia.
  - rewrite decide_True by done. cbn [snd]. f_equal. apply IH. lia.
Qed.

Lemma kept_origin lines : forall mask j line m,
  (kept lines mask).1 !! j = Some line ->
  (kept lines mask).2 !! j = Some m ->
  m <> 0%Z /\ exists i, lines !! i = Some line /\ mask !! i = Some m.
Proof.
  induction lines as [|l0 rest IH]; intros [|m0 mrest] j line m H1 H2;
    cbn in *; try done.
  destruct (Z.eqb_spec m0 0) as [->|Hne].
  - destruct (IH _ _ _ _ H1 H2) as (Hm & i & Hi1 & Hi2).
    split; [done|]. by exists (S i).
  - destruct j as [|j]; cbn in *.
    + injection H1 as ->. injection H2 as ->. split; [done|]. by exists 0.
    + destruct (IH _ _ _ _ H1 H2) as (Hm & i & Hi1 & Hi2).
      split; [done|]. by exists (S i).
Qed.

Lemma deepcopy_run comps : forall g cs,
  Forall2 (fun (l : loc) c => heap g !! l = Some c) comps cs ->
  deepcopy comps g
  = ([], Done (seq (length (heap g)) (length comps))
              (set_heap (heap g ++ cs) g)).
Proof.
  induction comps as [|l r IH]; intros g cs Hall.
  - inversion Hall; subst. cbn. unfold ret.
    by rewrite app_nil_r, set_heap_id.
  - inversion Hall as [|? c ? cs' Hl Hr]; subst. cbn [deepcopy].
    rewrite (bind_Done _ _ _ _ _ _ (deref_run l g c Hl)).
    rewrite (bind_Done _ _ _ _ _ _ (alloc_run c g)).
    assert (Hr' : Forall2 (fun (l0 : loc) c0 =>
                     heap (set_heap (heap g ++ [c]) g) !! l0 = Some c0) r cs').
    { eapply Forall2_impl; [exact Hr|]. intros l0 c0 H0.
      destruct g; cbn in *. rewrite lookup_app_l; [done|].
      by apply lookup_lt_Some in H0. }
    rewrite (bind_Done _ _ _ _ _ _ (IH _ _ Hr')). cbn.
    rewrite set_heap_set_heap. destruct g; cbn.
    rewrite length_app. cbn. rewrite <- app_assoc. cbn.
    by rewrite Nat.add_1_r.
Qed.

(** The dictionary [write_comps] builds from the copies. *)
Definition records_of (cs : list AbsComponent) (cmps : gmap string CompRecord)
  : gmap string CompRecord :=
  foldl (fun m c => <[name c := to_record (pruned c)]> m) cmps cs.

Definition fits_mask (c : AbsComponent) : Prop :=
  length (_abslines c) <= length (mask_abslines c).

Lemma write_comps_run cs : forall pre cmps g,
  heap g = pre ++ cs ->
  Forall fits_mask cs ->
  write_comps (seq (length pre) (length cs)) cmps g
  = ([], Done (records_of cs cmps) (set_heap (pre ++ (pruned <$> cs)) g)).
Proof.
  induction cs as [|c cs IH]; intros pre cmps g Hheap Hfit.
  - cbn. unfold ret. rewrite app_nil_r in *. by rewrite <- Hheap, set_heap_id.
  - inversion Hfit as [|? ? Hc Hcs]; subst. cbn [length seq write_comps].
    assert (Hl : heap g !! length pre = Some c).
    { rewrite Hheap. by rewrite list_lookup_middle. }
    rewrite (bind_Done _ _ _ _ _ _
               (at_comp_run _ _ _ _ _ _ _ Hl (drop_masked_run c Hc))).
    assert (Hh' : <[length pre := pruned c]> (heap g)
                  = (pre ++ [pruned c]) ++ cs).
    { rewrite Hheap. rewrite insert_app_r_alt by lia.
      rewrite Nat.sub_diag. cbn. by rewrite <- app_assoc. }
    rewrite Hh'.
    set (g1 := set_heap ((pre ++ [pruned c]) ++ cs) g).
    assert (Hl1 : heap g1 !! length pre = Some (pruned c)).
    { subst g1. destruct g; cbn. rewrite <- app_assoc. cbn.
      by rewrite list_lookup_middle. }
    rewrite (bind_Done _ _ _ _ _ _ (deref_run _ _ _ Hl1)).
    assert (Hg1 : heap g1 = (pre ++ [pruned c]) ++ cs) by (by destruct g).
    assert (Hn : name (pruned c) = name c) by (by destruct c).
    rewrite Hn.
    pose proof (IH (pre ++ [pruned c]) (<[name c := to_record (pruned c)]> cmps)
                   g1 Hg1 Hcs) as Hrec.
    rewrite length_app, Nat.add_1_r in Hrec.
    rewrite Hrec. subst g1. rewrite set_heap_set_heap.
    rewrite <- app_assoc. done.
Qed.

Lemma write_out_run g cs :
  Forall2 (fun (l : loc) c => heap g !! l = Some c) (all_comp g) cs ->
  Forall fits_mask cs ->
  write_out g
  = ([], Done {| d_cmps := records_of cs ∅;
                 d_spec_file := spec_filename g;
                 d_fwhm := fwhm g;
                 d_bad_pixels :=
                   Some (Z.of_nat <$> np_where (Z.eqb 1) (bad_pixels g)) |}
              (set_heap (heap g ++ (pruned <$> cs)) g)).
Proof.
  intros Hall Hfit. unfold write_out. rewrite bind_gets.
  rewrite (bind_Done _ _ _ _ _ _ (deepcopy_run _ _ _ Hall)).
  assert (Hh : heap (set_heap (heap g ++ cs) g) = heap g ++ cs)
    by (by destruct g).
  pose proof (write_comps_run cs (heap g) ∅ _ Hh Hfit) as Hw.
  rewrite <- (Forall2_length _ _ _ Hall) in Hw.
  rewrite (bind_Done _ _ _ _ _ _ Hw).
  rewrite !bind_gets. rewrite set_heap_set_heap. by destruct g.
Qed.

(** ** Reading a record, step by step *)

(** The component [load_build] makes of a record, with what it warns. *)
Definition built (r : CompRecord) : result (AbsComponent * list msg) :=
  match r_lines r with
  | Some ls =>
      let comp := from_dict r ls in
      let comp := set_attrib (comp_init_attrib comp) comp in
      let comp := set_init_wrest (r_wrest r) comp in
      match r_mask_abslines r with
      | Some m => Ok (set_mask_abslines m comp, [])
      | None => Ok (set_mask_abslines
                      (replicate (length (_abslines comp)) 2%Z) comp,
                    [WarnSettingAllAbslines])
      end
  | None =>
      match create_component (r_zcomp r) (r_wrest r) (r_vlim r) with
      | Ok comp => Ok (comp, [])
      | Err e => Err e
      end
  end.

(** The reliability tag of a record of either vintage. *)
Definition record_rel (r : CompRecord) : option string :=
  match r_Reliability r with
  | Some v => Some v
  | None => r_Quality r
  end.

(** The session once a new component [c0] is added to it. *)
Definition add_loaded (c0 : AbsComponent) (s : Gui) : Gui :=
  set_current_comp (Some (length (heap s)))
    (set_fiddle_component (Some (length (heap s)))
       (set_all_items (all_items s ++ [name c0])
          (set_all_comp (all_comp s ++ [length (heap s)])
             (set_heap (heap s ++ [c0]) s)))).

(** What [load_fill] makes of the component [c0]: before the masking, and
    after it. *)
Definition synced (key : string) (r : CompRecord) (rel : string)
           (c0 : AbsComponent) : AbsComponent :=
  let a := set_a_Reliability rel
             (set_a_logN (r_Nfit r)
                (set_a_b (r_bfit r) (set_a_z (r_zfit r) (attrib c0)))) in
  let c1 := set_comment (r_Comment r) (set_attrib a (set_name key c0)) in
  set_abslines (sync_line a <$> _abslines c1) c1.

Definition loaded (thr : Q) (key : string) (r : CompRecord) (rel : string)
           (c0 : AbsComponent) : AbsComponent :=
  let c2 := synced key r rel c0 in
  set_mask_abslines (mask_apply thr 0 (_abslines c2) (mask_abslines c2)) c2.

Definition mask_warning (thr : Q) (c : AbsComponent) : list msg :=
  if (np_sum (mask_apply thr 0 (_abslines c) (mask_abslines c)) =? 0)%Z
  then [WarnNoLineAboveMinEw (name c) thr] else [].

(** The session once a record is loaded: the new object is the loaded
    component; the list of names keeps the name the component had when it
    was added. *)
Definition install (c0 cL : AbsComponent) (s : Gui) : Gui :=
  set_heap (heap s ++ [cL]) (add_loaded c0 s).

Lemma mask_comp_lines_Done thr c :
  fits_mask c ->
  mask_comp_lines thr c
  = (mask_warning thr c,
     Done tt (set_mask_abslines
                (mask_apply thr 0 (_abslines c) (mask_abslines c)) c)).
Proof.
  intros Hfit. rewrite mask_comp_lines_run. cbv zeta.
  rewrite decide_True; [done|]. right. unfold fits_mask in Hfit. cbn. lia.
Qed.

Lemma at_comp_last {A} h c s (m : M AbsComponent A) w a c' :
  heap s = h ++ [c] -> m c = (w, Done a c') ->
  at_comp (length h) m s = (w, Done a (set_heap (h ++ [c']) s)).
Proof.
  intros Hh Hm.
  assert (Hl : heap s !! length h = Some c).
  { rewrite Hh. by rewrite list_lookup_middle. }
  rewrite (at_comp_run _ _ _ _ _ _ _ Hl Hm). rewrite Hh.
  rewrite insert_app_r_alt by lia. by rewrite Nat.sub_diag.
Qed.

Lemma add_new_run c0 s :
  bind (alloc c0) add_component s = ([], Done tt (add_loaded c0 s)).
Proof.
  rewrite (bind_Done_nil _ _ _ _ _ (alloc_run c0 s)).
  unfold add_component, comps_add_component, fiddle_init_component.
  assert (Hl : forall s', heap s' = heap s ++ [c0] ->
                          deref (length (heap s)) s' = ([], Done c0 s')).
  { intros s' Hs'. apply deref_run. rewrite Hs'. by rewrite list_lookup_middle. }
  mnorm. erewrite bind_Done_nil; [|apply Hl; by destruct s].
  mnorm. erewrite bind_Done_nil; [|apply Hl; by destruct s].
  mnorm. by destruct s.
Qed.

Lemma load_build_run r s c0 w0 :
  built r = Ok (c0, w0) ->
  load_build r s = (w0, Done tt (add_loaded c0 s)).
Proof.
  unfold built, load_build. intros Hb.
  destruct (r_lines r) as [ls|].
  - destruct (r_mask_abslines r) as [m|]; injection Hb as <- <-.
    + rewrite bind_ret. apply add_new_run.
    + mnorm. by rewrite add_new_run.
  - destruct (create_component _ _ _) as [comp|e]; [|done].
    injection Hb as <- <-. cbn [lift_result]. rewrite bind_ret.
    apply add_new_run.
Qed.

Lemma current_comp_set_heap h s :
  current_comp (set_heap h s) = current_comp s.
Proof. done. Qed.

Lemma min_ew_set_heap h s : min_ew (set_heap h s) = min_ew s.
Proof. done. Qed.

Lemma heap_set_heap h s : heap (set_heap h s) = h.
Proof. done. Qed.

Lemma get_current_comp_run s l :
  current_comp s = Some l -> get_current_comp s = ([], Done l s).
Proof. intros H. unfold get_current_comp. rewrite bind_gets. by rewrite H. Qed.

(** One assignment through [current_comp], the current component being the
    last object of the store. *)
Ltac fill_step Hcur :=
  mnorm;
  erewrite bind_Done_nil;
    [|apply get_current_comp_run; rewrite ?current_comp_set_heap; exact Hcur];
  erewrite bind_Done_nil;
    [|eapply at_comp_last; [apply heap_set_heap || eassumption|reflexivity]];
  rewrite ?set_heap_set_heap.

Lemma load_fill_run key r rel s h c0 :
  heap s = h ++ [c0] ->
  current_comp s = Some (length h) ->
  record_rel r = Some rel ->
  fits_mask c0 ->
  load_fill key r s
  = (mask_warning (min_ew s) (synced key r rel c0),
     Done tt (set_heap (h ++ [loaded (min_ew s) key r rel c0]) s)).
Proof.
  intros Hheap Hcur Hrel Hfit. unfold load_fill.
  do 4 fill_step Hcur.
  assert (Hr : forall s',
    (match r_Reliability r with
     | Some v => ret v
     | None => expect KeyError (r_Quality r)
     end : M Gui string) s' = ([], Done rel s')).
  { intros s'. unfold record_rel in Hrel.
    destruct (r_Reliability r); [by injection Hrel as ->|]. by rewrite Hrel. }
  rewrite (bind_Done_nil _ _ _ _ _ (Hr _)).
  do 3 fill_step Hcur.
  mnorm. rewrite min_ew_set_heap.
  erewrite bind_Done_nil;
    [|apply get_current_comp_run; rewrite ?current_comp_set_heap; exact Hcur].
  erewrite at_comp_last; [|apply heap_set_heap|apply mask_comp_lines_Done].
  - rewrite set_heap_set_heap. reflexivity.
  - unfold fits_mask in *. destruct c0; cbn in *. by rewrite length_fmap.
Qed.

Lemma load_component_run key r rel s c0 w0 :
  built r = Ok (c0, w0) ->
  record_rel r = Some rel ->
  fits_mask c0 ->
  load_component key r s
  = (w0 ++ mask_warning (min_ew s) (synced key r rel c0),
     Done tt (install c0 (loaded (min_ew s) key r rel c0) s)).
Proof.
  intros Hb Hrel Hfit. unfold load_component.
  rewrite (bind_Done _ _ _ _ _ _ (load_build_run r s c0 w0 Hb)).
  rewrite (load_fill_run key r rel (add_loaded c0 s) (heap s) c0);
    [|by destruct s..|done|done].
  cbn [fst snd]. unfold install. by destruct s.
Qed.

(** ** The model update keeps what was fitted *)

(** [c'] is [c] up to the attributes of its lines. *)
Definition same_but_lines (c c' : AbsComponent) : Prop :=
  set_abslines (_abslines c) c' = c /\
  length (_abslines c') = length (_abslines c).

(** [s'] is [s] up to the model, the residuals, the fiddle widget and the
    attributes of lines. *)
Definition same_fit_state (s s' : Gui) : Prop :=
  all_comp s' = all_comp s /\
  current_comp s' = current_comp s /\
  spec_wavelength s' = spec_wavelength s /\
  Forall2 same_but_lines (heap s) (heap s').

(** Every listed component exists and has a mask entry per line. *)
Definition comps_fit (s : Gui) : Prop :=
  Forall (fun l => exists c, heap s !! l = Some c /\ fits_mask c) (all_comp s).

Lemma same_but_lines_refl c : same_but_lines c c.
Proof. split; [by destruct c|done]. Qed.

Lemma same_fit_state_refl s : same_fit_state s s.
Proof.
  repeat split. apply Forall2_same_length_lookup_2; [done|].
  intros i c c' H1 H2. rewrite H1 in H2. injection H2 as <-.
  apply same_but_lines_refl.
Qed.

Lemma same_but_lines_mask c c' :
  same_but_lines c c' -> mask_abslines c' = mask_abslines c.
Proof. intros [H _]. rewrite <- H. by destruct c'. Qed.

Lemma same_but_lines_set c c' ls :
  same_but_lines c c' -> length ls = length (_abslines c') ->
  same_but_lines c (set_abslines ls c').
Proof.
  intros [H1 H2] Hl. split; [|destruct c'; cbn in *; lia].
  rewrite <- H1. by destruct c'.
Qed.

Lemma good_lines_keeps c0 wvmin wvmax lines : forall ii,
  ii + length lines <= length (mask_abslines c0) ->
  triple (same_but_lines c0) (good_lines wvmin wvmax ii lines)
         (fun _ => same_but_lines c0) (fun _ => False).
Proof.
  induction lines as [|line rest IH]; intros ii Hlen; cbn [good_lines].
  - by apply triple_ret.
  - cbn in Hlen.
    eapply (triple_bind _ _ _ (fun _ => same_but_lines c0)).
    { unfold mask_get.
      eapply (triple_bind _ _ _
                (fun m c => same_but_lines c0 c /\ m = mask_abslines c)).
      - apply triple_gets. by split.
      - intros m. apply triple_expect.
        + by intros a c _ [Hc _].
        + intros c Hnone [Hc ->]. apply lookup_ge_None_1 in Hnone.
          rewrite (same_but_lines_mask _ _ Hc) in Hnone. lia. }
    intros m. destruct (m =? 0)%Z; [apply IH; lia|].
    destruct (_ && _); [|apply IH; lia].
    eapply (triple_bind _ _ _ (fun _ => same_but_lines c0)).
    { apply triple_modify. intros c Hc.
      apply same_but_lines_set; [done|]. by rewrite length_insert. }
    intros u. eapply (triple_bind _ _ _ (fun _ => same_but_lines c0)).
    { apply IH. lia. }
    intros gd. by apply triple_ret.
Qed.

Lemma same_fit_state_set_heap s0 s l c0 c' :
  same_fit_state s0 s -> heap s0 !! l = Some c0 -> same_but_lines c0 c' ->
  same_fit_state s0 (set_heap (<[l := c']> (heap s)) s).
Proof.
  intros (H1 & H2 & H3 & H4) Hl Hc. repeat split; try done.
  cbn. rewrite <- (list_insert_id (heap s0) l c0 Hl).
  by apply Forall2_insert.
Qed.

Lemma gather_lines_keeps s0 wvmin wvmax comps :
  Forall (fun l => exists c, heap s0 !! l = Some c /\ fits_mask c) comps ->
  triple (same_fit_state s0) (gather_lines wvmin wvmax comps)
         (fun _ => same_fit_state s0) (fun _ => False).
Proof.
  induction comps as [|l r IH]; intros Hall; cbn [gather_lines].
  - by apply triple_ret.
  - inversion Hall as [|? ? (c0 & Hl & Hfit) Hr]; subst.
    eapply (triple_bind _ _ _ (fun _ => same_fit_state s0)).
    { intros s Hs. unfold at_comp.
      destruct Hs as (H1 & H2 & H3 & H4).
      destruct (Forall2_lookup_l _ _ _ _ _ H4 Hl) as (c & Hc & Hsim).
      rewrite Hc.
      assert (Hg' : triple (same_but_lines c0)
                (let* ls := gets _abslines in good_lines wvmin wvmax 0 ls)
                (fun _ => same_but_lines c0) (fun _ => False)).
      { intros c1 Hc1. rewrite bind_gets.
        pose proof (good_lines_keeps c0 wvmin wvmax (_abslines c1) 0) as Hg1.
        apply Hg1; [|done]. destruct Hc1 as [_ Hn].
        unfold fits_mask in Hfit. cbn. lia. }
      specialize (Hg' c Hsim).
      destruct ((let* ls := gets _abslines in good_lines wvmin wvmax 0 ls) c)
        as [w [a c'|e c']]; cbn in Hg' |- *; [|done].
      by apply (same_fit_state_set_heap s0 s l c0 c'). }
    intros gd. eapply (triple_bind _ _ _ (fun _ => same_fit_state s0)).
    { by apply IH. }
    intros gd'. by apply triple_ret.
Qed.

Lemma np_min_Some wv : wv <> [] -> is_Some (np_min wv).
Proof. destruct wv; [done|]. by eexists. Qed.

Lemma np_max_Some wv : wv <> [] -> is_Some (np_max wv).
Proof. destruct wv; [done|]. by eexists. Qed.

Lemma update_model_keeps s0 :
  spec_wavelength s0 <> [] -> comps_fit s0 ->
  triple (same_fit_state s0) update_model
         (fun _ => same_fit_state s0) (fun _ => False).
Proof.
  intros Hwv Hfit. unfold update_model.
  eapply (triple_bind _ _ _
            (fun a s => same_fit_state s0 s /\ a = all_comp s0)).
  { apply triple_gets. intros s Hs. split; [done|]. by destruct Hs as [-> _]. }
  intros all. case_decide.
  { apply triple_modify. by intros s [(H1 & H2 & H3 & H4) _]. }
  eapply (triple_bind _ _ _
            (fun wv s => (same_fit_state s0 s /\ all = all_comp s0)
                         /\ wv = spec_wavelength s0)).
  { apply triple_gets. intros s [Hs Ha]. split; [done|].
    by destruct Hs as (_ & _ & -> & _). }
  intros wv.
  eapply (triple_bind _ _ _
            (fun _ s => (same_fit_state s0 s /\ all = all_comp s0)
                        /\ wv = spec_wavelength s0)).
  { apply triple_expect; [by intros a s _ Hs|].
    intros s Hnone [_ ->]. destruct (np_min_Some _ Hwv) as [x Hx]. congruence. }
  intros wvmin.
  eapply (triple_bind _ _ _
            (fun _ s => same_fit_state s0 s /\ all = all_comp s0)).
  { apply triple_expect; [by intros a s _ [Hs _]|].
    intros s Hnone [_ ->]. destruct (np_max_Some _ Hwv) as [x Hx]. congruence. }
  intros wvmax.
  eapply (triple_bind _ _ _ (fun _ => same_fit_state s0)).
  { intros s [Hs ->]. by apply (gather_lines_keeps s0). }
  intros gdlin.
  eapply (triple_bind _ _ _ (fun _ => same_fit_state s0)).
  { case_decide; [|by apply triple_ret].
    eapply (triple_bind _ _ _ (fun _ => same_fit_state s0));
      [by apply triple_gets|].
    intros fw. apply triple_modify. by intros s (H1 & H2 & H3 & H4). }
  intros u.
  eapply (triple_bind _ _ _ (fun _ => same_fit_state s0));
    [by apply triple_gets|].
  intros pr. destruct pr; [|by apply triple_ret].
  eapply (triple_bind _ _ _ (fun _ => same_fit_state s0)).
  - apply triple_modify. by intros s (H1 & H2 & H3 & H4).
  - intros u'. apply triple_modify. by intros s (H1 & H2 & H3 & H4).
Qed.

(** ** Reading the components *)

Definition built_comp (r : CompRecord) : AbsComponent :=
  match built r with
  | Ok (c, _) => c
  | Err _ => from_dict r []
  end.

Definition record_tag (r : CompRecord) : string :=
  default EmptyString (record_rel r).

(** The component a record is loaded as. *)
Definition loaded_comp (thr : Q) (kr : string * CompRecord) : AbsComponent :=
  loaded thr kr.1 kr.2 (record_tag kr.2) (built_comp kr.2).

Definition load_state (thr : Q) (s : Gui) (kr : string * CompRecord) : Gui :=
  install (built_comp kr.2) (loaded_comp thr kr) s.

(** A record that [load_component] accepts. *)
Definition loadable (r : CompRecord) : Prop :=
  (exists c0 w0, built r = Ok (c0, w0) /\ fits_mask c0) /\
  is_Some (record_rel r).

Lemma for_each_load recs : forall s,
  Forall (fun kr : string * CompRecord => loadable kr.2) recs ->
  exists w,
    for_each recs (fun kr => load_component kr.1 kr.2) s
    = (w, Done tt (foldl (load_state (min_ew s)) s recs)).
Proof.
  induction recs as [|[key r] recs IH]; intros s Hall.
  - by exists [].
  - inversion Hall as [|? ? [(c0 & w0 & Hb & Hfit) [rel Hrel]] Hrest]; subst.
    cbn [for_each foldl fst snd] in *.
    pose proof (load_component_run key r rel s c0 w0 Hb Hrel Hfit) as Hrun.
    rewrite (bind_Done _ _ _ _ _ _ Hrun).
    destruct (IH (install c0 (loaded (min_ew s) key r rel c0) s) Hrest)
      as [w Hw].
    rewrite Hw. cbn [fst snd]. eexists.
    unfold load_state, loaded_comp, built_comp, record_tag.
    cbn [fst snd]. rewrite Hb, Hrel. cbn [default].
    by destruct s.
Qed.

Lemma load_fold thr recs : forall s,
  let s' := foldl (load_state thr) s recs in
  heap s' = heap s ++ (loaded_comp thr <$> recs) /\
  all_comp s' = all_comp s ++ seq (length (heap s)) (length recs) /\
  spec_wavelength s' = spec_wavelength s /\
  (recs <> [] -> current_comp s' = Some (length (heap s) + length recs - 1)).
Proof.
  induction recs as [|kr recs IH] using rev_ind; intros s s'.
  - cbn. by rewrite !app_nil_r.
  - subst s'. rewrite foldl_snoc.
    destruct (IH s) as (Hh & Hc & Hw & _).
    set (s1 := foldl (load_state thr) s recs) in *.
    assert (Hlen : length (heap s1) = length (heap s) + length recs).
    { by rewrite Hh, length_app, length_fmap. }
    unfold load_state, install, add_loaded. destruct s1; cbn in *.
    rewrite Hh, Hc, Hw, fmap_app, !length_app, length_fmap.
    rewrite seq_app. cbn. rewrite <- !app_assoc.
    repeat split. intros _. f_equal. lia.
Qed.

Lemma fits_mask_loaded thr key r rel c0 :
  fits_mask c0 -> fits_mask (loaded thr key r rel c0).
Proof.
  unfold fits_mask, loaded, synced. destruct c0; cbn.
  by rewrite length_mask_apply, length_fmap.
Qed.

Lemma loadable_loaded_fits thr kr :
  loadable kr.2 -> fits_mask (loaded_comp thr kr).
Proof.
  intros [(c0 & w0 & Hb & Hfit) _]. unfold loaded_comp, built_comp.
  rewrite Hb. by apply fits_mask_loaded.
Qed.

Lemma triple_Done {S A} (I : S -> Prop) (m : M S A) s :
  triple I m (fun _ => I) (fun _ => False) -> I s ->
  exists w a s', m s = (w, Done a s') /\ I s'.
Proof.
  intros H Hs. specialize (H s Hs).
  destruct (m s) as [w [a s'|e s']]; cbn in H; [eauto|done].
Qed.

Lemma np_where_from_lt {A} (p : A -> bool) (a : list A) : forall i,
  Forall (fun j => j < i + length a) (np_where_from p i a).
Proof.
  induction a as [|x r IH]; intros i; cbn; [constructor|].
  assert (H : Forall (fun j => j < i + S (length r)) (np_where_from p (S i) r)).
  { eapply Forall_impl; [apply IH|]. intros j Hj. cbn in Hj. lia. }
  destruct (p x); [constructor; [lia|done]|done].
Qed.

Lemma np_put_is_Some idx v a :
  Forall (fun i => i < length a) idx ->
  is_Some (np_put (Z.of_nat <$> idx) v a).
Proof.
  intros Hall. unfold np_put.
  assert (Hm : is_Some (mapM (np_index (length a)) (Z.of_nat <$> idx))).
  { apply mapM_is_Some_2. apply Forall_fmap.
    eapply Forall_impl; [exact Hall|]. intros i Hi. cbn in Hi |- *.
    unfold np_index. rewrite decide_True by lia. by eexists. }
  destruct Hm as [ix ->]. by eexists.
Qed.

Lemma load_bad_pixels_written bad g0 d :
  d_bad_pixels d = Some (Z.of_nat <$> np_where (Z.eqb 1) bad) ->
  length bad <= length (bad_pixels g0) ->
  exists bp, load_bad_pixels d g0 = ([], Done tt (set_bad_pixels bp g0)).
Proof.
  intros Hd Hlen. unfold load_bad_pixels. rewrite Hd.
  case_decide.
  - rewrite bind_gets.
    destruct (np_put_is_Some (np_where (Z.eqb 1) bad) 1%Z (bad_pixels g0))
      as [bp Hbp].
    { eapply Forall_impl; [apply (np_where_from_lt _ bad 0)|].
      intros j Hj. cbn in Hj. lia. }
    rewrite Hbp. cbn [expect]. rewrite bind_ret. by exists bp.
  - exists (bad_pixels g0). unfold ret. by destruct g0.
Qed.

(** The session [read_previous] ends in, up to the model and the attributes
    of lines: the loaded components, in the order of the records. *)
Lemma read_previous_run d g0 bp :
  (d_fwhm d == fwhm g0)%Q ->
  load_bad_pixels d g0 = ([], Done tt (set_bad_pixels bp g0)) ->
  Forall (fun kr : string * CompRecord => loadable kr.2)
         (map_to_list (d_cmps d)) ->
  d_cmps d <> ∅ ->
  spec_wavelength g0 <> [] ->
  all_comp g0 = [] ->
  exists w s2,
    read_previous d g0 = (w, Done tt s2) /\
    all_comp s2 = seq (length (heap g0)) (length (map_to_list (d_cmps d))) /\
    Forall2 same_but_lines
      (heap g0 ++ (loaded_comp (min_ew g0) <$> map_to_list (d_cmps d)))
      (heap s2).
Proof.
  intros Hfw Hbad Hload Hne Hwv Hall.
  set (recs := map_to_list (d_cmps d)) in *.
  assert (Hrecs : recs <> []) by (subst recs; by rewrite map_to_list_empty_iff).
  set (g1 := set_bad_pixels bp g0) in *.
  destruct (for_each_load recs g1 Hload) as [w1 Hw1].
  change (min_ew g1) with (min_ew g0) in Hw1.
  set (s1 := foldl (load_state (min_ew g0)) g1 recs) in *.
  destruct (load_fold (min_ew g0) recs g1) as (Hh & Hc & Hwl & Hcur).
  fold s1 in Hh, Hc, Hwl, Hcur. specialize (Hcur Hrecs).
  change (heap g1) with (heap g0) in *.
  change (all_comp g1) with (all_comp g0) in *.
  change (spec_wavelength g1) with (spec_wavelength g0) in *.
  rewrite Hall in Hc. cbn [app] in Hc.
  assert (Hfit : comps_fit s1).
  { unfold comps_fit. rewrite Hc. apply Forall_forall. intros l Hl.
    apply elem_of_seq in Hl.
    assert (Hj : l - length (heap g0) < length recs) by lia.
    destruct (lookup_lt_is_Some_2 recs _ Hj) as [kr Hkr].
    exists (loaded_comp (min_ew g0) kr). split.
    - rewrite Hh. rewrite lookup_app_r by lia.
      by apply lookup_fmap_Some_2.
    - apply loadable_loaded_fits.
      exact (proj1 (Forall_lookup _ _) Hload _ _ Hkr). }
  destruct (triple_Done _ _ s1
              (update_model_keeps s1 ltac:(by rewrite Hwl) Hfit)
              (same_fit_state_refl s1))
    as (w2 & [] & s2 & Hupd & Hsim).
  destruct Hsim as (Hs1 & Hs2 & Hs3 & Hs4).
  assert (Hl : is_Some (heap s2 !! (length (heap g0) + length recs - 1))).
  { apply lookup_lt_is_Some_2. rewrite <- (Forall2_length _ _ _ Hs4).
    rewrite Hh, length_app, length_fmap.
    destruct recs; [done|cbn; lia]. }
  destruct Hl as [cl Hcl].
  eexists _, (set_fiddle_component
                (Some (length (heap g0) + length recs - 1)) s2).
  split; [|split].
  - unfold read_previous. rewrite bind_gets.
    apply Qeq_bool_iff in Hfw. rewrite Hfw. cbn [negb].
    rewrite (bind_Done_nil _ _ _ _ _ Hbad). rewrite bind_gets.
    assert (Hrest :
      bind (for_each recs (fun kr => load_component kr.1 kr.2))
           (fun _ => update_model ;;
                     let* cur := get_current_comp in
                     fiddle_init_component cur) g1
      = (w1 ++ w2, Done tt (set_fiddle_component
                        (Some (length (heap g0) + length recs - 1)) s2))).
    { rewrite (bind_Done _ _ _ _ _ _ Hw1). cbn [fst snd].
      rewrite (bind_Done _ _ _ _ _ _ Hupd). cbn [fst snd].
      erewrite bind_Done_nil;
        [|apply get_current_comp_run; rewrite Hs2; exact Hcur].
      unfold fiddle_init_component.
      rewrite (bind_Done_nil _ _ _ _ _ (deref_run _ _ _ Hcl)).
      unfold modify. cbn [fst snd]. by rewrite app_nil_r. }
    instantiate (1 := (if decide (spec_filename g1 = d_spec_file d)
                       then [] else [WarnSpecFileMismatch]) ++ w1 ++ w2).
    fold recs. case_decide.
    + rewrite bind_ret. exact Hrest.
    + rewrite bind_tell. rewrite Hrest. done.
  - cbn. by rewrite Hs1, Hc.
  - cbn. by rewrite <- Hh.
Qed.

(** ** The round trip *)

Lemma records_of_cons c cs m :
  records_of (c :: cs) m
  = records_of cs (<[name c := to_record (pruned c)]> m).
Proof. done. Qed.

Lemma records_of_lookup_inv cs : forall m k r,
  records_of cs m !! k = Some r ->
  (exists c, c ∈ cs /\ name c = k /\ r = to_record (pruned c)) \/
  m !! k = Some r.
Proof.
  induction cs as [|c cs IH]; intros m k r H; [by right|].
  rewrite records_of_cons in H.
  destruct (IH _ _ _ H) as [(c' & Hc' & Hn & Hr)|Hm].
  - left. exists c'. split; [by right|done].
  - apply lookup_insert_Some in Hm as [[Hn Hr]|[_ Hm]]; [|by right].
    left. exists c. split; [by left|done].
Qed.

Lemma records_of_lookup_notin cs : forall m k,
  k ∉ name <$> cs -> records_of cs m !! k = m !! k.
Proof.
  induction cs as [|c cs IH]; intros m k Hk; [done|].
  rewrite fmap_cons in Hk. apply not_elem_of_cons in Hk as [Hne Hk].
  rewrite records_of_cons, IH by done. by rewrite lookup_insert_ne.
Qed.

Lemma records_of_lookup cs : forall m c,
  NoDup (name <$> cs) -> c ∈ cs ->
  records_of cs m !! name c = Some (to_record (pruned c)).
Proof.
  induction cs as [|c0 cs IH]; intros m c Hnd Hc; [by apply elem_of_nil in Hc|].
  rewrite fmap_cons in Hnd. apply NoDup_cons in Hnd as [Hnotin Hnd].
  rewrite records_of_cons.
  apply elem_of_cons in Hc as [->|Hc].
  - rewrite records_of_lookup_notin by done. by rewrite lookup_insert_eq.
  - by apply IH.
Qed.

Lemma records_of_is_Some cs : forall m k,
  is_Some (m !! k) -> is_Some (records_of cs m !! k).
Proof.
  induction cs as [|c cs IH]; intros m k Hk; [done|].
  rewrite records_of_cons. apply IH.
  destruct (decide (name c = k)) as [->|Hne].
  - rewrite lookup_insert_eq. by eexists.
  - by rewrite lookup_insert_ne.
Qed.

Lemma records_of_nonempty cs m : cs <> [] -> records_of cs m <> ∅.
Proof.
  destruct cs as [|c cs]; [done|]. intros _ Hemp.
  assert (H : is_Some (records_of (c :: cs) m !! name c)).
  { rewrite records_of_cons. apply records_of_is_Some.
    rewrite lookup_insert_eq. by eexists. }
  rewrite Hemp, lookup_empty in H. by destruct H.
Qed.

Lemma loadable_to_record c : loadable (to_record (pruned c)).
Proof.
  split; [|by eexists]. eexists _, _. split; [reflexivity|].
  unfold fits_mask. destruct c; cbn. by rewrite kept_length.
Qed.

Lemma mask_apply_fix thr lines mask :
  (forall j line m, lines !! j = Some line -> mask !! j = Some m ->
     mask_entry thr line m = m) ->
  mask_apply thr 0 lines mask = mask.
Proof.
  intros H. apply list_eq. intros j.
  destruct (lines !! j) as [line|] eqn:Hj.
  - rewrite (lookup_mask_apply_0 thr lines mask j line Hj).
    destruct (mask !! j) as [m|] eqn:Hm; [|done]. cbn.
    by rewrite (H j line m Hj Hm).
  - apply lookup_ge_None_1 in Hj.
    by rewrite lookup_mask_apply_beyond by (cbn; lia).
Qed.

(** A component is settled when it has one mask entry per line and no line
    that counts (mask not 0) is weaker than the threshold at the component's
    own column density: the state [sync_comp_lines] followed by
    [mask_comp_lines] leaves. *)
Definition settled (thr : Q) (c : AbsComponent) : Prop :=
  length (mask_abslines c) = length (_abslines c) /\
  forall i line m,
    _abslines c !! i = Some line -> mask_abslines c !! i = Some m ->
    m <> 0%Z -> ew_lt (ew (sync_line (attrib c) line)) thr = false.

(** What the round trip keeps of a component. *)
Definition round_trip_of (c c' : AbsComponent) : Prop :=
  name c' = name c /\
  a_logN (attrib c') = a_logN (attrib c) /\
  a_z (attrib c') = a_z (attrib c) /\
  a_b (attrib c') = a_b (attrib c) /\
  comment c' = comment c /\
  a_Reliability (attrib c') = a_Reliability (attrib c) /\
  mask_abslines c' = filter (fun m => m <> 0%Z) (mask_abslines c).

Lemma loaded_written_fields thr c :
  let cL := loaded_comp thr (name c, to_record (pruned c)) in
  name cL = name c /\
  a_logN (attrib cL) = a_logN (attrib c) /\
  a_z (attrib cL) = a_z (attrib c) /\
  a_b (attrib cL) = a_b (attrib c) /\
  comment cL = comment c /\
  a_Reliability (attrib cL) = a_Reliability (attrib c) /\
  length (mask_abslines cL) = length (_abslines cL).
Proof.
  destruct c as [n zc vl st iw att cm lines mask]. cbn.
  repeat split. by rewrite length_mask_apply, length_fmap, kept_length.
Qed.

Lemma loaded_written_mask thr c :
  settled thr c ->
  mask_abslines (loaded_comp thr (name c, to_record (pruned c)))
  = filter (fun m => m <> 0%Z) (mask_abslines c).
Proof.
  intros [Hlen Hset].
  destruct c as [n zc vl st iw att cm lines mask]. cbn in *.
  rewrite <- (kept_masks lines mask Hlen).
  apply mask_apply_fix. intros j line m Hj Hm.
  apply list_lookup_fmap_Some in Hj as (line0 & -> & Hj).
  destruct (kept_origin lines mask j line0 m Hj Hm) as (Hne & i & Hi1 & Hi2).
  pose proof (Hset i line0 m Hi1 Hi2 Hne) as Hew.
  unfold mask_entry.
  change (ew_lt (ew (sync_line att line0)) thr = false) in Hew.
  assert (Hsame : forall a1 a2, a_logN a1 = a_logN a2 ->
            ew (sync_line a1 line0) = ew (sync_line a2 line0)).
  { intros a1 a2 H. unfold ew, sync_line. cbn. by rewrite H. }
  erewrite (Hsame _ att); [|reflexivity]. rewrite Hew.
  by destruct (Z.eqb_spec m 0).
Qed.

Lemma same_but_lines_fields c c' :
  same_but_lines c c' ->
  name c' = name c /\ attrib c' = attrib c /\ comment c' = comment c /\
  mask_abslines c' = mask_abslines c /\
  length (_abslines c') = length (_abslines c).
Proof. intros [H Hl]. rewrite <- H. by destruct c'. Qed.

Lemma round_trip_run g g0 cs :
  Forall2 (fun l c => heap g !! l = Some c) (all_comp g) cs ->
  Forall fits_mask cs ->
  cs <> [] ->
  (fwhm g0 == fwhm g)%Q ->
  spec_wavelength g0 <> [] ->
  all_comp g0 = [] ->
  length (bad_pixels g) <= length (bad_pixels g0) ->
  exists out g' w s2,
    write_out g = ([], Done out g') /\
    read_previous out g0 = (w, Done tt s2) /\
    all_comp s2 <> [] /\
    (forall l', l' ∈ all_comp s2 -> is_Some (heap s2 !! l')) /\
    (forall l' c', l' ∈ all_comp s2 -> heap s2 !! l' = Some c' ->
       exists c, c ∈ cs /\
         same_but_lines
           (loaded_comp (min_ew g0) (name c, to_record (pruned c))) c') /\
    (NoDup (name <$> cs) -> forall c, c ∈ cs ->
       exists l' c', l' ∈ all_comp s2 /\ heap s2 !! l' = Some c' /\
         same_but_lines
           (loaded_comp (min_ew g0) (name c, to_record (pruned c))) c').
Proof.
  intros Hall Hfit Hne Hfw Hwv Hreg Hbad.
  rewrite (write_out_run g cs Hall Hfit).
  set (out := {| d_cmps := records_of cs ∅; d_spec_file := spec_filename g;
                 d_fwhm := fwhm g;
                 d_bad_pixels :=
                   Some (Z.of_nat <$> np_where (Z.eqb 1) (bad_pixels g)) |}).
  destruct (load_bad_pixels_written (bad_pixels g) g0 out eq_refl Hbad)
    as [bp Hbp].
  assert (Hload : Forall (fun kr : string * CompRecord => loadable kr.2)
                         (map_to_list (d_cmps out))).
  { apply Forall_forall. intros [k r] Hkr. apply elem_of_map_to_list in Hkr.
    cbn in Hkr. apply records_of_lookup_inv in Hkr
      as [(c & _ & _ & ->)|Hemp]; [apply loadable_to_record|].
    by rewrite lookup_empty in Hemp. }
  destruct (read_previous_run out g0 bp ltac:(by symmetry) Hbp Hload
              (records_of_nonempty cs ∅ Hne) Hwv Hreg)
    as (w & s2 & Hread & Hcomps & Hheap).
  exists out, (set_heap (heap g ++ (pruned <$> cs)) g), w, s2.
  split; [done|]. split; [done|].
  set (recs := map_to_list (d_cmps out)) in *.
  assert (Hat : forall j kr, recs !! j = Some kr ->
            exists c', heap s2 !! (length (heap g0) + j) = Some c' /\
                       same_but_lines (loaded_comp (min_ew g0) kr) c').
  { intros j kr Hj.
    apply (Forall2_lookup_l _ _ _ (length (heap g0) + j)
             (loaded_comp (min_ew g0) kr)) in Hheap; [done|].
    rewrite lookup_app_r by lia.
    replace (length (heap g0) + j - length (heap g0)) with j by lia.
    by apply lookup_fmap_Some_2. }
  assert (Hrec : forall kr, kr ∈ recs ->
            exists c, c ∈ cs /\ kr = (name c, to_record (pruned c))).
  { intros [k r] Hkr. apply elem_of_map_to_list in Hkr. cbn in Hkr.
    apply records_of_lookup_inv in Hkr as [(c & Hc & <- & ->)|Hemp];
      [by exists c|]. by rewrite lookup_empty in Hemp. }
  split; [|split; [|split]].
  - rewrite Hcomps. subst recs.
    pose proof (records_of_nonempty cs ∅ Hne) as Hm.
    apply (not_iff_compat (map_to_list_empty_iff _)) in Hm.
    change (d_cmps out) with (records_of cs ∅).
    by destruct (map_to_list (records_of cs ∅)).
  - intros l' Hl'. rewrite Hcomps in Hl'. apply elem_of_seq in Hl'.
    destruct (lookup_lt_is_Some_2 recs (l' - length (heap g0)))
      as [kr Hkr]; [lia|].
    destruct (Hat _ _ Hkr) as (c' & Hc' & _).
    replace (length (heap g0) + (l' - length (heap g0))) with l' in Hc' by lia.
    by eexists.
  - intros l' c' Hl' Hc'. rewrite Hcomps in Hl'. apply elem_of_seq in Hl'.
    destruct (lookup_lt_is_Some_2 recs (l' - length (heap g0)))
      as [kr Hkr]; [lia|].
    destruct (Hat _ _ Hkr) as (c'' & Hc'' & Hsim).
    replace (length (heap g0) + (l' - length (heap g0))) with l' in Hc'' by lia.
    rewrite Hc' in Hc''. injection Hc'' as <-.
    destruct (Hrec kr (list_elem_of_lookup_2 _ _ _ Hkr)) as (c & Hc & ->).
    by exists c.
  - intros Hnd c Hc.
    assert (Hin : (name c, to_record (pruned c)) ∈ recs).
    { apply elem_of_map_to_list. by apply records_of_lookup. }
    apply list_elem_of_lookup_1 in Hin as [j Hj].
    destruct (Hat _ _ Hj) as (c' & Hc' & Hsim).
    exists (length (heap g0) + j), c'. split; [|done].
    rewrite Hcomps. apply elem_of_seq. apply lookup_lt_Some in Hj. lia.
Qed.

(** ** Records of older files *)

Lemma create_component_fits z wrest vl c :
  create_component z wrest vl = Ok c ->
  length (mask_abslines c) = length (_abslines c).
Proof.
  unfold create_component.
  destruct (new_absline z vl <$> all_transitions wrest) as [|l0 ls] eqn:E;
    [done|].
  intros [= <-]. cbn. by rewrite length_replicate.
Qed.

Lemma create_component_is_Ok z wrest vl :
  all_transitions wrest <> [] -> exists c, create_component z wrest vl = Ok c.
Proof.
  unfold create_component. destruct (all_transitions wrest); [done|].
  intros _. cbn. by eexists.
Qed.

Lemma loaded_fields thr key r rel c0 :
  let cL := loaded thr key r rel c0 in
  name cL = key /\
  a_logN (attrib cL) = r_Nfit r /\
  a_z (attrib cL) = r_zfit r /\
  a_b (attrib cL) = r_bfit r /\
  a_Reliability (attrib cL) = rel /\
  comment cL = r_Comment r /\
  length (_abslines cL) = length (_abslines c0) /\
  length (mask_abslines cL) = length (mask_abslines c0).
Proof.
  destruct c0. cbn. repeat split.
  - by rewrite length_fmap.
  - by rewrite length_mask_apply.
Qed.

Lemma load_quality_run key r q s :
  r_Reliability r = None -> r_Quality r = Some q ->
  load_component key r s
  = load_component key (set_r_Reliability (Some q) r) s.
Proof.
  intros H1 H2. unfold load_component, load_build, load_fill, from_dict.
  destruct r; cbn in *. by subst.
Qed.

Lemma load_legacy_run key r rel s :
  r_lines r = None ->
  all_transitions (r_wrest r) <> [] ->
  record_rel r = Some rel ->
  exists w c0,
    create_component (r_zcomp r) (r_wrest r) (r_vlim r) = Ok c0 /\
    load_component key r s
    = (w, Done tt (install c0 (loaded (min_ew s) key r rel c0) s)).
Proof.
  intros Hl Ht Hrel.
  destruct (create_component_is_Ok (r_zcomp r) (r_wrest r) (r_vlim r) Ht)
    as [c0 Hc0].
  eexists _, c0. split; [done|].
  apply (load_component_run key r rel s c0 []); [|done|].
  - unfold built. by rewrite Hl, Hc0.
  - unfold fits_mask. by rewrite (create_component_fits _ _ _ _ Hc0).
Qed.

Lemma settled_fits thr c : settled thr c -> fits_mask c.
Proof. intros [H _]. unfold fits_mask. lia. Qed.

(** C2, as the code has it.  Take a session whose components are settled
    (synchronised and masked at the session's threshold, as every edit, fit
    or load leaves them), written out and read back into a fresh session on
    a spectrum at least as long, with the same FWHM and threshold.  Both
    steps return.  Every component read back comes from an original with the
    same name, logN, z, b, comment and Reliability, and its mask array is the
    original's without the 0 entries (lines masked out are not written);
    when the names of the originals are distinct, every original is read
    back so.  A record with [Quality] in place of [Reliability] loads exactly
    as the record with that value as [Reliability]; a record without lines,
    whose transition the catalogue knows, loads without error into a
    component with the key as name, the fitted values, tag and comment of
    the record, and one mask entry per line. *)
Theorem write_read_round_trip (g g0 : Gui) (cs : list AbsComponent) :
  Forall2 (fun l c => heap g !! l = Some c) (all_comp g) cs ->
  Forall (settled (min_ew g)) cs ->
  cs <> [] ->
  (fwhm g0 == fwhm g)%Q ->
  min_ew g0 = min_ew g ->
  spec_wavelength g0 <> [] ->
  all_comp g0 = [] ->
  length (bad_pixels g) <= length (bad_pixels g0) ->
  (exists out g' w s2,
     write_out g = ([], Done out g') /\
     read_previous out g0 = (w, Done tt s2) /\
     (forall l' c', l' ∈ all_comp s2 -> heap s2 !! l' = Some c' ->
        exists c, c ∈ cs /\ round_trip_of c c') /\
     (NoDup (name <$> cs) -> forall c, c ∈ cs ->
        exists l' c', l' ∈ all_comp s2 /\ heap s2 !! l' = Some c' /\
                      round_trip_of c c')) /\
  (forall key r q s,
     r_Reliability r = None -> r_Quality r = Some q ->
     load_component key r s
     = load_component key (set_r_Reliability (Some q) r) s) /\
  (forall key r rel s,
     r_lines r = None -> all_transitions (r_wrest r) <> [] ->
     record_rel r = Some rel ->
     exists w c0 cL,
       load_component key r s = (w, Done tt (install c0 cL s)) /\
       name cL = key /\
       a_logN (attrib cL) = r_Nfit r /\
       a_z (attrib cL) = r_zfit r /\
       a_b (attrib cL) = r_bfit r /\
       a_Reliability (attrib cL) = rel /\
       comment cL = r_Comment r /\
       length (mask_abslines cL) = length (_abslines cL)).
Proof.
  intros Hall Hset Hne Hfw Hthr Hwv Hreg Hbad.
  assert (Hfit : Forall fits_mask cs).
  { eapply Forall_impl; [exact Hset|]. intros c. apply settled_fits. }
  split; [|split].
  - destruct (round_trip_run g g0 cs Hall Hfit Hne Hfw Hwv Hreg Hbad)
      as (out & g' & w & s2 & Hw & Hr & _ & _ & Hback & Hforth).
    exists out, g', w, s2. split; [done|]. split; [done|].
    assert (Hrt : forall c c', c ∈ cs ->
      same_but_lines (loaded_comp (min_ew g0) (name c, to_record (pruned c))) c'
      -> round_trip_of c c').
    { intros c c' Hc Hsim.
      destruct (same_but_lines_fields _ _ Hsim) as (E1 & E2 & E3 & E4 & _).
      destruct (loaded_written_fields (min_ew g0) c)
        as (F1 & F2 & F3 & F4 & F5 & F6 & _).
      unfold round_trip_of. rewrite E1, E2, E3, E4.
      repeat split; try done.
      apply loaded_written_mask. rewrite Hthr.
      exact (proj1 (Forall_forall _ _) Hset c Hc). }
    split.
    + intros l' c' Hl' Hc'. destruct (Hback l' c' Hl' Hc') as (c & Hc & Hsim).
      exists c. split; [done|]. by apply Hrt.
    + intros Hnd c Hc. destruct (Hforth Hnd c Hc) as (l' & c' & Hl' & Hc' & Hsim).
      exists l', c'. split; [done|]. split; [done|]. by apply Hrt.
  - apply load_quality_run.
  - intros key r rel s Hl Ht Hrel.
    destruct (load_legacy_run key r rel s Hl Ht Hrel) as (w & c0 & Hc0 & Hrun).
    exists w, c0, (loaded (min_ew s) key r rel c0). split; [done|].
    destruct (loaded_fields (min_ew s) key r rel c0)
      as (F1 & F2 & F3 & F4 & F5 & F6 & F7 & F8).
    repeat split; try done.
    rewrite F7, F8. by apply create_component_fits in Hc0.
Qed.

(** C8. The mask array of a component has one entry per absorption line:
    after construction; after every masking call on a component that had it
    so (the call returns); and for every component read back when a session
    whose components have it so is written out and read into a fresh
    session (both steps return). *)
Theorem mask_length_invariant :
  (forall z wrest vl c,
     create_component z wrest vl = Ok c ->
     length (mask_abslines c) = length (_abslines c)) /\
  (forall thr c,
     length (mask_abslines c) = length (_abslines c) ->
     exists w c',
       mask_comp_lines thr c = (w, Done tt c') /\
       length (mask_abslines c') = length (_abslines c')) /\
  (forall g g0 cs,
     Forall2 (fun l c => heap g !! l = Some c) (all_comp g) cs ->
     Forall (fun c => length (mask_abslines c) = length (_abslines c)) cs ->
     cs <> [] ->
     (fwhm g0 == fwhm g)%Q ->
     spec_wavelength g0 <> [] ->
     all_comp g0 = [] ->
     length (bad_pixels g) <= length (bad_pixels g0) ->
     exists out g' w s2,
       write_out g = ([], Done out g') /\
       read_previous out g0 = (w, Done tt s2) /\
       all_comp s2 <> [] /\
       forall l', l' ∈ all_comp s2 ->
         exists c', heap s2 !! l' = Some c' /\
           length (mask_abslines c') = length (_abslines c')).
Proof.
  split; [|split].
  - apply create_component_fits.
  - intros thr c Hlen.
    rewrite mask_comp_lines_Done by (unfold fits_mask; lia).
    eexists _, _. split; [reflexivity|]. destruct c; cbn in *.
    by rewrite length_mask_apply.
  - intros g g0 cs Hall Hlen Hne Hfw Hwv Hreg Hbad.
    assert (Hfit : Forall fits_mask cs).
    { eapply Forall_impl; [exact Hlen|]. intros c Hc. cbn in Hc.
      unfold fits_mask. lia. }
    destruct (round_trip_run g g0 cs Hall Hfit Hne Hfw Hwv Hreg Hbad)
      as (out & g' & w & s2 & Hw & Hr & Hsome & Hvalid & Hback & Hforth).
    exists out, g', w, s2. split; [done|]. split; [done|]. split.
    + done.
    + intros l' Hl'. destruct (Hvalid l' Hl') as [c' Hc'].
      exists c'. split; [done|].
      destruct (Hback l' c' Hl' Hc') as (c & Hc & Hsim).
      destruct (same_but_lines_fields _ _ Hsim) as (_ & _ & _ & E4 & E5).
      destruct (loaded_written_fields (min_ew g0) c)
        as (_ & _ & _ & _ & _ & _ & F7).
      by rewrite E4, E5.
Qed.

(** ** Further properties of the commands *)

(** The velocity offset of a component from the current redshift. *)
Definition dvz_of (z : Q) (c : AbsComponent) : Q :=
  (c_mks * (z - zcomp c) / (1 + z))%Q.

(** Synchronising and masking a component settles it. *)
Theorem sync_then_mask_settles (thr : Q) (c : AbsComponent) :
  length (mask_abslines c) = length (_abslines c) ->
  exists w c',
    (sync_comp_lines ;; mask_comp_lines thr) c = (w, Done tt c') /\
    attrib c' = attrib c /\
    settled thr c'.
Proof.
  intros Hlen. unfold sync_comp_lines. rewrite bind_modify.
  rewrite mask_comp_lines_Done.
  2:{ unfold fits_mask. destruct c; cbn in *. rewrite length_fmap. lia. }
  eexists _, _. split; [reflexivity|].
  destruct c as [n zc vl st iw att cm lines mask]; cbn in *.
  split; [done|]. split; cbn.
  - by rewrite length_mask_apply, length_fmap.
  - intros i line m Hi Hm Hne.
    apply list_lookup_fmap_Some in Hi as (line0 & -> & Hi).
    rewrite (lookup_mask_apply_0 thr _ mask i (sync_line att line0)) in Hm
      by (by apply lookup_fmap_Some_2).
    destruct (mask !! i) as [m0|]; [|done]. cbn in Hm. injection Hm as <-.
    unfold mask_entry in Hne.
    assert (Hs : sync_line att (sync_line att line0) = sync_line att line0)
      by done.
    rewrite Hs. by destruct (ew_lt (ew (sync_line att line0)) thr).
Qed.

Lemma init_wrests_run comps : forall g cs,
  Forall2 (fun l c => heap g !! l = Some c) comps cs ->
  init_wrests comps g = ([], Done (init_wrest <$> cs) g).
Proof.
  induction comps as [|l r IH]; intros g cs Hall.
  - by inversion Hall.
  - inversion Hall as [|? c ? cs' Hl Hr]; subst. cbn [init_wrests].
    rewrite (bind_Done_nil _ _ _ _ _ (deref_run l g c Hl)).
    by rewrite (bind_Done_nil _ _ _ _ _ (IH g cs' Hr)).
Qed.

Lemma elem_of_np_where_from {A} (p : A -> bool) (a : list A) : forall i j,
  j ∈ np_where_from p i a <->
  exists k x, j = i + k /\ a !! k = Some x /\ p x = true.
Proof.
  induction a as [|y r IH]; intros i j; cbn [np_where_from].
  - split; [by intros ?%elem_of_nil|]. by intros (k & x & _ & ? & _).
  - assert (Hrec : j ∈ np_where_from p (S i) r <->
              exists k x, j = i + S k /\ r !! k = Some x /\ p x = true).
    { rewrite IH. split; intros (k & x & -> & ? & ?); exists k, x;
        (split; [lia|done]). }
    destruct (p y) eqn:Hy.
    + rewrite elem_of_cons, Hrec. split.
      * intros [->|(k & x & -> & ? & ?)].
        -- exists 0, y. split; [lia|done].
        -- by exists (S k), x.
      * intros ([|k] & x & -> & Hk & Hx).
        -- left. lia.
        -- right. by exists k, x.
    + rewrite Hrec. split.
      * intros (k & x & -> & ? & ?). by exists (S k), x.
      * intros ([|k] & x & -> & Hk & Hx).
        -- cbn in Hk. injection Hk as ->. congruence.
        -- by exists k, x.
Qed.

Lemma elem_of_np_where {A} (p : A -> bool) (a : list A) j :
  j ∈ np_where p a <-> exists x, a !! j = Some x /\ p x = true.
Proof.
  unfold np_where. rewrite elem_of_np_where_from. split.
  - intros (k & x & -> & ? & ?). by exists x.
  - intros (x & ? & ?). by exists j, x.
Qed.

Lemma np_argmin_from_spec (a : list Q) : forall best ibest i,
  exists v,
    (np_argmin_from best ibest i a = ibest /\ v = best \/
     exists k, np_argmin_from best ibest i a = i + k /\ a !! k = Some v) /\
    (v <= best)%Q /\
    forall k x, a !! k = Some x -> (v <= x)%Q.
Proof.
  induction a as [|y r IH]; intros best ibest i; cbn [np_argmin_from].
  - exists best. split; [by left|]. split; [apply Qle_refl|done].
  - destruct (Qltb y best) eqn:E.
    + apply Qltb_lt in E. destruct (IH y i (S i)) as (v & Hidx & Hv & Hall).
      exists v. split; [|split].
      * right. destruct Hidx as [[-> ->]|(k & -> & Hk)].
        -- exists 0. split; [lia|done].
        -- exists (S k). split; [lia|done].
      * apply Qlt_le_weak. by apply (Qle_lt_trans _ y).
      * intros [|k] x Hx; cbn in Hx; [by injection Hx as <-|by apply (Hall k)].
    + apply Qltb_ge in E. destruct (IH best ibest (S i)) as (v & Hidx & Hv & Hall).
      exists v. split; [|split; [done|]].
      * destruct Hidx as [[-> ->]|(k & -> & Hk)]; [by left|].
        right. exists (S k). split; [lia|done].
      * intros [|k] x Hx; cbn in Hx; [|by apply (Hall k)].
        injection Hx as <-. by apply (Qle_trans _ best).
Qed.

Lemma np_argmin_spec (a : list Q) :
  a <> [] ->
  exists i v, np_argmin a = Some i /\ a !! i = Some v /\
              forall k x, a !! k = Some x -> (v <= x)%Q.
Proof.
  destruct a as [|y r]; [done|]. intros _. cbn [np_argmin].
  destruct (np_argmin_from_spec r y 0 1) as (v & Hidx & Hv & Hall).
  exists (np_argmin_from y 0 1 r), v. split; [done|]. split.
  - destruct Hidx as [[-> ->]|(k & -> & Hk)]; [done|]. exact Hk.
  - intros [|k] x Hx; cbn in Hx; [by injection Hx as <-|by apply (Hall k)].
Qed.

Lemma velocity_offsets_run z comps cs mtc : forall g,
  Forall2 (fun l c => heap g !! l = Some c) comps cs ->
  ~ (1 + z == 0)%Q ->
  Forall (fun mt => mt < length cs) mtc ->
  exists dvz,
    velocity_offsets z comps mtc g = ([], Done dvz g) /\
    Forall2 (fun mt d => exists c, cs !! mt = Some c /\ d = dvz_of z c) mtc dvz.
Proof.
  intros g Hall Hz. induction mtc as [|mt r IH]; intros Hmt.
  - exists []. split; [done|constructor].
  - inversion Hmt as [|? ? Hlt Hr]; subst.
    destruct (IH Hr) as (dv & Hrun & Hdv).
    destruct (lookup_lt_is_Some_2 cs mt Hlt) as [c Hc].
    destruct (Forall2_lookup_r _ _ _ _ _ Hall Hc) as (l & Hl & Hlc).
    exists (dvz_of z c :: dv). split; [|constructor; [by exists c|done]].
    cbn [velocity_offsets]. rewrite Hl. cbn [expect]. rewrite bind_ret.
    rewrite (bind_Done_nil _ _ _ _ _ (deref_run l g c Hlc)).
    destruct (Qeq_bool (1 + z) 0) eqn:E; [by apply Qeq_bool_iff in E|].
    rewrite bind_ret. by rewrite (bind_Done_nil _ _ _ _ _ Hrun).
Qed.

Ltac grab_key :=
  cbv beta iota zeta delta [inaxes_gid key xdata negb orb Ascii.eqb Bool.eqb].

Lemma np_where_matches (cs : list AbsComponent) (wrest : Q) j :
  j ∈ np_where (Qeq_bool wrest) (init_wrest <$> cs) <->
  exists c, cs !! j = Some c /\ (wrest == init_wrest c)%Q.
Proof.
  rewrite elem_of_np_where. split.
  - intros (w & Hw & Hp). apply list_lookup_fmap_Some in Hw as (c & -> & Hc).
    exists c. split; [done|]. by apply Qeq_bool_iff.
  - intros (c & Hc & Hp). exists (init_wrest c).
    split; [by apply lookup_fmap_Some_2|]. by apply Qeq_bool_iff.
Qed.

(** With no component anchored on the panel's transition, the block does
    nothing, whichever of the keys was pressed. *)
Lemma on_key_grab_no_match (g : Gui) (cs : list AbsComponent)
      (wrest x : Q) (k : ascii) :
  Forall2 (fun l c => heap g !! l = Some c) (all_comp g) cs ->
  Forall (fun c => ~ (wrest == init_wrest c)%Q) cs ->
  k = "S"%char \/ k = "D"%char ->
  on_key_grab (mkKeyEvent k (Some wrest) x) g = ([], Done tt g).
Proof.
  intros Hall Hnone Hk.
  set (mtc := np_where (Qeq_bool wrest) (init_wrest <$> cs)).
  assert (Hnil : mtc = []).
  { destruct (decide (mtc = [])) as [|Hne]; [done|]. exfalso.
    assert (Hj : exists j, j ∈ mtc)
      by (destruct mtc as [|j r]; [done|exists j; by left]).
    destruct Hj as [j Hj]. apply np_where_matches in Hj as (c & Hc & Hp).
    exact (proj1 (Forall_lookup _ _) Hnone j c Hc Hp). }
  destruct Hk as [-> | ->]; unfold on_key_grab; grab_key;
    rewrite bind_gets;
    rewrite (bind_Done_nil _ _ _ _ _ (init_wrests_run _ g cs Hall));
    fold mtc; by rewrite Hnil.
Qed.

(** With a component anchored on the panel's transition, the block hands a
    component with the least [|dv + xdata|] among those to the command of
    the key. *)
Lemma on_key_grab_target (g : Gui) (cs : list AbsComponent) (wrest x : Q) :
  Forall2 (fun l c => heap g !! l = Some c) (all_comp g) cs ->
  ~ (1 + vp_z g == 0)%Q ->
  Exists (fun c => (wrest == init_wrest c)%Q) cs ->
  exists i l c,
    all_comp g !! i = Some l /\ cs !! i = Some c /\ heap g !! l = Some c /\
    (wrest == init_wrest c)%Q /\
    (forall c2, c2 ∈ cs -> (wrest == init_wrest c2)%Q ->
       (Qabs (dvz_of (vp_z g) c + x) <= Qabs (dvz_of (vp_z g) c2 + x))%Q) /\
    on_key_grab (mkKeyEvent "S" (Some wrest) x) g
    = fiddle_init_component l g /\
    on_key_grab (mkKeyEvent "D" (Some wrest) x) g = delete_component l g.
Proof.
  intros Hall Hz Hsome.
  set (mtc := np_where (Qeq_bool wrest) (init_wrest <$> cs)).
  pose proof (np_where_matches cs wrest) as Hmtc. fold mtc in Hmtc.
  assert (Hne : mtc <> []).
  { apply Exists_exists in Hsome as (c & Hc & Hp).
    apply list_elem_of_lookup_1 in Hc as [j Hj].
    assert (Hin : j ∈ mtc) by (apply Hmtc; by exists c).
    intros E. rewrite E in Hin. by apply elem_of_nil in Hin. }
  assert (Hlt : Forall (fun mt => mt < length cs) mtc).
  { apply Forall_forall. intros j Hj. apply Hmtc in Hj as (c & Hc & _).
    by apply lookup_lt_Some in Hc. }
  destruct (velocity_offsets_run (vp_z g) (all_comp g) cs mtc g Hall Hz Hlt)
    as (dvz & Hrun & Hdv).
  set (a := (fun d => Qabs (d + x)) <$> dvz).
  assert (Ha : a <> []).
  { subst a. apply Forall2_length in Hdv.
    destruct dvz; [|done]. by destruct mtc. }
  destruct (np_argmin_spec a Ha) as (k & v & Hk & Hkv & Hmin).
  subst a. apply list_lookup_fmap_Some in Hkv as (d & -> & Hd).
  destruct (Forall2_lookup_r _ _ _ _ _ Hdv Hd) as (mt & Hmt & c & Hc & ->).
  destruct (Forall2_lookup_r _ _ _ _ _ Hall Hc) as (l & Hl & Hlc).
  exists mt, l, c. split; [done|]. split; [done|]. split; [done|].
  split.
  { destruct (proj1 (Hmtc mt) (list_elem_of_lookup_2 _ k _ Hmt))
      as (c' & Hc' & Hp).
    rewrite Hc in Hc'. by injection Hc' as <-. }
  split.
  { intros c2 Hc2 Hp2. apply list_elem_of_lookup_1 in Hc2 as [j Hj].
    assert (Hin : j ∈ mtc) by (apply Hmtc; by exists c2).
    apply list_elem_of_lookup_1 in Hin as [k2 Hk2].
    destruct (Forall2_lookup_l _ _ _ _ _ Hdv Hk2) as (d2 & Hd2 & c3 & Hc3 & ->).
    rewrite Hj in Hc3. injection Hc3 as <-.
    apply (Hmin k2).
    exact (lookup_fmap_Some_2 (fun d => Qabs (d + x)) dvz k2 _ Hd2). }
  split; unfold on_key_grab; grab_key;
    rewrite bind_gets;
    rewrite (bind_Done_nil _ _ _ _ _ (init_wrests_run _ g cs Hall));
    fold mtc; rewrite decide_False by (by destruct mtc);
    rewrite bind_gets; rewrite (bind_Done_nil _ _ _ _ _ Hrun);
    rewrite Hk; cbn [expect]; rewrite bind_ret;
    rewrite Hmt; cbn [expect]; rewrite bind_ret;
    rewrite Hl; cbn [expect]; by rewrite bind_ret.
Qed.

(** The part of C7 that holds for 'S': pressed in a panel, 'S' makes the
    fiddle widget hold a component anchored on the panel's transition whose
    [|dv + xdata|] is least among such components, and changes nothing else;
    when no component is anchored on the panel's transition, 'S' and 'D'
    change nothing. *)
Theorem on_key_select_nearest (g : Gui) (cs : list AbsComponent)
        (wrest x : Q) :
  Forall2 (fun l c => heap g !! l = Some c) (all_comp g) cs ->
  ~ (1 + vp_z g == 0)%Q ->
  (Forall (fun c => ~ (wrest == init_wrest c)%Q) cs ->
   on_key_grab (mkKeyEvent "S" (Some wrest) x) g = ([], Done tt g) /\
   on_key_grab (mkKeyEvent "D" (Some wrest) x) g = ([], Done tt g)) /\
  (Exists (fun c => (wrest == init_wrest c)%Q) cs ->
   exists i l c,
     all_comp g !! i = Some l /\ cs !! i = Some c /\
     (wrest == init_wrest c)%Q /\
     on_key_grab (mkKeyEvent "S" (Some wrest) x) g
     = ([], Done tt (set_fiddle_component (Some l) g)) /\
     forall c2, c2 ∈ cs -> (wrest == init_wrest c2)%Q ->
       (Qabs (dvz_of (vp_z g) c + x) <= Qabs (dvz_of (vp_z g) c2 + x))%Q).
Proof.
  intros Hall Hz. split.
  - intros Hnone. split; eapply on_key_grab_no_match; eauto.
  - intros Hsome.
    destruct (on_key_grab_target g cs wrest x Hall Hz Hsome)
      as (i & l & c & Hl & Hc & Hlc & Hp & Hmin & HS & _).
    exists i, l, c. repeat (split; [done|]). split; [|done].
    rewrite HS. unfold fiddle_init_component.
    by rewrite (bind_Done_nil _ _ _ _ _ (deref_run l g c Hlc)).
Qed.

(** *** Deleting the nearest component *)

Definition registry_is (comps : list loc) (items : list string) (s : Gui)
  : Prop :=
  all_comp s = comps /\ all_items s = items.

(** A step that keeps the precondition, whatever it returns. *)
Ltac same_bind :=
  match goal with
  | |- triple ?P _ _ _ => eapply (triple_bind P _ _ (fun _ => P))
  end.

Lemma registry_is_set_heap comps items h s :
  registry_is comps items s -> registry_is comps items (set_heap h s).
Proof. by destruct s. Qed.

Lemma deref_registry comps items l :
  triple (registry_is comps items) (deref l)
         (fun _ => registry_is comps items) (registry_is comps items).
Proof.
  unfold deref. same_bind; [by apply triple_gets|].
  intros h. by apply triple_expect.
Qed.

Lemma fiddle_init_component_registry comps items l :
  triple (registry_is comps items) (fiddle_init_component l)
         (fun _ => registry_is comps items) (registry_is comps items).
Proof.
  unfold fiddle_init_component.
  same_bind; [apply deref_registry|]. intros c.
  apply triple_modify. intros s Hs. by destruct s.
Qed.

Lemma fiddle_reset_registry comps items :
  triple (registry_is comps items) fiddle_reset
         (fun _ => registry_is comps items) (registry_is comps items).
Proof. apply triple_modify. intros s Hs. by destruct s. Qed.

Lemma on_list_change_registry comps items :
  triple (registry_is comps items) on_list_change
         (fun _ => registry_is comps items) (registry_is comps items).
Proof.
  unfold on_list_change.
  same_bind; [by apply triple_gets|]. intros its.
  case_decide; [apply fiddle_reset_registry|].
  same_bind; [by apply triple_expect|]. intros ii.
  same_bind; [by apply triple_gets|]. intros cmps.
  same_bind; [by apply triple_expect|]. intros l.
  apply fiddle_init_component_registry.
Qed.

Lemma at_comp_registry {A} comps items l (m : M AbsComponent A) :
  triple (registry_is comps items) (at_comp l m)
         (fun _ => registry_is comps items) (registry_is comps items).
Proof.
  intros s Hs. unfold at_comp.
  destruct (heap s !! l) as [c|]; [|exact Hs].
  destruct (m c) as [w [a c'|e c']]; cbn; by apply registry_is_set_heap.
Qed.

Lemma gather_lines_registry comps items wvmin wvmax ls :
  triple (registry_is comps items) (gather_lines wvmin wvmax ls)
         (fun _ => registry_is comps items) (registry_is comps items).
Proof.
  induction ls as [|l r IH]; cbn [gather_lines].
  - by apply triple_ret.
  - same_bind; [apply at_comp_registry|]. intros gd.
    same_bind; [apply IH|]. intros gd'. by apply triple_ret.
Qed.

Lemma update_model_registry comps items :
  triple (registry_is comps items) update_model
         (fun _ => registry_is comps items) (registry_is comps items).
Proof.
  unfold update_model.
  same_bind; [by apply triple_gets|]. intros all.
  case_decide.
  { apply triple_modify. intros s Hs. by destruct s. }
  same_bind; [by apply triple_gets|]. intros wv.
  same_bind; [by apply triple_expect|]. intros wvmin.
  same_bind; [by apply triple_expect|]. intros wvmax.
  same_bind; [apply gather_lines_registry|]. intros gd.
  same_bind.
  { case_decide; [|by apply triple_ret].
    same_bind; [by apply triple_gets|]. intros fw.
    apply triple_modify. intros s Hs. by destruct s. }
  intros u. same_bind; [by apply triple_gets|]. intros pr.
  destruct pr; [|by apply triple_ret].
  same_bind.
  { apply triple_modify. intros s Hs. by destruct s. }
  intros u'. apply triple_modify. intros s Hs. by destruct s.
Qed.

Lemma list_index_NoDup (items : list string) i n :
  NoDup items -> items !! i = Some n -> list_index n items = Some i.
Proof.
  intros Hnd Hi. unfold list_index.
  destruct (list_find (fun y => y = n) items) as [[j y]|] eqn:E; cbn.
  - apply list_find_Some in E as (Hj & -> & _).
    f_equal. by apply (NoDup_lookup items j i n).
  - apply list_find_None in E.
    by destruct (proj1 (Forall_lookup _ _) E i n Hi).
Qed.

Lemma delete_component_registry g l c i :
  heap g !! l = Some c ->
  list_index (name c) (all_items g) = Some i ->
  i < length (all_comp g) ->
  registry_is (delete i (all_comp g)) (delete i (all_items g))
              (final_state (delete_component l g)).
Proof.
  intros Hc Hidx Hlt. unfold delete_component.
  rewrite (bind_Done_nil _ _ _ _ _ (deref_run l g c Hc)).
  unfold remove_item. mnorm. rewrite Hidx. cbn [expect]. mnorm.
  replace (all_comp (set_all_items (delete i (all_items g)) g))
    with (all_comp g) by (by destruct g).
  rewrite decide_True by done. rewrite bind_modify.
  apply (triple_final (registry_is (delete i (all_comp g))
                                   (delete i (all_items g))));
    [|by destruct g].
  same_bind; [apply on_list_change_registry|]. intros u.
  same_bind; [by apply triple_gets|]. intros f.
  same_bind.
  { case_decide; [apply fiddle_reset_registry|by apply triple_ret]. }
  intros u'. apply update_model_registry.
Qed.

(** The part of C7 that holds for 'D': when the names in the list widget
    are those of the registered components and differ from each other,
    'D' pressed in a panel removes, from the registry and from the list of
    names, a component anchored on the panel's transition whose
    [|dv + xdata|] is least among such components, and no other; this is
    so whether the redraw that follows returns or raises. *)
Theorem on_key_delete_nearest (g : Gui) (cs : list AbsComponent)
        (wrest x : Q) :
  Forall2 (fun l c => heap g !! l = Some c) (all_comp g) cs ->
  all_items g = name <$> cs ->
  NoDup (all_items g) ->
  ~ (1 + vp_z g == 0)%Q ->
  Exists (fun c => (wrest == init_wrest c)%Q) cs ->
  exists i c,
    cs !! i = Some c /\ (wrest == init_wrest c)%Q /\
    (forall c2, c2 ∈ cs -> (wrest == init_wrest c2)%Q ->
       (Qabs (dvz_of (vp_z g) c + x) <= Qabs (dvz_of (vp_z g) c2 + x))%Q) /\
    all_comp (final_state (on_key_grab (mkKeyEvent "D" (Some wrest) x) g))
    = delete i (all_comp g) /\
    all_items (final_state (on_key_grab (mkKeyEvent "D" (Some wrest) x) g))
    = delete i (all_items g).
Proof.
  intros Hall Hitems Hnd Hz Hsome.
  destruct (on_key_grab_target g cs wrest x Hall Hz Hsome)
    as (i & l & c & Hl & Hc & Hlc & Hp & Hmin & _ & HD).
  exists i, c. repeat (split; [done|]).
  rewrite HD. apply (delete_component_registry g l c i Hlc).
  - apply list_index_NoDup; [done|]. rewrite Hitems.
    by apply lookup_fmap_Some_2.
  - by apply lookup_lt_Some in Hl.
Qed.

(** *** What [update_model] computes *)

(** The test of the inner loop: the line is not masked out and falls on the
    spectrum. *)
Definition in_model (wvmin wvmax : Q) (line : AbsLine) (m : Z) : bool :=
  negb (m =? 0)%Z &&
  (Qltb wvmin ((1 + l_z line) * t_wrest (data line))
   && Qltb ((1 + l_z line) * t_wrest (data line)) wvmax).

Definition refreshed (line : AbsLine) : AbsLine :=
  set_l_N (pow10 (l_logN line)) line.

Definition refresh_line (wvmin wvmax : Q) (line : AbsLine) (m : Z) : AbsLine :=
  if in_model wvmin wvmax line m then refreshed line else line.

Fixpoint model_lines (wvmin wvmax : Q) (lines : list AbsLine) (mask : list Z)
  : list AbsLine :=
  match lines, mask with
  | line :: r, m :: mr =>
      if in_model wvmin wvmax line m
      then refreshed line :: model_lines wvmin wvmax r mr
      else model_lines wvmin wvmax r mr
  | _, _ => []
  end.

Definition refresh_comp (wvmin wvmax : Q) (c : AbsComponent) : AbsComponent :=
  set_abslines
    (zip_with (refresh_line wvmin wvmax) (_abslines c) (mask_abslines c)) c.

Definition comp_model_lines (wvmin wvmax : Q) (c : AbsComponent)
  : list AbsLine :=
  model_lines wvmin wvmax (_abslines c) (mask_abslines c).

Definition refresh_heap (wvmin wvmax : Q) (comps : list loc)
           (h : list AbsComponent) : list AbsComponent :=
  foldl (fun h l => alter (refresh_comp wvmin wvmax) l h) h comps.

Fixpoint registry_lines (wvmin wvmax : Q) (h : list AbsComponent)
         (comps : list loc) : list AbsLine :=
  match comps with
  | [] => []
  | l :: r =>
      from_option (comp_model_lines wvmin wvmax) [] (h !! l)
      ++ registry_lines wvmin wvmax h r
  end.

Definition registry_ok (g : Gui) : Prop :=
  Forall (fun l => exists c, heap g !! l = Some c /\ fits_mask c) (all_comp g).

Lemma set_abslines_id c : set_abslines (_abslines c) c = c.
Proof. by destruct c. Qed.

Lemma set_abslines_set_abslines l l' c :
  set_abslines l (set_abslines l' c) = set_abslines l c.
Proof. by destruct c. Qed.

Lemma good_lines_from wvmin wvmax lines : forall pre mpre ms c,
  _abslines c = pre ++ lines ->
  mask_abslines c = mpre ++ ms ->
  length mpre = length pre ->
  length lines <= length ms ->
  good_lines wvmin wvmax (length pre) lines c
  = ([], Done (model_lines wvmin wvmax lines ms)
              (set_abslines
                 (pre ++ zip_with (refresh_line wvmin wvmax) lines ms) c)).
Proof.
  induction lines as [|line rest IH]; intros pre mpre ms c Hl Hm Hlen Hfit.
  - cbn. unfold ret. rewrite app_nil_r in *. by rewrite <- Hl, set_abslines_id.
  - destruct ms as [|m ms']; [cbn in Hfit; lia|].
    cbn [good_lines].
    assert (Hget : mask_abslines c !! length pre = Some m).
    { rewrite Hm, lookup_app_r by lia. by rewrite Hlen, Nat.sub_diag. }
    rewrite (bind_Done_nil _ _ _ _ _ (mask_get_run _ c m Hget)).
    cbn [model_lines zip_with]. unfold refresh_line at 1, in_model.
    assert (Hskip :
      good_lines wvmin wvmax (S (length pre)) rest c
      = ([], Done (model_lines wvmin wvmax rest ms')
                  (set_abslines
                     (pre ++ line
                        :: zip_with (refresh_line wvmin wvmax) rest ms') c))).
    { specialize (IH (pre ++ [line]) (mpre ++ [m]) ms' c).
      rewrite !length_app, !Nat.add_1_r, <- !app_assoc in IH.
      apply IH; [done|done|lia|cbn in Hfit; lia]. }
    destruct (m =? 0)%Z; cbn [negb andb]; [exact Hskip|].
    destruct (Qltb wvmin _ && Qltb _ wvmax); [|exact Hskip].
    rewrite bind_modify.
    set (c1 := set_abslines (<[length pre := refreshed line]> (_abslines c)) c).
    specialize (IH (pre ++ [refreshed line]) (mpre ++ [m]) ms' c1).
    rewrite !length_app, !Nat.add_1_r, <- !app_assoc in IH.
    erewrite bind_Done_nil; [|apply IH].
    + unfold ret, c1. by rewrite set_abslines_set_abslines.
    + subst c1. destruct c; cbn in *. subst.
      replace (length pre) with (length pre + 0) by lia.
      by rewrite insert_app_r.
    + subst c1. by destruct c.
    + lia.
    + cbn in Hfit; lia.
Qed.

Lemma good_lines_whole wvmin wvmax c :
  fits_mask c ->
  (let* ls := gets _abslines in good_lines wvmin wvmax 0 ls) c
  = ([], Done (comp_model_lines wvmin wvmax c) (refresh_comp wvmin wvmax c)).
Proof.
  intros Hfit. rewrite bind_gets.
  exact (good_lines_from wvmin wvmax (_abslines c) [] [] (mask_abslines c) c
           eq_refl eq_refl eq_refl Hfit).
Qed.

Lemma in_model_refresh_line wvmin wvmax line m :
  in_model wvmin wvmax (refresh_line wvmin wvmax line m) m
  = in_model wvmin wvmax line m.
Proof. unfold refresh_line. by destruct (in_model wvmin wvmax line m) eqn:E. Qed.

Lemma refreshed_refresh_line wvmin wvmax line m :
  in_model wvmin wvmax line m = true ->
  refreshed (refresh_line wvmin wvmax line m) = refreshed line.
Proof. unfold refresh_line. by intros ->. Qed.

Lemma refresh_line_idem wvmin wvmax line m :
  refresh_line wvmin wvmax (refresh_line wvmin wvmax line m) m
  = refresh_line wvmin wvmax line m.
Proof.
  unfold refresh_line at 1. rewrite in_model_refresh_line.
  destruct (in_model wvmin wvmax line m) eqn:E; [|done].
  rewrite refreshed_refresh_line by done. unfold refresh_line. by rewrite E.
Qed.

Lemma model_lines_refresh wvmin wvmax lines : forall mask,
  model_lines wvmin wvmax (zip_with (refresh_line wvmin wvmax) lines mask) mask
  = model_lines wvmin wvmax lines mask.
Proof.
  induction lines as [|line r IH]; intros [|m mr]; try done.
  cbn [zip_with model_lines]. rewrite in_model_refresh_line, IH.
  destruct (in_model wvmin wvmax line m) eqn:E; [|done].
  by rewrite refreshed_refresh_line.
Qed.

Lemma zip_refresh_idem wvmin wvmax lines : forall mask,
  zip_with (refresh_line wvmin wvmax)
           (zip_with (refresh_line wvmin wvmax) lines mask) mask
  = zip_with (refresh_line wvmin wvmax) lines mask.
Proof.
  induction lines as [|line r IH]; intros [|m mr]; try done.
  cbn [zip_with]. by rewrite refresh_line_idem, IH.
Qed.

Lemma refresh_comp_idem wvmin wvmax c :
  refresh_comp wvmin wvmax (refresh_comp wvmin wvmax c)
  = refresh_comp wvmin wvmax c.
Proof.
  destruct c; unfold refresh_comp; cbn. by rewrite zip_refresh_idem.
Qed.

Lemma comp_model_lines_refresh wvmin wvmax c :
  comp_model_lines wvmin wvmax (refresh_comp wvmin wvmax c)
  = comp_model_lines wvmin wvmax c.
Proof.
  destruct c; unfold comp_model_lines, refresh_comp; cbn.
  apply model_lines_refresh.
Qed.

Lemma fits_mask_refresh wvmin wvmax c :
  fits_mask c -> fits_mask (refresh_comp wvmin wvmax c).
Proof.
  unfold fits_mask. destruct c; cbn. rewrite length_zip_with. lia.
Qed.

Lemma lookup_refresh_heap wvmin wvmax comps : forall h j,
  refresh_heap wvmin wvmax comps h !! j
  = (if bool_decide (j ∈ comps) then refresh_comp wvmin wvmax else id)
      <$> h !! j.
Proof.
  induction comps as [|l r IH]; intros h j.
  - cbn. by destruct (h !! j).
  - change (refresh_heap wvmin wvmax (l :: r) h)
      with (refresh_heap wvmin wvmax r (alter (refresh_comp wvmin wvmax) l h)).
    rewrite IH. destruct (decide (l = j)) as [->|Hne].
    + rewrite list_lookup_alter_eq.
      rewrite (bool_decide_eq_true_2 (j ∈ j :: r)) by (by left).
      destruct (h !! j) as [c|]; [|done]. cbn.
      case_bool_decide; [by rewrite refresh_comp_idem|done].
    + rewrite list_lookup_alter_ne by done.
      destruct (h !! j) as [c|]; [|done]. cbn.
      repeat case_bool_decide; try done.
      * exfalso. match goal with H : ¬ _ |- _ => apply H end. by right.
      * exfalso. match goal with H : _ ∈ _ :: _ |- _ =>
          apply elem_of_cons in H as [->|?] end; done.
Qed.

Lemma refresh_heap_idem wvmin wvmax comps h :
  refresh_heap wvmin wvmax comps (refresh_heap wvmin wvmax comps h)
  = refresh_heap wvmin wvmax comps h.
Proof.
  apply list_eq. intros j. rewrite !lookup_refresh_heap.
  destruct (h !! j) as [c|]; [|done]. cbn.
  case_bool_decide; [by rewrite refresh_comp_idem|done].
Qed.

Lemma registry_lines_refresh wvmin wvmax comps' h comps :
  registry_lines wvmin wvmax (refresh_heap wvmin wvmax comps' h) comps
  = registry_lines wvmin wvmax h comps.
Proof.
  induction comps as [|l r IH]; [done|]. cbn [registry_lines].
  rewrite IH, lookup_refresh_heap. f_equal.
  destruct (h !! l) as [c|]; [|done]. cbn.
  case_bool_decide; [apply comp_model_lines_refresh|done].
Qed.

Lemma registry_ok_refresh wvmin wvmax comps' h comps :
  Forall (fun l => exists c, h !! l = Some c /\ fits_mask c) comps ->
  Forall (fun l => exists c,
            refresh_heap wvmin wvmax comps' h !! l = Some c /\ fits_mask c)
         comps.
Proof.
  intros Hok. eapply Forall_impl; [exact Hok|]. intros l (c & Hc & Hfit).
  rewrite lookup_refresh_heap, Hc. cbn.
  case_bool_decide; eexists; (split; [done|]);
    [by apply fits_mask_refresh|done].
Qed.

Lemma gather_lines_run wvmin wvmax comps : forall g,
  Forall (fun l => exists c, heap g !! l = Some c /\ fits_mask c) comps ->
  gather_lines wvmin wvmax comps g
  = ([], Done (registry_lines wvmin wvmax (heap g) comps)
              (set_heap (refresh_heap wvmin wvmax comps (heap g)) g)).
Proof.
  induction comps as [|l r IH]; intros g Hok.
  - cbn. unfold ret. by rewrite set_heap_id.
  - inversion Hok as [|? ? (c & Hc & Hfit) Hr]; subst.
    cbn [gather_lines registry_lines].
    rewrite (bind_Done_nil _ _ _ _ _
      (at_comp_run l _ g c [] _ _ Hc (good_lines_whole wvmin wvmax c Hfit))).
    assert (Hh : <[l := refresh_comp wvmin wvmax c]> (heap g)
                 = refresh_heap wvmin wvmax [l] (heap g)).
    { apply list_eq. intros j. rewrite lookup_refresh_heap.
      destruct (decide (l = j)) as [->|Hne].
      - rewrite list_lookup_insert_eq by (by eapply lookup_lt_Some).
        rewrite Hc. cbn. by rewrite bool_decide_eq_true_2 by (by left).
      - rewrite list_lookup_insert_ne by done.
        rewrite bool_decide_eq_false_2
          by (intros [->|[]%elem_of_nil]%elem_of_cons; done).
        by destruct (heap g !! j). }
    rewrite Hh.
    erewrite bind_Done_nil; [|apply IH].
    + unfold ret. rewrite Hc. cbn [from_option].
      by rewrite !heap_set_heap, set_heap_set_heap, registry_lines_refresh.
    + rewrite heap_set_heap. by apply registry_ok_refresh.
Qed.

Definition with_model (gd : list AbsLine) (g : Gui) : Gui :=
  if decide (0 < length gd)
  then set_model_flux (voigt_from_abslines (spec_wavelength g) gd (fwhm g)) g
  else g.

Definition with_residuals (g : Gui) : Gui :=
  if plot_residuals g then
    (fun g => set_residual
       (fmap (fun d => d * residual_normalization_factor g)%Q
             (np_zip Qminus (spec_flux g) (model_flux g))) g)
      (set_residual_limit
         (fmap (fun s => s * residual_normalization_factor g)%Q (spec_sig g)) g)
  else g.

(** The session [update_model] leaves when the registry is not empty. *)
Definition updated (wvmin wvmax : Q) (g : Gui) : Gui :=
  with_residuals
    (with_model (registry_lines wvmin wvmax (heap g) (all_comp g))
       (set_heap (refresh_heap wvmin wvmax (all_comp g) (heap g)) g)).

Lemma update_model_run g wvmin wvmax :
  all_comp g <> [] -> registry_ok g ->
  np_min (spec_wavelength g) = Some wvmin ->
  np_max (spec_wavelength g) = Some wvmax ->
  update_model g = ([], Done tt (updated wvmin wvmax g)).
Proof.
  intros Hne Hok Hmin Hmax. unfold update_model. rewrite bind_gets.
  rewrite decide_False by (by destruct (all_comp g)).
  rewrite bind_gets, Hmin. cbn [expect]. rewrite bind_ret.
  rewrite Hmax. cbn [expect]. rewrite bind_ret.
  rewrite (bind_Done_nil _ _ _ _ _ (gather_lines_run wvmin wvmax _ g Hok)).
  unfold updated, with_model.
  set (gd := registry_lines wvmin wvmax (heap g) (all_comp g)).
  set (g1 := set_heap (refresh_heap wvmin wvmax (all_comp g) (heap g)) g).
  assert (Hres : forall g2,
    (let* pr := gets plot_residuals in
     if pr then
       modify (fun g => set_residual_limit
         (fmap (fun s => s * residual_normalization_factor g)%Q (spec_sig g)) g) ;;
       modify (fun g => set_residual
         (fmap (fun d => d * residual_normalization_factor g)%Q
              (np_zip Qminus (spec_flux g) (model_flux g))) g)
     else ret tt) g2 = ([], Done tt (with_residuals g2))).
  { intros g2. rewrite bind_gets. unfold with_residuals.
    destruct (plot_residuals g2); [|done]. by rewrite bind_modify. }
  case_decide.
  - rewrite bind_assoc, bind_gets, bind_modify. apply Hres.
  - rewrite bind_ret. apply Hres.
Qed.

Lemma updated_again (gd : list AbsLine) (h : list AbsComponent) (g : Gui) :
  with_residuals
    (with_model gd (set_heap h (with_residuals (with_model gd (set_heap h g)))))
  = with_residuals (with_model gd (set_heap h g)).
Proof.
  destruct g. unfold with_residuals, with_model. cbn.
  case_decide; cbn; by destruct plot_residuals0.
Qed.


Lemma updated_fields wvmin wvmax g :
  all_comp (updated wvmin wvmax g) = all_comp g /\
  spec_wavelength (updated wvmin wvmax g) = spec_wavelength g /\
  heap (updated wvmin wvmax g)
  = refresh_heap wvmin wvmax (all_comp g) (heap g).
Proof.
  unfold updated, with_residuals, with_model.
  generalize (registry_lines wvmin wvmax (heap g) (all_comp g)).
  generalize (refresh_heap wvmin wvmax (all_comp g) (heap g)).
  intros h gd. destruct g. cbn.
  case_decide; cbn; by destruct plot_residuals0.
Qed.

Lemma updated_idem wvmin wvmax g :
  updated wvmin wvmax (updated wvmin wvmax g) = updated wvmin wvmax g.
Proof.
  destruct (updated_fields wvmin wvmax g) as (Hc & _ & Hh).
  unfold updated at 1. rewrite Hh, Hc, registry_lines_refresh, refresh_heap_idem.
  apply updated_again.
Qed.




Lemma update_model_empty_run g :
  all_comp g = [] ->
  update_model g
  = ([], Done tt (set_model_flux ((fun _ => 1%Q) <$> model_flux g) g)).
Proof.
  intros Hnil. unfold update_model. rewrite bind_gets.
  by rewrite decide_True by (by rewrite Hnil).
Qed.


(** The second half of C1: with the registry, the masks and the spectrum
    as they are, a second [update_model] right after the first returns as
    the first did and leaves the session as the first left it. *)
Theorem update_model_idempotent (g : Gui) :
  registry_ok g ->
  all_comp g = [] \/ spec_wavelength g <> [] ->
  exists g', update_model g = ([], Done tt g') /\
             update_model g' = ([], Done tt g').
Proof.
  intros Hok Hcase.
  destruct (decide (all_comp g = [])) as [Hnil|Hne].
  - eexists. split; [by apply update_model_empty_run|].
    rewrite update_model_empty_run by (by destruct g).
    destruct g; cbn. by rewrite <- list_fmap_compose.
  - destruct Hcase as [|Hwv]; [done|].
    destruct (np_min_Some _ Hwv) as [a Ha].
    destruct (np_max_Some _ Hwv) as [b Hb].
    destruct (updated_fields a b g) as (Hc & Hs & Hh).
    exists (updated a b g). split; [by apply update_model_run|].
    rewrite (update_model_run (updated a b g) a b).
    + by rewrite updated_idem.
    + by rewrite Hc.
    + unfold registry_ok. rewrite Hc, Hh. by apply registry_ok_refresh.
    + by rewrite Hs.
    + by rewrite Hs.
Qed.

(* ===================================================================== *)
(** ** More of the session: what the commands do at the edges *)
(* ===================================================================== *)

(** *** A file without components *)

Lemma write_out_empty_run g :
  all_comp g = [] ->
  write_out g
  = ([], Done {| d_cmps := ∅;
                 d_spec_file := spec_filename g;
                 d_fwhm := fwhm g;
                 d_bad_pixels :=
                   Some (Z.of_nat <$> np_where (Z.eqb 1) (bad_pixels g)) |}
              g).
Proof.
  intros Hnil. rewrite (write_out_run g []).
  - cbn. by rewrite app_nil_r, set_heap_id.
  - rewrite Hnil. constructor.
  - constructor.
Qed.

(** [read_previous] ends with
    [self.fiddle_widg.init_component(self.velplot_widg.current_comp)], and
    [current_comp] is an attribute only [add_component] creates.  So the
    file [write_out] makes of a session without components cannot be read
    back: in the new session, where no component was added yet, the bad
    pixels are loaded, the model is reset, and the last statement raises
    [AttributeError]. *)
Theorem read_previous_file_without_components (g g0 : Gui) :
  all_comp g = [] ->
  (fwhm g0 == fwhm g)%Q ->
  all_comp g0 = [] ->
  current_comp g0 = None ->
  length (bad_pixels g) <= length (bad_pixels g0) ->
  exists out w s2,
    write_out g = ([], Done out g) /\
    d_cmps out = ∅ /\
    read_previous out g0 = (w, Raised AttributeError s2) /\
    all_comp s2 = [] /\
    heap s2 = heap g0 /\
    fiddle_component s2 = fiddle_component g0 /\
    model_flux s2 = (fun _ => 1%Q) <$> model_flux g0.
Proof.
  intros Hnil Hfw Hnil0 Hcur Hlen.
  set (out := {| d_cmps := ∅; d_spec_file := spec_filename g;
                 d_fwhm := fwhm g;
                 d_bad_pixels :=
                   Some (Z.of_nat <$> np_where (Z.eqb 1) (bad_pixels g)) |}).
  destruct (load_bad_pixels_written (bad_pixels g) g0 out eq_refl Hlen)
    as [bp Hbp].
  assert (Heq : Qeq_bool (d_fwhm out) (fwhm g0) = true)
    by (apply Qeq_bool_iff; cbn; by symmetry).
  set (g1 := set_bad_pixels bp g0).
  set (s2 := set_model_flux ((fun _ => 1%Q) <$> model_flux g1) g1).
  assert (Hrest :
    (for_each (map_to_list (d_cmps out))
              (fun kr => load_component kr.1 kr.2) ;;
     update_model ;;
     let* cur := get_current_comp in
     fiddle_init_component cur) g1
    = ([], Raised AttributeError s2)).
  { cbn [d_cmps out]. rewrite map_to_list_empty. cbn [for_each].
    rewrite bind_ret.
    rewrite (bind_Done_nil _ _ _ _ _
               (update_model_empty_run g1 ltac:(by destruct g0))).
    unfold get_current_comp. rewrite bind_assoc, bind_gets.
    replace (current_comp (set_model_flux _ g1)) with (current_comp g0)
      by (by destruct g0).
    by rewrite Hcur. }
  assert (Hrun : exists w, read_previous out g0 = (w, Raised AttributeError s2)).
  { unfold read_previous. rewrite bind_gets, Heq. cbn [negb].
    rewrite (bind_Done_nil _ _ _ _ _ Hbp). rewrite bind_gets.
    fold g1. case_decide.
    - eexists. rewrite bind_ret, Hrest. reflexivity.
    - eexists. rewrite bind_tell, Hrest. reflexivity. }
  destruct Hrun as [w Hrun].
  exists out, w, s2. split; [by apply write_out_empty_run|].
  split; [done|]. split; [done|]. by destruct g0.
Qed.

(** *** The names key the records *)

Lemma records_of_snoc cs c m :
  records_of (cs ++ [c]) m
  = <[name c := to_record (pruned c)]> (records_of cs m).
Proof. unfold records_of. by rewrite foldl_app. Qed.

Lemma dom_records_of cs : forall m,
  dom (records_of cs m) = list_to_set (name <$> cs) ∪ dom m.
Proof.
  induction cs as [|c cs IH]; intros m.
  - cbn. by rewrite (left_id_L ∅ (∪)).
  - rewrite records_of_cons, IH, dom_insert_L. cbn.
    by rewrite (assoc_L (∪)), (comm_L (∪) (list_to_set _)).
Qed.

(** The record under a name is the one of the last component bearing it. *)
Lemma records_of_last cs : forall m k r,
  records_of cs m !! k = Some r ->
  (exists i c, cs !! i = Some c /\ name c = k /\ r = to_record (pruned c) /\
     forall j c', i < j -> cs !! j = Some c' -> name c' <> k) \/
  (m !! k = Some r /\ k ∉ name <$> cs).
Proof.
  induction cs as [|c cs IH] using rev_ind; intros m k r Hk.
  - right. split; [done|]. cbn. apply not_elem_of_nil.
  - rewrite records_of_snoc in Hk.
    apply lookup_insert_Some in Hk as [[Hn <-]|[Hn Hk]].
    + left. exists (length cs), c. split; [by apply list_lookup_middle|].
      split; [done|]. split; [done|].
      intros j c' Hj Hc'. apply lookup_lt_Some in Hc'.
      rewrite length_app in Hc'. cbn in Hc'. lia.
    + destruct (IH m k r Hk) as [(i & c0 & Hi & Hc0 & Hr & Hlast)|[Hm Hnot]].
      * left. exists i, c0.
        split; [by rewrite lookup_app_l by (by eapply lookup_lt_Some)|].
        split; [done|]. split; [done|].
        intros j c' Hj Hc'.
        apply lookup_snoc_Some in Hc' as [[_ Hc']|[_ <-]]; [|done].
        by apply (Hlast j).
      * right. split; [done|]. rewrite fmap_app. cbn.
        intros [?|[->|[]%elem_of_nil]%elem_of_cons]%elem_of_app; done.
Qed.

(** [out_dict['cmps'][comp.name] = ...]: the components are written under
    their names, one after the other.  The file holds one record per name
    in use, and under a name the record of the last component of the list
    that bears it, without its masked-out lines; an earlier component of the
    same name is not in the file. *)
Theorem write_out_one_record_per_name (g : Gui) (cs : list AbsComponent) :
  Forall2 (fun l c => heap g !! l = Some c) (all_comp g) cs ->
  Forall fits_mask cs ->
  exists out g',
    write_out g = ([], Done out g') /\
    dom (d_cmps out) = list_to_set (name <$> cs) /\
    forall k r, d_cmps out !! k = Some r ->
      exists i c,
        cs !! i = Some c /\ name c = k /\ r = to_record (pruned c) /\
        forall j c', i < j -> cs !! j = Some c' -> name c' <> k.
Proof.
  intros Hall Hfit. eexists _, _. split; [by apply write_out_run|].
  cbn [d_cmps]. split.
  - by rewrite dom_records_of, dom_empty_L, (right_id_L ∅ (∪)).
  - intros k r Hk. destruct (records_of_last cs ∅ k r Hk) as [H|[H _]]; [done|].
    by rewrite lookup_empty in H.
Qed.

(** *** Deleting the selected component *)

(** [update_model] writes the store, the model and the residuals and
    nothing else. *)
Definition model_frame (P : Gui -> Prop) : Prop :=
  (forall h s, P s -> P (set_heap h s)) /\
  (forall m s, P s -> P (set_model_flux m s)) /\
  (forall v s, P s -> P (set_residual_limit v s)) /\
  (forall v s, P s -> P (set_residual v s)).

Lemma at_comp_frame {A} (P : Gui -> Prop) l (m : M AbsComponent A) :
  (forall h s, P s -> P (set_heap h s)) ->
  triple P (at_comp l m) (fun _ => P) P.
Proof.
  intros HP s Hs. unfold at_comp.
  destruct (heap s !! l) as [c|]; [|exact Hs].
  destruct (m c) as [w [a c'|e c']]; cbn; by apply HP.
Qed.

Lemma gather_lines_frame (P : Gui -> Prop) wvmin wvmax ls :
  (forall h s, P s -> P (set_heap h s)) ->
  triple P (gather_lines wvmin wvmax ls) (fun _ => P) P.
Proof.
  intros HP. induction ls as [|l r IH]; cbn [gather_lines].
  - by apply triple_ret.
  - same_bind; [by apply at_comp_frame|]. intros gd.
    same_bind; [apply IH|]. intros gd'. by apply triple_ret.
Qed.

Lemma update_model_frame (P : Gui -> Prop) :
  model_frame P -> triple P update_model (fun _ => P) P.
Proof.
  intros (Hh & Hm & Hrl & Hr). unfold update_model.
  same_bind; [by apply triple_gets|]. intros all.
  case_decide; [apply triple_modify; intros s Hs; by apply Hm|].
  same_bind; [by apply triple_gets|]. intros wv.
  same_bind; [by apply triple_expect|]. intros wvmin.
  same_bind; [by apply triple_expect|]. intros wvmax.
  same_bind; [by apply gather_lines_frame|]. intros gd.
  same_bind.
  { case_decide; [|by apply triple_ret].
    same_bind; [by apply triple_gets|]. intros fw.
    apply triple_modify. intros s Hs. by apply Hm. }
  intros u. same_bind; [by apply triple_gets|]. intros pr.
  destruct pr; [|by apply triple_ret].
  same_bind; [apply triple_modify; intros s Hs; by apply Hrl|].
  intros u'. apply triple_modify. intros s Hs. by apply Hr.
Qed.





(* ===================================================================== *)
(** ** Editing the selected component *)
(* ===================================================================== *)

(** [IGMGuessesGui.updated_component]: the selected component is
    synchronised and masked, then the model is recomputed; the redraw is
    display only.  With no component selected, [sync_comp_lines(None)]
    reads [None._abslines]. *)
Definition updated_component : M Gui unit :=
  let* f := gets fiddle_component in
  let* l := expect AttributeError f in
  at_comp l sync_comp_lines ;;
  let* f := gets fiddle_component in
  let* l := expect AttributeError f in
  let* mew := gets min_ew in
  at_comp l (mask_comp_lines mew) ;;
  update_model.

(** [FiddleComponentWidget.update_component]: the boxes show the
    attributes of the component, then the main window is told. *)
Definition fiddle_update_component : M Gui unit :=
  let* f := gets fiddle_component in
  let* l := expect AttributeError f in
  deref l ;;
  updated_component.

(** [component.attrib[k] = v] on the object at [l]. *)
Definition attrib_set (l : loc) (upd : Attrib -> Attrib) : M Gui unit :=
  at_comp l (modify (fun c => set_attrib (upd (attrib c)) c)).

Definition set_a_N (v : Q) (a : Attrib) : Attrib :=
  mkAttrib v (a_Nsig a) (a_flagN a) (a_logN a) (a_sig_logN a)
           (a_b a) (a_bsig a) (a_z a) (a_zsig a) (a_Reliability a).

(** [IGGVelPlotWidget.fit_component].  The measurement of the line and the
    Levenberg-Marquardt fit belong to linetools and astropy: their outcome,
    the fitted [(logN, z, b)] or the exception they end in, is the input
    [fit]. *)
Definition fit_component (fit : result (Q * Q * Q)) (l : loc) : M Gui unit :=
  deref l ;;
  let* p := lift_result fit in
  attrib_set l (set_a_logN p.1.1) ;;
  attrib_set l (set_a_N (pow10 p.1.1)) ;;
  attrib_set l (set_a_z p.1.2) ;;
  attrib_set l (set_a_b p.2) ;;
  at_comp l sync_comp_lines ;;
  let* mew := gets min_ew in
  at_comp l (mask_comp_lines mew).

(** The step of the keys 'N', 'n', 'v', 'V', '<', '>' on the attributes. *)
Definition fiddle_step (k : ascii) (a : Attrib) : Attrib :=
  if Ascii.eqb k "N" then set_a_logN (a_logN a + (5 # 100)) a
  else if Ascii.eqb k "n" then set_a_logN (a_logN a - (5 # 100)) a
  else if Ascii.eqb k "v" then set_a_b (a_b a - 5) a
  else if Ascii.eqb k "V" then set_a_b (a_b a + 5) a
  else if Ascii.eqb k "<" then set_a_z (a_z a - (4 # 100000)) a
  else if Ascii.eqb k ">" then set_a_z (a_z a + (4 # 100000)) a
  else a.

(** What [on_key] does for the keys 'N', 'n', 'v', 'V', '<', '>' and 'R'
    (for any other key this part of [on_key] is skipped, and no later part
    of [on_key] changes the session for these keys).  The message printed
    when no component is selected is not recorded. *)
Definition on_key_fiddle (fit : result (Q * Q * Q)) (event : KeyEvent)
  : M Gui unit :=
  match inaxes_gid event with
  | None => ret tt                     (* AttributeError: return *)
  | Some _ =>
      let k := key event in
      if negb (Ascii.eqb k "N" || Ascii.eqb k "n" || Ascii.eqb k "v"
               || Ascii.eqb k "V" || Ascii.eqb k "<" || Ascii.eqb k ">"
               || Ascii.eqb k "R") then ret tt
      else
        let* f := gets fiddle_component in
        match f with
        | None => ret tt     (* 'Need to generate a component first!' *)
        | Some l =>
            (if Ascii.eqb k "R" then fit_component fit l
             else attrib_set l (fiddle_step k)) ;;
            fiddle_update_component
        end
  end.


(** [FiddleComponentWidget.setReliability] *)
Definition setReliability (text : string) : M Gui unit :=
  let* f := gets fiddle_component in
  match f with
  | None => ret tt
  | Some l => attrib_set l (set_a_Reliability text)
  end.

(** [c'] is [c] up to the column densities [N] of its lines, which
    [update_model] refreshes. *)
Definition up_to_N (c c' : AbsComponent) : Prop :=
  set_abslines (_abslines c) c' = c /\
  Forall2 (fun line line' => set_l_N (l_N line) line' = line)
          (_abslines c) (_abslines c').

Lemma up_to_N_refl c : up_to_N c c.
Proof.
  split; [by destruct c|]. apply Forall_Forall2_diag, Forall_forall.
  intros line _. by destruct line.
Qed.

Lemma up_to_N_refresh_comp wvmin wvmax c :
  fits_mask c -> up_to_N c (refresh_comp wvmin wvmax c).
Proof.
  unfold fits_mask. destruct c as [n zc vl st iw att cm lines mask]. cbn.
  intros Hfit. split; [done|]. cbn.
  revert mask Hfit. induction lines as [|line r IH]; intros mask Hfit.
  - constructor.
  - destruct mask as [|m mr]; [cbn in Hfit; lia|]. cbn [zip_with].
    constructor; [|apply IH; cbn in Hfit; lia].
    unfold refresh_line, refreshed. destruct (in_model _ _ _ _); by destruct line.
Qed.

Lemma length_refresh_heap wvmin wvmax comps : forall h,
  length (refresh_heap wvmin wvmax comps h) = length h.
Proof.
  induction comps as [|l r IH]; intros h; [done|].
  change (refresh_heap wvmin wvmax (l :: r) h)
    with (refresh_heap wvmin wvmax r (alter (refresh_comp wvmin wvmax) l h)).
  by rewrite IH, length_alter.
Qed.

(** What [update_model] leaves alone. *)
Definition same_session (g g' : Gui) : Prop :=
  all_comp g' = all_comp g /\ all_items g' = all_items g /\
  fiddle_component g' = fiddle_component g /\
  current_comp g' = current_comp g /\
  bad_pixels g' = bad_pixels g /\
  spec_wavelength g' = spec_wavelength g /\
  min_ew g' = min_ew g /\ vp_z g' = vp_z g.

Lemma updated_same_session wvmin wvmax g :
  same_session g (updated wvmin wvmax g).
Proof.
  unfold updated, with_residuals, with_model.
  generalize (registry_lines wvmin wvmax (heap g) (all_comp g)).
  generalize (refresh_heap wvmin wvmax (all_comp g) (heap g)).
  intros h gd. destruct g. cbn.
  case_decide; cbn; by destruct plot_residuals0.
Qed.

Lemma update_model_returns g :
  registry_ok g -> spec_wavelength g <> [] ->
  exists g', update_model g = ([], Done tt g') /\
             same_session g g' /\
             Forall2 up_to_N (heap g) (heap g').
Proof.
  intros Hok Hwv. destruct (decide (all_comp g = [])) as [Hnil|Hne].
  - eexists. split; [by apply update_model_empty_run|].
    split; [by destruct g|]. destruct g; cbn.
    apply Forall_Forall2_diag, Forall_forall. intros c _. apply up_to_N_refl.
  - destruct (np_min_Some _ Hwv) as [a Ha].
    destruct (np_max_Some _ Hwv) as [b Hb].
    exists (updated a b g). split; [by apply update_model_run|].
    split; [apply updated_same_session|].
    destruct (updated_fields a b g) as (_ & _ & ->).
    apply Forall2_same_length_lookup_2; [by rewrite length_refresh_heap|].
    intros i c c' Hc Hc'. rewrite lookup_refresh_heap, Hc in Hc'. cbn in Hc'.
    injection Hc' as <-. case_bool_decide as Hin; [|apply up_to_N_refl].
    apply up_to_N_refresh_comp.
    destruct (proj1 (Forall_forall _ _) Hok i Hin) as (c0 & Hc0 & Hfit).
    rewrite Hc in Hc0. by injection Hc0 as <-.
Qed.

Lemma registry_ok_insert g l c :
  registry_ok g -> fits_mask c ->
  registry_ok (set_heap (<[l := c]> (heap g)) g).
Proof.
  intros Hok Hfit. unfold registry_ok.
  replace (all_comp (set_heap (<[l := c]> (heap g)) g)) with (all_comp g)
    by (by destruct g).
  rewrite heap_set_heap. eapply Forall_impl; [exact Hok|].
  intros j (c0 & Hc0 & Hfit0). destruct (decide (l = j)) as [->|Hne].
  - exists c. split; [|done].
    by rewrite list_lookup_insert_eq by (by eapply lookup_lt_Some).
  - exists c0. by rewrite list_lookup_insert_ne.
Qed.

(** The component once synchronised and masked. *)
Definition resynced (thr : Q) (c : AbsComponent) : AbsComponent :=
  let c1 := set_abslines (sync_line (attrib c) <$> _abslines c) c in
  set_mask_abslines (mask_apply thr 0 (_abslines c1) (mask_abslines c1)) c1.

Lemma resynced_settled thr c :
  length (mask_abslines c) = length (_abslines c) ->
  settled thr (resynced thr c).
Proof.
  intros Hlen. destruct c as [n zc vl st iw att cm lines mask]; cbn in *.
  split; cbn.
  - by rewrite length_mask_apply, length_fmap.
  - intros i line m Hi Hm Hne.
    apply list_lookup_fmap_Some in Hi as (line0 & -> & Hi).
    rewrite (lookup_mask_apply_0 thr _ mask i (sync_line att line0)) in Hm
      by (by apply lookup_fmap_Some_2).
    destruct (mask !! i) as [m0|]; [|done]. cbn in Hm. injection Hm as <-.
    unfold mask_entry in Hne.
    assert (Hs : sync_line att (sync_line att line0) = sync_line att line0)
      by done.
    rewrite Hs. by destruct (ew_lt (ew (sync_line att line0)) thr).
Qed.

Lemma settled_up_to_N thr c c' :
  up_to_N c c' -> settled thr c -> settled thr c'.
Proof.
  intros [Hset Hlines] [Hlen Hall].
  assert (Hatt : attrib c' = attrib c) by (rewrite <- Hset; by destruct c').
  assert (Hmask : mask_abslines c' = mask_abslines c)
    by (rewrite <- Hset; by destruct c').
  split.
  - rewrite Hmask, Hlen. by apply Forall2_length in Hlines.
  - intros i line' m Hi Hm Hne. rewrite Hmask in Hm.
    destruct (Forall2_lookup_r _ _ _ _ _ Hlines Hi) as (line & Hline & Heq).
    specialize (Hall i line m Hline Hm Hne). rewrite Hatt.
    rewrite <- Hall, <- Heq. by destruct line'.
Qed.

Lemma fiddle_set_heap h g :
  fiddle_component (set_heap h g) = fiddle_component g.
Proof. done. Qed.

(** [updated_component] on a selected component with a mask entry per
    line: it returns, and the session differs by the selected component,
    now synchronised and masked, and by what [update_model] refreshes. *)
Lemma updated_component_run g l c :
  registry_ok g -> spec_wavelength g <> [] ->
  fiddle_component g = Some l -> heap g !! l = Some c ->
  length (mask_abslines c) = length (_abslines c) ->
  exists w g',
    updated_component g = (w, Done tt g') /\
    same_session g g' /\
    Forall2 up_to_N (<[l := resynced (min_ew g) c]> (heap g)) (heap g').
Proof.
  intros Hok Hwv Hf Hc Hlen. unfold updated_component.
  rewrite bind_gets, Hf. cbn [expect]. rewrite bind_ret.
  assert (Hsync : sync_comp_lines c
            = ([], Done tt (set_abslines (sync_line (attrib c) <$> _abslines c) c)))
    by done.
  rewrite (bind_Done_nil _ _ _ _ _ (at_comp_run l _ g c [] _ _ Hc Hsync)).
  set (c1 := set_abslines (sync_line (attrib c) <$> _abslines c) c).
  set (g1 := set_heap (<[l := c1]> (heap g)) g).
  rewrite bind_gets. change (fiddle_component g1) with (fiddle_component g).
  rewrite Hf. cbn [expect]. rewrite bind_ret, bind_gets.
  assert (Hc1 : heap g1 !! l = Some c1).
  { unfold g1. rewrite heap_set_heap.
    by rewrite list_lookup_insert_eq by (by eapply lookup_lt_Some). }
  assert (Hfit1 : fits_mask c1).
  { unfold fits_mask, c1. destruct c; cbn in *. rewrite length_fmap. lia. }
  pose proof (at_comp_run l _ g1 c1 _ _ _ Hc1
                (mask_comp_lines_Done (min_ew g1) c1 Hfit1)) as Hmask.
  set (g2 := set_heap _ g1) in Hmask.
  assert (Hok2 : registry_ok g2).
  { apply registry_ok_insert; [by apply registry_ok_insert|].
    unfold fits_mask. cbn. rewrite length_mask_apply.
    destruct c; cbn in *. rewrite length_fmap. lia. }
  destruct (update_model_returns g2 Hok2 ltac:(by destruct g))
    as (g' & Hrun & Hsame & Hheap).
  rewrite (bind_Done _ _ _ _ _ _ Hmask), Hrun. cbn.
  eexists _, g'. split; [reflexivity|]. split.
  - destruct Hsame as (? & ? & ? & ? & ? & ? & ? & ?).
    repeat split; by destruct g.
  - assert (Hh2 : heap g2 = <[l := resynced (min_ew g) c]> (heap g)).
    { unfold g2, g1. rewrite !heap_set_heap, list_insert_insert_eq.
      by destruct g. }
    by rewrite <- Hh2.
Qed.

(** The lines of a component carry the component's [logN], [b] and [z]. *)
Definition lines_synced (c : AbsComponent) : Prop :=
  forall line, line ∈ _abslines c ->
    l_logN line = a_logN (attrib c) /\ l_b line = a_b (attrib c) /\
    l_z line = a_z (attrib c).

(** [g'] is [g] once the component at [l] was edited into [cE] and
    [updated_component] ran: nothing but the store, the model and the
    residuals differs; the object at [l] has the attributes, name and
    comment of [cE], lines that carry its [logN], [b] and [z], and a mask
    that is settled for the session's threshold; every other object is what
    it was, up to the [N] of its lines. *)
Definition edited (g : Gui) (l : loc) (cE : AbsComponent) (g' : Gui) : Prop :=
  same_session g g' /\
  (exists c', heap g' !! l = Some c' /\
     attrib c' = attrib cE /\ name c' = name cE /\ comment c' = comment cE /\
     length (_abslines c') = length (_abslines cE) /\
     lines_synced c' /\ settled (min_ew g) c') /\
  (forall l' c0, l' <> l -> heap g !! l' = Some c0 ->
     exists c0', heap g' !! l' = Some c0' /\ up_to_N c0 c0').

Lemma resynced_synced thr c : lines_synced (resynced thr c).
Proof.
  intros line Hin. destruct c as [n zc vl st iw att cm lines mask].
  cbn in *. by apply list_elem_of_fmap in Hin as (line0 & -> & _).
Qed.

Lemma lines_synced_up_to_N c c' :
  up_to_N c c' -> lines_synced c -> lines_synced c'.
Proof.
  intros [Hset Hlines] Hs line' Hin.
  assert (Hatt : attrib c' = attrib c) by (rewrite <- Hset; by destruct c').
  apply list_elem_of_lookup_1 in Hin as [i Hi].
  destruct (Forall2_lookup_r _ _ _ _ _ Hlines Hi) as (line & Hline & Heq).
  rewrite Hatt.
  destruct (Hs line (list_elem_of_lookup_2 _ _ _ Hline)) as (H1 & H2 & H3).
  rewrite <- H1, <- H2, <- H3, <- Heq. by destruct line'.
Qed.

Lemma edit_selected_run g l c cE :
  registry_ok g -> spec_wavelength g <> [] ->
  fiddle_component g = Some l -> heap g !! l = Some c ->
  length (mask_abslines cE) = length (_abslines cE) ->
  exists w g',
    updated_component (set_heap (<[l := cE]> (heap g)) g) = (w, Done tt g') /\
    edited g l cE g'.
Proof.
  intros Hok Hwv Hf Hc Hlen.
  set (gE := set_heap (<[l := cE]> (heap g)) g).
  assert (HlE : heap gE !! l = Some cE).
  { unfold gE. rewrite heap_set_heap.
    by rewrite list_lookup_insert_eq by (by eapply lookup_lt_Some). }
  destruct (updated_component_run gE l cE) as (w & g' & Hrun & Hsame & Hheap);
    [apply registry_ok_insert; [done|unfold fits_mask; lia]
    |by destruct g|by destruct g|done|done|].
  exists w, g'. split; [done|].
  assert (Hh : <[l := resynced (min_ew gE) cE]> (heap gE)
               = <[l := resynced (min_ew g) cE]> (heap g)).
  { unfold gE. rewrite heap_set_heap, list_insert_insert_eq. by destruct g. }
  rewrite Hh in Hheap. split; [|split].
  - destruct Hsame as (? & ? & ? & ? & ? & ? & ? & ?).
    repeat split; by destruct g.
  - assert (Hl : <[l := resynced (min_ew g) cE]> (heap g) !! l
                 = Some (resynced (min_ew g) cE))
      by (by rewrite list_lookup_insert_eq by (by eapply lookup_lt_Some)).
    destruct (Forall2_lookup_l _ _ _ _ _ Hheap Hl) as (c' & Hc' & Hup).
    exists c'. split; [done|]. destruct Hup as [Hset Hlines].
    assert (Hup : up_to_N (resynced (min_ew g) cE) c') by done.
    split.
    { transitivity (attrib (resynced (min_ew g) cE));
        [rewrite <- Hset; by destruct c'|by destruct cE]. }
    split.
    { transitivity (name (resynced (min_ew g) cE));
        [rewrite <- Hset; by destruct c'|by destruct cE]. }
    split.
    { transitivity (comment (resynced (min_ew g) cE));
        [rewrite <- Hset; by destruct c'|by destruct cE]. }
    split.
    { apply Forall2_length in Hlines. rewrite <- Hlines.
      destruct cE; cbn. by rewrite length_fmap. }
    split.
    { by apply (lines_synced_up_to_N _ _ Hup (resynced_synced _ _)). }
    by apply (settled_up_to_N _ _ _ Hup (resynced_settled _ _ Hlen)).
  - intros l' c0 Hne Hc0.
    assert (Hl : <[l := resynced (min_ew g) cE]> (heap g) !! l' = Some c0)
      by (by rewrite list_lookup_insert_ne).
    destruct (Forall2_lookup_l _ _ _ _ _ Hheap Hl) as (c0' & Hc0' & Hup).
    by exists c0'.
Qed.

Lemma attrib_set_run g l c upd :
  heap g !! l = Some c ->
  attrib_set l upd g
  = ([], Done tt (set_heap (<[l := set_attrib (upd (attrib c)) c]> (heap g)) g)).
Proof. intros Hc. by apply (at_comp_run l _ g c [] tt). Qed.

(** Keys 'N', 'n', 'v', 'V', '<', '>' (and 'R').  With no component in the
    fiddle widget the keys change nothing.  With a component selected that
    has a mask entry per line, in a session whose registered components
    have one too, each of the six stepping keys returns and leaves the
    session edited at the selected component by the step of the key: the
    registry, the list of names and the selection are unchanged; the
    component has the stepped attribute, its lines carry its [logN], [b],
    [z], its mask is settled; no other component changes but in the [N] of
    its lines. *)
Theorem on_key_fiddle_step (fit : result (Q * Q * Q)) (g : Gui)
        (wrest x : Q) :
  (forall k, fiddle_component g = None ->
     on_key_fiddle fit (mkKeyEvent k (Some wrest) x) g = ([], Done tt g)) /\
  (forall l c k,
     registry_ok g -> spec_wavelength g <> [] ->
     fiddle_component g = Some l -> heap g !! l = Some c ->
     length (mask_abslines c) = length (_abslines c) ->
     k ∈ ["N"; "n"; "v"; "V"; "<"; ">"]%char ->
     exists w g',
       on_key_fiddle fit (mkKeyEvent k (Some wrest) x) g = (w, Done tt g') /\
       edited g l (set_attrib (fiddle_step k (attrib c)) c) g').
Proof.
  split.
  - intros k Hf. unfold on_key_fiddle. cbn [inaxes_gid key].
    destruct (negb _); [done|]. by rewrite bind_gets, Hf.
  - intros l c k Hok Hwv Hf Hc Hlen Hk.
    set (cE := set_attrib (fiddle_step k (attrib c)) c).
    destruct (edit_selected_run g l c cE Hok Hwv Hf Hc)
      as (w & g' & Hrun & Hed); [by destruct c|].
    exists w, g'. split; [|done].
    assert (Hstep :
      (attrib_set l (fiddle_step k) ;; fiddle_update_component) g
      = (w, Done tt g')).
    { rewrite (bind_Done_nil _ _ _ _ _ (attrib_set_run g l c _ Hc)).
      fold cE. unfold fiddle_update_component.
      rewrite bind_gets, fiddle_set_heap, Hf. cbn [expect]. rewrite bind_ret.
      erewrite bind_Done_nil; [exact Hrun|]. apply deref_run.
      rewrite heap_set_heap.
      by rewrite list_lookup_insert_eq by (by eapply lookup_lt_Some). }
    rewrite <- Hstep.
    repeat (apply elem_of_cons in Hk as [->|Hk]);
      [..|by apply elem_of_nil in Hk];
      unfold on_key_fiddle; grab_key; by rewrite bind_gets, Hf.
Qed.


(* ===================================================================== *)
(** ** The velocity plot: cursor commands *)
(* ===================================================================== *)

Definition set_vp_z (v : Q) (g : Gui) : Gui :=
  mkGui (heap g) (all_comp g) (all_items g) (fiddle_component g)
    (current_comp g) (spec_wavelength g) (spec_flux g) (spec_sig g)
    (spec_filename g) (bad_pixels g) (model_flux g) (plot_residuals g)
    (residual_normalization_factor g) (residual_limit g) (residual g)
    (fwhm g) (min_ew g) v.

(** What [on_key] does for the space bar: the redshift of the plot moves
    to the cursor ([psdict] is display only). *)
Definition on_key_space (event : KeyEvent) : M Gui unit :=
  match inaxes_gid event with
  | None => ret tt                     (* AttributeError: return *)
  | Some _ =>
      if Ascii.eqb (key event) " " then
        modify (fun g =>
          set_vp_z (vp_z g + xdata event * (1 + vp_z g) / c_mks)%Q g)
      else ret tt
  end.

(** The attributes of [IGGVelPlotWidget] that the cursor commands keep
    between two key presses, and those of the paging commands. *)
Record VelPlot := mkVelPlot {
  sub_xy : Z * Z;          (* rows and columns of panels *)
  subxy_state : string;    (* 'In' or 'Out' *)
  idx_line : Z;            (* the first line shown *)
  show_line : list nat;    (* llist['show_line'] *)
  flag_add : bool;
  flag_mask : bool;
  sel_wrest : Q;           (* self.wrest *)
  vtmp : Q;
  wtmp : Q;
  avmnx : Q * Q
}.

Definition set_sub_xy (v : Z * Z) (p : VelPlot) : VelPlot :=
  mkVelPlot v (subxy_state p) (idx_line p) (show_line p) (flag_add p)
            (flag_mask p) (sel_wrest p) (vtmp p) (wtmp p) (avmnx p).
Definition set_subxy_state (v : string) (p : VelPlot) : VelPlot :=
  mkVelPlot (sub_xy p) v (idx_line p) (show_line p) (flag_add p)
            (flag_mask p) (sel_wrest p) (vtmp p) (wtmp p) (avmnx p).
Definition set_idx_line (v : Z) (p : VelPlot) : VelPlot :=
  mkVelPlot (sub_xy p) (subxy_state p) v (show_line p) (flag_add p)
            (flag_mask p) (sel_wrest p) (vtmp p) (wtmp p) (avmnx p).
Definition set_flag_add (v : bool) (p : VelPlot) : VelPlot :=
  mkVelPlot (sub_xy p) (subxy_state p) (idx_line p) (show_line p) v
            (flag_mask p) (sel_wrest p) (vtmp p) (wtmp p) (avmnx p).
Definition set_flag_mask (v : bool) (p : VelPlot) : VelPlot :=
  mkVelPlot (sub_xy p) (subxy_state p) (idx_line p) (show_line p) (flag_add p)
            v (sel_wrest p) (vtmp p) (wtmp p) (avmnx p).
Definition set_sel_wrest (v : Q) (p : VelPlot) : VelPlot :=
  mkVelPlot (sub_xy p) (subxy_state p) (idx_line p) (show_line p) (flag_add p)
            (flag_mask p) v (vtmp p) (wtmp p) (avmnx p).
Definition set_vtmp (v : Q) (p : VelPlot) : VelPlot :=
  mkVelPlot (sub_xy p) (subxy_state p) (idx_line p) (show_line p) (flag_add p)
            (flag_mask p) (sel_wrest p) v (wtmp p) (avmnx p).
Definition set_wtmp (v : Q) (p : VelPlot) : VelPlot :=
  mkVelPlot (sub_xy p) (subxy_state p) (idx_line p) (show_line p) (flag_add p)
            (flag_mask p) (sel_wrest p) (vtmp p) v (avmnx p).
Definition set_avmnx (v : Q * Q) (p : VelPlot) : VelPlot :=
  mkVelPlot (sub_xy p) (subxy_state p) (idx_line p) (show_line p) (flag_add p)
            (flag_mask p) (sel_wrest p) (vtmp p) (wtmp p) v.

(** The main window with its velocity plot. *)
Record Session := mkSession { gui : Gui; view : VelPlot }.

(** A command of the main window, run in the session. *)
Definition in_gui {A} (m : M Gui A) : M Session A := fun s =>
  match m (gui s) with
  | (w, Done a g) => (w, Done a (mkSession g (view s)))
  | (w, Raised e g) => (w, Raised e (mkSession g (view s)))
  end.

Definition modify_view (f : VelPlot -> VelPlot) : M Session unit :=
  modify (fun s => mkSession (gui s) (f (view s))).

(** [np.minimum], [np.maximum] on two floats. *)
Definition np_minimum (a b : Q) : Q := if Qle_bool a b then a else b.
Definition np_maximum (a b : Q) : Q := if Qle_bool a b then b else a.

(** [a[idx] = v] for an index array that [np.where] made. *)
Definition np_put_where (idx : list nat) (v : Z) (a : list Z)
  : option (list Z) := np_put (Z.of_nat <$> idx) v a.

(** What [on_key] does for the keys 'x' and 'X': the first press keeps the
    wavelength under the cursor, the second marks (for 'X') or unmarks
    (for 'x') the pixels strictly between the two wavelengths. *)
Definition on_key_mask (event : KeyEvent) : M Session unit :=
  match inaxes_gid event with
  | None => ret tt                     (* AttributeError: return *)
  | Some wrest =>
      let k := key event in
      if negb (Ascii.eqb k "x" || Ascii.eqb k "X") then ret tt
      else
        let* z := gets (fun s => vp_z (gui s)) in
        let wvobs := (wrest * (1 + z))%Q in
        let* fm := gets (fun s => flag_mask (view s)) in
        if negb fm then
          modify_view (set_sel_wrest wrest) ;;
          modify_view (set_wtmp (wvobs * (1 + xdata event / c_mks))%Q) ;;
          modify_view (set_vtmp (xdata event)) ;;
          modify_view (set_flag_mask true)
        else
          let wtmp2 := (wvobs * (1 + xdata event / c_mks))%Q in
          let* wt := gets (fun s => wtmp (view s)) in
          let lo := np_minimum wt wtmp2 in
          let hi := np_maximum wt wtmp2 in
          let* wv := gets (fun s => spec_wavelength (gui s)) in
          let mskp := np_where (fun w => Qltb lo w && Qltb w hi) wv in
          (if Ascii.eqb k "x" then
             in_gui (let* bp := gets bad_pixels in
                     let* bp' := expect IndexError (np_put_where mskp 0 bp) in
                     modify (set_bad_pixels bp'))
           else if Ascii.eqb k "X" then
             in_gui (let* bp := gets bad_pixels in
                     let* bp' := expect IndexError (np_put_where mskp 1 bp) in
                     modify (set_bad_pixels bp'))
           else ret tt) ;;
          modify_view (set_flag_mask false) ;;
          modify_view (set_sel_wrest 0)
  end.

(** *** Marking bad pixels *)

Lemma np_put_where_run idx v a :
  Forall (fun i => i < length a) idx ->
  np_put_where idx v a = Some (foldl (fun acc i => <[i := v]> acc) a idx).
Proof.
  intros Hall. unfold np_put_where, np_put.
  assert (Hm : mapM (np_index (length a)) (Z.of_nat <$> idx) = Some idx).
  { apply mapM_Some. apply Forall2_fmap_l, Forall_Forall2_diag.
    eapply Forall_impl; [exact Hall|]. intros i Hi. cbn in Hi |- *.
    unfold np_index. rewrite decide_True by lia. by rewrite Nat2Z.id. }
  by rewrite Hm.
Qed.

Lemma put_where_zip {A} (p : A -> bool) (v : Z) (ws : list A) :
  forall pre rest,
    length rest = length ws ->
    foldl (fun acc i => <[i := v]> acc) (pre ++ rest)
          (np_where_from p (length pre) ws)
    = pre ++ zip_with (fun w b => if p w then v else b) ws rest.
Proof.
  induction ws as [|w ws IH]; intros pre rest Hlen.
  - by destruct rest.
  - destruct rest as [|b rest]; [done|]. cbn [np_where_from zip_with].
    assert (Hnext : forall y,
      foldl (fun acc i => <[i := v]> acc) (pre ++ y :: rest)
            (np_where_from p (S (length pre)) ws)
      = pre ++ y :: zip_with (fun w b => if p w then v else b) ws rest).
    { intros y. specialize (IH (pre ++ [y]) rest).
      rewrite length_app, Nat.add_1_r, <- !app_assoc in IH.
      apply IH. by injection Hlen. }
    destruct (p w); [|apply Hnext].
    cbn [foldl]. replace (length pre) with (length pre + 0) at 1 by lia.
    rewrite insert_app_r. apply Hnext.
Qed.

(** The test of the two comparisons, whichever cursor position is the
    larger one. *)
Lemma between_spec (W1 W2 w : Q) :
  Qltb (np_minimum W1 W2) w && Qltb w (np_maximum W1 W2) = true <->
  (W1 < w /\ w < W2)%Q \/ (W2 < w /\ w < W1)%Q.
Proof.
  unfold np_minimum, np_maximum. rewrite andb_true_iff, !Qltb_lt.
  destruct (Qle_bool W1 W2) eqn:E.
  - apply Qle_bool_iff in E. split; [by left|]. intros [H|[H1 H2]]; [done|].
    lra.
  - assert (Hlt : (W2 < W1)%Q).
    { apply Qnot_le_lt. intros H. apply Qle_bool_iff in H. congruence. }
    split; [by right|]. intros [[H1 H2]|H]; [lra|done].
Qed.

Lemma in_gui_Done {A} (m : M Gui A) g p w a g' :
  m g = (w, Done a g') ->
  in_gui m (mkSession g p) = (w, Done a (mkSession g' p)).
Proof. unfold in_gui. cbn. by intros ->. Qed.

Lemma in_gui_Raised {A} (m : M Gui A) g p w e g' :
  m g = (w, Raised e g') ->
  in_gui m (mkSession g p) = (w, Raised e (mkSession g' p)).
Proof. unfold in_gui. cbn. by intros ->. Qed.

Lemma on_key_mask_second (g : Gui) (p : VelPlot) (k : ascii) (w x : Q)
      (v : Z) (bad' : list Z) :
  flag_mask p = true ->
  k ∈ ["x"; "X"]%char ->
  v = (if Ascii.eqb k "X" then 1%Z else 0%Z) ->
  np_put_where
    (np_where (fun w0 =>
        Qltb (np_minimum (wtmp p) (w * (1 + vp_z g) * (1 + x / c_mks))) w0
        && Qltb w0 (np_maximum (wtmp p) (w * (1 + vp_z g) * (1 + x / c_mks))))
      (spec_wavelength g)) v (bad_pixels g) = Some bad' ->
  on_key_mask (mkKeyEvent k (Some w) x) (mkSession g p)
  = ([], Done tt (mkSession (set_bad_pixels bad' g)
                            (set_sel_wrest 0 (set_flag_mask false p)))).
Proof.
  intros Hfm Hk Hv Hput.
  repeat (apply elem_of_cons in Hk as [->|Hk]);
    [..|by apply elem_of_nil in Hk];
    vm_compute in Hv; subst v;
    unfold on_key_mask; grab_key; rewrite !bind_gets; cbn [view gui];
    rewrite Hfm; cbn [negb]; rewrite !bind_gets; cbn [view gui];
    (erewrite bind_Done_nil;
       [|apply in_gui_Done; rewrite bind_gets, Hput; cbn [expect];
         rewrite bind_ret; reflexivity]);
    reflexivity.
Qed.

(** Keys 'x' and 'X', two presses.  From a state where no range is
    pending and the bad-pixel array is as long as the spectrum, the two
    presses return; no range is pending afterwards; every pixel whose
    wavelength lies strictly between the two cursor wavelengths, in either
    order, holds 1 if the second key was 'X' and 0 if it was 'x' (the first
    key does not count); every other pixel holds what it held; and nothing
    else of the main window changes. *)
Theorem on_key_mask_marks (s : Session) (k1 k2 : ascii) (w1 w2 x1 x2 : Q) :
  flag_mask (view s) = false ->
  length (bad_pixels (gui s)) = length (spec_wavelength (gui s)) ->
  k1 ∈ ["x"; "X"]%char -> k2 ∈ ["x"; "X"]%char ->
  let W1 := (w1 * (1 + vp_z (gui s)) * (1 + x1 / c_mks))%Q in
  let W2 := (w2 * (1 + vp_z (gui s)) * (1 + x2 / c_mks))%Q in
  let v := if Ascii.eqb k2 "X" then 1%Z else 0%Z in
  exists s',
    (on_key_mask (mkKeyEvent k1 (Some w1) x1) ;;
     on_key_mask (mkKeyEvent k2 (Some w2) x2)) s = ([], Done tt s') /\
    flag_mask (view s') = false /\
    set_bad_pixels (bad_pixels (gui s)) (gui s') = gui s /\
    length (bad_pixels (gui s')) = length (bad_pixels (gui s)) /\
    forall i w b,
      spec_wavelength (gui s) !! i = Some w ->
      bad_pixels (gui s) !! i = Some b ->
      ((W1 < w /\ w < W2)%Q \/ (W2 < w /\ w < W1)%Q ->
       bad_pixels (gui s') !! i = Some v) /\
      (~ ((W1 < w /\ w < W2)%Q \/ (W2 < w /\ w < W1)%Q) ->
       bad_pixels (gui s') !! i = Some b).
Proof.
  intros Hfm Hlen Hk1 Hk2 W1 W2 v.
  destruct s as [g p]. cbn in *.
  set (p1 := set_flag_mask true
               (set_vtmp x1 (set_wtmp W1 (set_sel_wrest w1 p)))).
  assert (H1 : on_key_mask (mkKeyEvent k1 (Some w1) x1) (mkSession g p)
               = ([], Done tt (mkSession g p1))).
  { repeat (apply elem_of_cons in Hk1 as [->|Hk1]);
      [..|by apply elem_of_nil in Hk1];
      unfold on_key_mask; grab_key; rewrite !bind_gets; cbn [view gui];
      by rewrite Hfm. }
  rewrite (bind_Done_nil _ _ _ _ _ H1).
  set (wv := spec_wavelength g).
  set (inr := fun w => Qltb (np_minimum W1 W2) w && Qltb w (np_maximum W1 W2)).
  set (bad' := zip_with (fun w b => if inr w then v else b) wv (bad_pixels g)).
  assert (Hput : np_put_where (np_where inr wv) v (bad_pixels g) = Some bad').
  { rewrite np_put_where_run.
    - f_equal. apply (put_where_zip inr v wv [] (bad_pixels g)). by subst wv.
    - eapply Forall_impl; [apply (np_where_from_lt inr wv 0)|].
      intros j Hj. cbn in Hj. subst wv. lia. }
  exists (mkSession (set_bad_pixels bad' g)
                    (set_sel_wrest 0 (set_flag_mask false p1))).
  split; [|split; [done|split; [by destruct g|split]]].
  - by apply (on_key_mask_second g p1 k2 w2 x2 v bad').
  - subst bad'. cbn. rewrite length_zip_with. subst wv. lia.
  - intros i w b Hw Hb. cbn.
    assert (Hi : bad' !! i = Some (if inr w then v else b)).
    { subst bad'. rewrite lookup_zip_with. fold wv in Hw. by rewrite Hw, Hb. }
    rewrite Hi. split.
    + intros H. apply between_spec in H. unfold inr. by rewrite H.
    + intros H. destruct (inr w) eqn:E; [|done].
      exfalso. apply H. by apply between_spec.
Qed.

(** *** Moving the redshift *)

(** The space bar.  The redshift moves so that [1 + z] is scaled by
    [1 + xdata / c], and nothing else of the main window changes.  A
    component is marked in its panel at the velocity [- dv], with [dv] the
    offset the keys 'S' and 'D' measure by: with the cursor on that mark
    the redshift becomes the redshift of the component, whose offset is
    then 0. *)
Theorem on_key_space_moves (g : Gui) (wrest x : Q) :
  exists g',
    on_key_space (mkKeyEvent " " (Some wrest) x) g = ([], Done tt g') /\
    set_vp_z (vp_z g) g' = g /\
    (1 + vp_z g' == (1 + vp_z g) * (1 + x / c_mks))%Q /\
    forall c, ~ (1 + vp_z g == 0)%Q -> (x == - dvz_of (vp_z g) c)%Q ->
      (vp_z g' == zcomp c)%Q /\ (dvz_of (vp_z g') c == 0)%Q.
Proof.
  eexists. split; [reflexivity|]. split; [by destruct g|].
  cbn [vp_z set_vp_z xdata]. split.
  - unfold c_mks. field.
  - intros c Hz Hx.
    assert (Hz' : (vp_z g + x * (1 + vp_z g) / c_mks == zcomp c)%Q).
    { rewrite Hx. unfold dvz_of, c_mks. field. exact Hz. }
    split; [exact Hz'|]. unfold dvz_of. rewrite Hz'.
    unfold Qdiv. ring.
Qed.

(** *** Bad pixels across a file *)

(** A property of the session that only [spec.bad_pixels] can break. *)
Definition session_frame (P : Gui -> Prop) : Prop :=
  model_frame P /\
  (forall v s, P s -> P (set_all_comp v s)) /\
  (forall v s, P s -> P (set_all_items v s)) /\
  (forall v s, P s -> P (set_fiddle_component v s)) /\
  (forall v s, P s -> P (set_current_comp v s)).

Lemma deref_frame (P : Gui -> Prop) l : triple P (deref l) (fun _ => P) P.
Proof.
  unfold deref. same_bind; [by apply triple_gets|].
  intros h. by apply triple_expect.
Qed.

Lemma fiddle_init_component_frame (P : Gui -> Prop) l :
  session_frame P -> triple P (fiddle_init_component l) (fun _ => P) P.
Proof.
  intros (_ & _ & _ & Hf & _). unfold fiddle_init_component.
  same_bind; [apply deref_frame|]. intros c.
  apply triple_modify. intros s Hs. by apply Hf.
Qed.

Lemma add_component_frame (P : Gui -> Prop) l :
  session_frame P -> triple P (add_component l) (fun _ => P) P.
Proof.
  intros HP. pose proof HP as (_ & Hc & Hi & Hf & Hcur).
  unfold add_component, comps_add_component.
  same_bind.
  { same_bind; [apply triple_modify; intros s Hs; by apply Hc|]. intros u.
    same_bind; [apply deref_frame|]. intros c.
    apply triple_modify. intros s Hs. by apply Hi. }
  intros u. same_bind; [by apply fiddle_init_component_frame|]. intros u'.
  apply triple_modify. intros s Hs. by apply Hcur.
Qed.

Lemma alloc_frame (P : Gui -> Prop) c :
  session_frame P -> triple P (alloc c) (fun _ => P) P.
Proof. intros ((Hh & _) & _) s Hs. cbn. by apply Hh. Qed.

Lemma lift_result_frame {A} (P : Gui -> Prop) (r : result A) :
  triple P (lift_result r) (fun _ => P) P.
Proof. destruct r; [by apply triple_ret|by apply triple_raise]. Qed.

Lemma get_current_comp_frame (P : Gui -> Prop) :
  triple P get_current_comp (fun _ => P) P.
Proof.
  unfold get_current_comp. same_bind; [by apply triple_gets|].
  intros c. by apply triple_expect.
Qed.

Lemma load_component_frame (P : Gui -> Prop) key r :
  session_frame P -> triple P (load_component key r) (fun _ => P) P.
Proof.
  intros HP. pose proof HP as ((Hh & _) & _).
  assert (Hat : forall A l (m : M AbsComponent A),
            triple P (at_comp l m) (fun _ => P) P)
    by (intros; by apply at_comp_frame).
  unfold load_component. same_bind.
  - unfold load_build. destruct (r_lines r) as [ls|].
    + same_bind.
      { destruct (r_mask_abslines r); [by apply triple_ret|].
        same_bind; [by apply triple_tell|]. intros u. by apply triple_ret. }
      intros comp. same_bind; [by apply alloc_frame|]. intros l.
      by apply add_component_frame.
    + same_bind; [apply lift_result_frame|]. intros comp.
      same_bind; [by apply alloc_frame|]. intros l.
      by apply add_component_frame.
  - intros u. unfold load_fill.
    repeat (same_bind; [apply get_current_comp_frame|]; intros ?;
            same_bind; [apply Hat|]; intros ?).
    same_bind.
    { destruct (r_Reliability r); [by apply triple_ret|by apply triple_expect]. }
    intros rel.
    repeat (same_bind; [apply get_current_comp_frame|]; intros ?;
            same_bind; [apply Hat|]; intros ?).
    same_bind; [by apply triple_gets|]. intros mew.
    same_bind; [apply get_current_comp_frame|]. intros cur. apply Hat.
Qed.

Lemma for_each_frame {A} (P : Gui -> Prop) (xs : list A) body :
  (forall x, triple P (body x) (fun _ => P) P) ->
  triple P (for_each xs body) (fun _ => P) P.
Proof.
  intros Hb. induction xs as [|x r IH]; cbn [for_each].
  - by apply triple_ret.
  - same_bind; [apply Hb|]. intros u. apply IH.
Qed.

(** The marks [write_out] stores are the pixels that hold 1. *)
Lemma load_written_bad_pixels (bad : list Z) (g0 : Gui) (d : IgmgDict) :
  d_bad_pixels d = Some (Z.of_nat <$> np_where (Z.eqb 1) bad) ->
  Forall (fun b => b = 0%Z \/ b = 1%Z) bad ->
  bad_pixels g0 = replicate (length bad) 0%Z ->
  load_bad_pixels d g0 = ([], Done tt (set_bad_pixels bad g0)).
Proof.
  intros Hd Hbad Hg0.
  assert (Hzip : zip_with (fun w b => if (1 =? w)%Z then 1%Z else b) bad
                          (replicate (length bad) 0%Z) = bad).
  { clear Hd Hg0. induction Hbad as [|b r [-> | ->] Hr IH]; [done|..];
      cbn [length replicate zip_with]; by rewrite IH. }
  assert (Hfold : foldl (fun acc i => <[i := 1%Z]> acc)
                        (replicate (length bad) 0%Z) (np_where (Z.eqb 1) bad)
                  = bad).
  { exact (eq_trans
             (put_where_zip (Z.eqb 1) 1 bad [] (replicate (length bad) 0%Z)
                            (length_replicate _ _)) Hzip). }
  unfold load_bad_pixels. rewrite Hd. case_decide as Hpos.
  - rewrite bind_gets. fold (np_put_where (np_where (Z.eqb 1) bad) 1
                                          (bad_pixels g0)).
    rewrite np_put_where_run.
    + cbn [expect]. rewrite bind_ret. unfold modify. do 3 f_equal.
      by rewrite Hg0.
    + rewrite Hg0, length_replicate.
      eapply Forall_impl; [apply (np_where_from_lt _ bad 0)|].
      intros j Hj. cbn in Hj. lia.
  - unfold ret. do 2 f_equal.
    assert (Hnil : np_where (Z.eqb 1) bad = []).
    { rewrite length_fmap in Hpos. destruct (np_where _ bad); [done|].
      cbn in Hpos. lia. }
    rewrite Hnil in Hfold. cbn in Hfold.
    rewrite <- Hfold at 1. rewrite <- Hg0. by destruct g0.
Qed.

(** The marks of bad pixels survive the file: written by [write_out] and
    read by [read_previous] into the new session of the same spectrum
    (same FWHM, no pixel marked yet), the array of bad pixels is the one
    that was written, whether the rest of [read_previous] returns or
    raises, provided the array holds nothing but 0 and 1, as the commands
    'x' and 'X' leave it. *)
Theorem bad_pixels_round_trip (g g0 : Gui) (cs : list AbsComponent) :
  Forall2 (fun l c => heap g !! l = Some c) (all_comp g) cs ->
  Forall fits_mask cs ->
  (fwhm g0 == fwhm g)%Q ->
  Forall (fun b => b = 0%Z \/ b = 1%Z) (bad_pixels g) ->
  bad_pixels g0 = replicate (length (bad_pixels g)) 0%Z ->
  exists out g',
    write_out g = ([], Done out g') /\
    bad_pixels (final_state (read_previous out g0)) = bad_pixels g.
Proof.
  intros Hall Hfit Hfw Hbad Hg0.
  eexists _, _. split; [by apply write_out_run|].
  set (out := {| d_cmps := records_of cs ∅ |}).
  pose proof (load_written_bad_pixels (bad_pixels g) g0 out eq_refl Hbad Hg0)
    as Hload.
  assert (Heq : Qeq_bool (d_fwhm out) (fwhm g0) = true)
    by (apply Qeq_bool_iff; cbn; by symmetry).
  unfold read_previous. rewrite bind_gets, Heq. cbn [negb].
  rewrite (bind_Done_nil _ _ _ _ _ Hload).
  apply (triple_final (fun s => bad_pixels s = bad_pixels g)); [|by destruct g0].
  assert (HP : session_frame (fun s => bad_pixels s = bad_pixels g))
    by (repeat split; intros ? s Hs; by destruct s).
  same_bind; [by apply triple_gets|]. intros fn.
  same_bind; [case_decide; [by apply triple_ret|by apply triple_tell]|].
  intros u. same_bind.
  { apply for_each_frame. intros kr. by apply load_component_frame. }
  intros u'. same_bind; [apply update_model_frame, HP|]. intros u''.
  same_bind; [apply get_current_comp_frame|]. intros cur.
  by apply fiddle_init_component_frame.
Qed.

(** *** Refitting and adding a component *)

(** The attributes [fit_component] stores for the fitted [(logN, z, b)]. *)
Definition fitted (p : Q * Q * Q) (a : Attrib) : Attrib :=
  set_a_b p.2 (set_a_z p.1.2 (set_a_N (pow10 p.1.1) (set_a_logN p.1.1 a))).

Lemma fit_component_run g l c p :
  heap g !! l = Some c ->
  length (mask_abslines c) = length (_abslines c) ->
  exists w,
    fit_component (Ok p) l g
    = (w, Done tt
            (set_heap (<[l := resynced (min_ew g)
                                (set_attrib (fitted p (attrib c)) c)]> (heap g))
                      g)).
Proof.
  intros Hc Hlen.
  assert (Hlt : l < length (heap g)) by (by eapply lookup_lt_Some).
  unfold fit_component.
  rewrite (bind_Done_nil _ _ _ _ _ (deref_run l g c Hc)).
  cbn [lift_result]. rewrite bind_ret.
  rewrite (bind_Done_nil _ _ _ _ _ (attrib_set_run g l c _ Hc)).
  erewrite bind_Done_nil;
    [|apply attrib_set_run; rewrite heap_set_heap;
      by apply list_lookup_insert_eq].
  erewrite bind_Done_nil;
    [|apply attrib_set_run; rewrite !heap_set_heap;
      apply list_lookup_insert_eq; by rewrite !length_insert].
  erewrite bind_Done_nil;
    [|apply attrib_set_run; rewrite !heap_set_heap;
      apply list_lookup_insert_eq; by rewrite !length_insert].
  rewrite !heap_set_heap, !set_heap_set_heap, !list_insert_insert_eq.
  set (cA := set_attrib _ _).
  assert (HcA : cA = set_attrib (fitted p (attrib c)) c) by (by destruct c).
  rewrite HcA. clear cA HcA. set (cA := set_attrib (fitted p (attrib c)) c).
  set (g1 := set_heap (<[l := cA]> (heap g)) g).
  assert (H1 : heap g1 !! l = Some cA)
    by (unfold g1; rewrite heap_set_heap; by apply list_lookup_insert_eq).
  assert (Hsync : sync_comp_lines cA
            = ([], Done tt (set_abslines (sync_line (attrib cA) <$> _abslines cA)
                                         cA))) by done.
  rewrite (bind_Done_nil _ _ _ _ _ (at_comp_run l _ g1 cA [] _ _ H1 Hsync)).
  rewrite bind_gets.
  set (c1 := set_abslines _ cA). set (g2 := set_heap _ g1).
  assert (H2 : heap g2 !! l = Some c1).
  { unfold g2, g1. rewrite !heap_set_heap. apply list_lookup_insert_eq.
    by rewrite length_insert. }
  assert (Hfit1 : fits_mask c1).
  { unfold fits_mask, c1, cA. destruct c; cbn in *. rewrite length_fmap. lia. }
  rewrite (at_comp_run l _ g2 c1 _ _ _ H2
             (mask_comp_lines_Done (min_ew g2) c1 Hfit1)).
  eexists. f_equal. f_equal. unfold g2, g1.
  rewrite !heap_set_heap, !set_heap_set_heap, !list_insert_insert_eq.
  by destruct g.
Qed.

Lemma edited_resynced g l thr cE g' :
  edited g l (resynced thr cE) g' -> edited g l cE g'.
Proof.
  intros (Hs & (c' & Hc' & Ha & Hn & Hcm & Hlen & Hrest) & Ho).
  split; [done|]. split; [|done]. exists c'. split; [done|].
  destruct cE; cbn in *. rewrite length_fmap in Hlen. done.
Qed.

(** Key 'R'.  [fit] is the outcome of the external fit for the selected
    component.  When the fit gives [(logN, z, b)], the command returns and
    leaves the session edited at the selected component, which has the
    fitted values (and [N = 10 ** logN]); when the fit ends in an
    exception, the command raises it and the session is as it was. *)
Theorem on_key_refit (g : Gui) (l : loc) (c : AbsComponent) (wrest x : Q) :
  registry_ok g -> spec_wavelength g <> [] ->
  fiddle_component g = Some l -> heap g !! l = Some c ->
  length (mask_abslines c) = length (_abslines c) ->
  (forall p, exists w g',
     on_key_fiddle (Ok p) (mkKeyEvent "R" (Some wrest) x) g = (w, Done tt g') /\
     edited g l (set_attrib (fitted p (attrib c)) c) g') /\
  (forall e,
     on_key_fiddle (Err e) (mkKeyEvent "R" (Some wrest) x) g
     = ([], Raised e g)).
Proof.
  intros Hok Hwv Hf Hc Hlen. split.
  - intros p.
    set (cA := set_attrib (fitted p (attrib c)) c).
    destruct (fit_component_run g l c p Hc Hlen) as [w1 Hfit].
    fold cA in Hfit.
    destruct (edit_selected_run g l c (resynced (min_ew g) cA) Hok Hwv Hf Hc)
      as (w2 & g' & Hrun & Hed).
    { destruct c; cbn in *. by rewrite length_mask_apply, length_fmap. }
    exists (w1 ++ w2), g'. split; [|by eapply edited_resynced].
    unfold on_key_fiddle. grab_key. rewrite bind_gets, Hf.
    rewrite (bind_Done _ _ _ _ _ _ Hfit).
    unfold fiddle_update_component.
    rewrite bind_gets, fiddle_set_heap, Hf. cbn [expect]. rewrite bind_ret.
    erewrite bind_Done_nil; [by rewrite Hrun|]. apply deref_run.
    rewrite heap_set_heap.
    by rewrite list_lookup_insert_eq by (by eapply lookup_lt_Some).
  - intros e. unfold on_key_fiddle. grab_key. rewrite bind_gets, Hf.
    unfold fit_component.
    rewrite bind_assoc, (bind_Done_nil _ _ _ _ _ (deref_run l g c Hc)).
    done.
Qed.

(** [IGGVelPlotWidget.out_of_bounds]; [np.max] is not evaluated when the
    first test holds. *)
Definition out_of_bounds (coord : Q) : M Gui bool :=
  let* wv := gets spec_wavelength in
  let* lo := expect ValueError (np_min wv) in
  if Qltb coord lo then ret true
  else
    let* hi := expect ValueError (np_max wv) in
    ret (Qltb hi coord).

(** [IGGVelPlotWidget.add_component(wrest)] with the default arguments:
    redshift and velocity limits come from the two cursor positions kept
    in [avmnx]; the component is made from the ISM catalogue, fitted,
    registered and selected, and the model is recomputed. *)
Definition add_component_at (fit : result (Q * Q * Q)) (wrest : Q)
  : M Session unit :=
  let* z := gets (fun s => vp_z (gui s)) in
  let* av := gets (fun s => avmnx (view s)) in
  let zmin := (z + (1 + z) * (av.1 / c_mks))%Q in
  let zmax := (z + (1 + z) * (av.2 / c_mks))%Q in
  let zc := ((1 # 2) * (zmin + zmax))%Q in
  let vl := ((av.1 - (1 # 2) * (av.2 + av.1))%Q,
             (av.2 - (1 # 2) * (av.2 + av.1))%Q) in
  in_gui (let* comp := lift_result (create_component zc wrest vl) in
          let* l := alloc comp in
          fit_component fit l ;;
          add_component l ;;
          update_model).

(** What [on_key] does for the key 'A': a first press inside the spectrum
    keeps the cursor velocity, a second one makes the component between
    the two velocities, in the panel of the second press. *)
Definition on_key_add (fit : result (Q * Q * Q)) (event : KeyEvent)
  : M Session unit :=
  match inaxes_gid event with
  | None => ret tt                     (* AttributeError: return *)
  | Some wrest =>
      if negb (Ascii.eqb (key event) "A") then ret tt
      else
        let* z := gets (fun s => vp_z (gui s)) in
        let wvobs := (wrest * (1 + z))%Q in
        let* oob := in_gui (out_of_bounds
                              (wvobs * (1 + xdata event / c_mks))%Q) in
        if (oob : bool) then ret tt
        else
          let* fa := gets (fun s => flag_add (view s)) in
          if negb fa then
            modify_view (set_vtmp (xdata event)) ;;
            modify_view (set_flag_add true) ;;
            modify_view (set_sel_wrest wrest)
          else
            let* vt := gets (fun s => vtmp (view s)) in
            modify_view (set_avmnx (np_minimum vt (xdata event),
                                    np_maximum vt (xdata event))) ;;
            add_component_at fit wrest ;;
            modify_view (set_flag_add false) ;;
            modify_view (set_sel_wrest 0)
  end.

Lemma create_component_made z wrest vl t ts :
  all_transitions wrest = t :: ts ->
  exists c,
    create_component z wrest vl = Ok c /\
    zcomp c = z /\ vlim c = vl /\ init_wrest c = wrest /\
    attrib c = comp_init_attrib c /\
    name c = "z" +:+ fmt_z5 z +:+ "_"
             +:+ first_word (t_name (atomic_data (t_wrest t))) /\
    length (_abslines c) = length (t :: ts) /\
    length (mask_abslines c) = length (_abslines c).
Proof.
  intros E. unfold create_component. rewrite E. cbn.
  eexists. split; [reflexivity|]. cbn.
  by rewrite length_replicate, !length_fmap.
Qed.

Lemma out_of_bounds_inside g lo hi W :
  np_min (spec_wavelength g) = Some lo ->
  np_max (spec_wavelength g) = Some hi ->
  (lo <= W)%Q -> (W <= hi)%Q ->
  out_of_bounds W g = ([], Done false g).
Proof.
  intros Hlo Hhi H1 H2. unfold out_of_bounds.
  rewrite bind_gets, Hlo. cbn [expect]. rewrite bind_ret.
  rewrite (proj2 (Qltb_ge W lo) H1).
  rewrite Hhi. cbn [expect]. rewrite bind_ret.
  by rewrite (proj2 (Qltb_ge hi W) H2).
Qed.

Lemma add_component_run g l c :
  heap g !! l = Some c ->
  add_component l g
  = ([], Done tt
       (set_current_comp (Some l)
          (set_fiddle_component (Some l)
             (set_all_items (all_items g ++ [name c])
                (set_all_comp (all_comp g ++ [l]) g))))).
Proof.
  intros Hc. unfold add_component, comps_add_component, fiddle_init_component.
  mnorm. erewrite bind_Done_nil; [|by apply deref_run].
  mnorm. erewrite bind_Done_nil; [|by apply deref_run].
  by mnorm.
Qed.

(** A new component, fitted, registered and selected. *)
Lemma new_component_run g c0 p :
  registry_ok g -> spec_wavelength g <> [] ->
  length (mask_abslines c0) = length (_abslines c0) ->
  exists w g' c',
    (let* l := alloc c0 in
     fit_component (Ok p) l ;; add_component l ;; update_model) g
    = (w, Done tt g') /\
    all_comp g' = all_comp g ++ [length (heap g)] /\
    all_items g' = all_items g ++ [name c0] /\
    fiddle_component g' = Some (length (heap g)) /\
    current_comp g' = Some (length (heap g)) /\
    vp_z g' = vp_z g /\
    heap g' !! length (heap g) = Some c' /\
    up_to_N (resynced (min_ew g) (set_attrib (fitted p (attrib c0)) c0)) c' /\
    (forall l c, heap g !! l = Some c ->
       exists c1, heap g' !! l = Some c1 /\ up_to_N c c1).
Proof.
  intros Hok Hwv Hlen.
  rewrite (bind_Done_nil _ _ _ _ _ (alloc_run c0 g)).
  set (l := length (heap g)). set (g1 := set_heap (heap g ++ [c0]) g).
  assert (H1 : heap g1 !! l = Some c0)
    by (unfold g1; rewrite heap_set_heap; by apply list_lookup_middle).
  destruct (fit_component_run g1 l c0 p H1 Hlen) as [w1 Hfit].
  set (cF := resynced (min_ew g1) (set_attrib (fitted p (attrib c0)) c0))
    in Hfit.
  set (g2 := set_heap _ g1) in Hfit.
  assert (Hh2 : heap g2 = heap g ++ [cF]).
  { unfold g2, g1. rewrite !heap_set_heap.
    replace l with (length (heap g) + 0) by (unfold l; lia).
    by rewrite insert_app_r. }
  assert (H2 : heap g2 !! l = Some cF)
    by (rewrite Hh2; by apply list_lookup_middle).
  pose proof (add_component_run g2 l cF H2) as Hadd.
  set (g3 := set_current_comp _ _) in Hadd.
  assert (HcF : fits_mask cF).
  { unfold fits_mask, cF. destruct c0; cbn in *.
    rewrite length_mask_apply, length_fmap. lia. }
  assert (Hok3 : registry_ok g3).
  { unfold registry_ok.
    replace (all_comp g3) with (all_comp g ++ [l]) by (by destruct g).
    replace (heap g3) with (heap g ++ [cF])
      by (rewrite <- Hh2; by destruct g).
    apply Forall_app. split.
    - eapply Forall_impl; [exact Hok|]. intros j (c & Hc & Hfit0).
      exists c. split; [|done].
      by rewrite lookup_app_l by (by eapply lookup_lt_Some).
    - constructor; [|constructor]. exists cF.
      split; [by apply list_lookup_middle|done]. }
  destruct (update_model_returns g3 Hok3 ltac:(by destruct g))
    as (g' & Hrun & Hsame & Hheap).
  assert (Hh3 : heap g3 = heap g ++ [cF]) by (rewrite <- Hh2; by destruct g).
  rewrite Hh3 in Hheap.
  assert (Hl : (heap g ++ [cF]) !! l = Some cF) by (by apply list_lookup_middle).
  destruct (Forall2_lookup_l _ _ _ _ _ Hheap Hl) as (c' & Hc' & Hup).
  exists (w1 ++ []), g', c'. split.
  { rewrite (bind_Done _ _ _ _ _ _ Hfit).
    rewrite (bind_Done_nil _ _ _ _ _ Hadd). by rewrite Hrun. }
  destruct Hsame as (Hs1 & Hs2 & Hs3 & Hs4 & _ & _ & _ & Hs8).
  split; [rewrite Hs1; by destruct g|].
  split; [rewrite Hs2; unfold cF; by destruct g, c0|].
  split; [rewrite Hs3; by destruct g|].
  split; [rewrite Hs4; by destruct g|].
  split; [rewrite Hs8; by destruct g|].
  split; [done|]. split; [by destruct g|].
  intros j c Hc.
  assert (Hj : (heap g ++ [cF]) !! j = Some c)
    by (by rewrite lookup_app_l by (by eapply lookup_lt_Some)).
  destruct (Forall2_lookup_l _ _ _ _ _ Hheap Hj) as (c1 & Hc1 & Hup1).
  by exists c1.
Qed.

Lemma cursor_limits (x1 x2 z : Q) :
  let av := (np_minimum x1 x2, np_maximum x1 x2) in
  ((1 # 2) * ((z + (1 + z) * (av.1 / c_mks)) + (z + (1 + z) * (av.2 / c_mks)))
   == z + (1 + z) * ((x1 + x2) / 2) / c_mks)%Q /\
  (av.1 - (1 # 2) * (av.2 + av.1) == - (av.2 - (1 # 2) * (av.2 + av.1)))%Q /\
  (av.2 - (1 # 2) * (av.2 + av.1) == Qabs (x2 - x1) / 2)%Q.
Proof.
  unfold np_minimum, np_maximum. destruct (Qle_bool x1 x2) eqn:E; cbn [fst snd].
  - apply Qle_bool_iff in E.
    rewrite (Qabs_pos (x2 - x1)) by lra.
    repeat split; unfold c_mks; field.
  - assert (Hlt : (x2 < x1)%Q).
    { apply Qnot_le_lt. intros H. apply Qle_bool_iff in H. congruence. }
    rewrite (Qabs_neg (x2 - x1)) by lra.
    repeat split; unfold c_mks; field.
Qed.

(** Key 'A', two presses.  From a state where no limit is pending, with
    both cursor wavelengths inside the spectrum, a catalogue that knows the
    transition of the second panel, and a fit that gives [(logN, z, b)],
    the two presses return and no limit is pending afterwards.  The
    registry, the list of names, the fiddle widget and [current_comp] gain
    one new component: anchored on the transition of the second panel, at
    the redshift of the middle of the two cursor velocities, with velocity
    limits symmetric about 0 and half their distance wide on each side,
    named after its redshift and species, with one line per transition of
    the catalogue, the fitted attributes, lines that carry them and a
    settled mask.  Every older component is what it was, up to the [N] of
    its lines. *)
Theorem on_key_add_component (s : Session) (w1 w2 x1 x2 lo hi : Q)
        (fit1 : result (Q * Q * Q)) (p : Q * Q * Q)
        (t : Transition) (ts : list Transition) :
  flag_add (view s) = false ->
  registry_ok (gui s) ->
  np_min (spec_wavelength (gui s)) = Some lo ->
  np_max (spec_wavelength (gui s)) = Some hi ->
  (lo <= w1 * (1 + vp_z (gui s)) * (1 + x1 / c_mks))%Q ->
  (w1 * (1 + vp_z (gui s)) * (1 + x1 / c_mks) <= hi)%Q ->
  (lo <= w2 * (1 + vp_z (gui s)) * (1 + x2 / c_mks))%Q ->
  (w2 * (1 + vp_z (gui s)) * (1 + x2 / c_mks) <= hi)%Q ->
  all_transitions w2 = t :: ts ->
  let l := length (heap (gui s)) in
  exists w s' c',
    (on_key_add fit1 (mkKeyEvent "A" (Some w1) x1) ;;
     on_key_add (Ok p) (mkKeyEvent "A" (Some w2) x2)) s = (w, Done tt s') /\
    flag_add (view s') = false /\
    all_comp (gui s') = all_comp (gui s) ++ [l] /\
    all_items (gui s') = all_items (gui s) ++ [name c'] /\
    fiddle_component (gui s') = Some l /\
    current_comp (gui s') = Some l /\
    heap (gui s') !! l = Some c' /\
    name c' = "z" +:+ fmt_z5 (zcomp c') +:+ "_"
              +:+ first_word (t_name (atomic_data (t_wrest t))) /\
    (zcomp c' == vp_z (gui s)
                 + (1 + vp_z (gui s)) * ((x1 + x2) / 2) / c_mks)%Q /\
    ((vlim c').1 == - (vlim c').2)%Q /\
    ((vlim c').2 == Qabs (x2 - x1) / 2)%Q /\
    init_wrest c' = w2 /\
    attrib c' = fitted p (comp_init_attrib c') /\
    length (_abslines c') = length (t :: ts) /\
    lines_synced c' /\ settled (min_ew (gui s)) c' /\
    forall j c, heap (gui s) !! j = Some c ->
      exists c1, heap (gui s') !! j = Some c1 /\ up_to_N c c1.
Proof.
  destruct s as [g pv]. cbn [gui view].
  intros Hfa Hok Hlo Hhi Hl1 Hh1 Hl2 Hh2 Ecat.
  assert (Hwv : spec_wavelength g <> [])
    by (intros E; by rewrite E in Hlo).
  set (p1 := set_sel_wrest w1 (set_flag_add true (set_vtmp x1 pv))).
  assert (H1 : on_key_add fit1 (mkKeyEvent "A" (Some w1) x1) (mkSession g pv)
               = ([], Done tt (mkSession g p1))).
  { unfold on_key_add. grab_key. rewrite bind_gets. cbn [gui view].
    erewrite bind_Done_nil;
      [|apply in_gui_Done; by apply (out_of_bounds_inside g lo hi)].
    cbv beta iota. rewrite bind_gets. cbn [gui view]. by rewrite Hfa. }
  rewrite (bind_Done_nil _ _ _ _ _ H1).
  set (av := (np_minimum x1 x2, np_maximum x1 x2)).
  set (z := vp_z g).
  set (zc := ((1 # 2) * ((z + (1 + z) * (av.1 / c_mks))
                         + (z + (1 + z) * (av.2 / c_mks))))%Q).
  set (vl := ((av.1 - (1 # 2) * (av.2 + av.1))%Q,
              (av.2 - (1 # 2) * (av.2 + av.1))%Q)).
  destruct (create_component_made zc w2 vl t ts Ecat)
    as (c0 & Hmk & Hzc & Hvl & Hiw & Hatt & Hnm & Hnl & Hlen).
  destruct (new_component_run g c0 p Hok Hwv Hlen)
    as (w & g' & c' & Hrun & Hcomp & Hitems & Hfid & Hcur & Hz & Hc' & Hup & Hold).
  set (cA := set_attrib (fitted p (attrib c0)) c0) in Hup.
  assert (Hset : set_abslines (_abslines (resynced (min_ew g) cA)) c'
                 = resynced (min_ew g) cA) by apply Hup.
  assert (Hfields : name c' = name c0 /\ zcomp c' = zcomp c0 /\
                    vlim c' = vlim c0 /\ init_wrest c' = init_wrest c0 /\
                    attrib c' = fitted p (attrib c0)).
  { assert (E : forall {A} (f : AbsComponent -> A),
              (forall ls c, f (set_abslines ls c) = f c) ->
              f c' = f (resynced (min_ew g) cA))
      by (intros A f Hf; by rewrite <- Hset, Hf).
    repeat split; (rewrite E; [by destruct c0|by intros ? []]). }
  destruct Hfields as (Fn & Fz & Fv & Fw & Fa).
  set (p2 := set_avmnx av p1).
  exists w, (mkSession g' (set_sel_wrest 0 (set_flag_add false p2))), c'.
  split.
  { unfold on_key_add. grab_key. rewrite bind_gets. cbn [gui view].
    erewrite bind_Done_nil;
      [|apply in_gui_Done; by apply (out_of_bounds_inside g lo hi)].
    cbv beta iota. rewrite bind_gets. cbn [gui view].
    change (flag_add p1) with true. cbn [negb].
    rewrite bind_gets. cbn [gui view]. change (vtmp p1) with x1. fold av.
    unfold modify_view at 1. rewrite bind_modify. cbn [gui view].
    unfold add_component_at. mnorm.
    cbn [gui view avmnx set_avmnx]. fold z zc vl.
    erewrite bind_Done;
      [|apply in_gui_Done; rewrite Hmk; cbn [lift_result];
        rewrite bind_ret; exact Hrun].
    cbn. by rewrite app_nil_r. }
  cbn [gui view]. split; [done|]. split; [done|].
  split; [by rewrite Hitems, Fn|]. split; [done|]. split; [done|].
  split; [done|].
  destruct (cursor_limits x1 x2 z) as (Qz & Qv1 & Qv2). fold av in Qz, Qv1, Qv2.
  split; [by rewrite Fn, Fz, Hzc|].
  split; [rewrite Fz, Hzc; exact Qz|].
  split; [rewrite Fv, Hvl; exact Qv1|].
  split; [rewrite Fv, Hvl; exact Qv2|].
  split; [by rewrite Fw|].
  split.
  { rewrite Fa, Hatt. unfold comp_init_attrib. by rewrite Fz. }
  split.
  { destruct Hup as [_ Hlines]. apply Forall2_length in Hlines.
    rewrite <- Hlines, <- Hnl. unfold cA. destruct c0; cbn.
    by rewrite length_fmap. }
  split; [by apply (lines_synced_up_to_N _ _ Hup (resynced_synced _ _))|].
  split; [|done].
  apply (settled_up_to_N _ _ _ Hup). apply resynced_settled.
  unfold cA. by destruct c0.
Qed.

(* ===================================================================== *)
(** ** Pages of panels *)
(* ===================================================================== *)

(** The paging part of [on_key]: rows and columns of panels ('k', 'K',
    'c', 'C'), few or many panels ('('), previous, next and first page
    ('-', '=', 'f').  A key is one character, so at most one of the tests
    of the source holds. *)
Definition page_step (k : ascii) (p : VelPlot) : VelPlot :=
  let rows := (sub_xy p).1 in
  let cols := (sub_xy p).2 in
  if Ascii.eqb k "k" then set_sub_xy (Z.max 0 (rows - 1), cols) p
  else if Ascii.eqb k "K" then set_sub_xy (rows + 1, cols)%Z p
  else if Ascii.eqb k "c" then set_sub_xy (rows, Z.max 1 (cols - 1)) p
  else if Ascii.eqb k "C" then set_sub_xy (rows, Z.max 1 (cols + 1)) p
  else if Ascii.eqb k "(" then
    if String.eqb (subxy_state p) "Out"
    then set_subxy_state "In" (set_sub_xy (3, 2)%Z p)
    else set_subxy_state "Out" (set_sub_xy (5, 3)%Z p)
  else if Ascii.eqb k "-" then
    set_idx_line (Z.max 0 (idx_line p - rows * cols)) p
  else if Ascii.eqb k "=" then
    set_idx_line (Z.min (Z.of_nat (length (show_line p)) - rows * cols)
                        (idx_line p + rows * cols)) p
  else if Ascii.eqb k "f" then set_idx_line 0 p
  else p.

(** What [on_draw] with [replot=True] does to the state: when all shown
    lines fit on one page, the first page is the page. *)
Definition on_draw_page (p : VelPlot) : VelPlot :=
  if decide (Z.of_nat (length (show_line p)) <= (sub_xy p).1 * (sub_xy p).2)%Z
  then set_idx_line 0 p else p.

(** The keys after which [on_key] redraws whatever came before. *)
Definition redraw_keys : list ascii :=
  ["c"; "C"; "k"; "K"; "W"; "!"; "@"; "="; "-"; "X"; " "; "R"]%char.

(** [on_key] for a paging key: the step, then, with the cursor in a panel,
    the redraw.  [nav_flg] is what linetools' [navigate] returned if the
    key is one of its keys; [flg] is 1 otherwise, and for the keys of
    [redraw_keys] in any case; the redraw replots for 1 and 3. *)
Definition on_key_page (nav_flg : option Z) (event : KeyEvent)
  : M VelPlot unit :=
  modify (page_step (key event)) ;;
  match inaxes_gid event with
  | None => ret tt                     (* AttributeError: return *)
  | Some _ =>
      let flg := if bool_decide (key event ∈ redraw_keys) then 1%Z
                 else default 1%Z nav_flg in
      if (flg =? 1)%Z || (flg =? 3)%Z then modify on_draw_page
      else ret tt
  end.

(** Rows never drop below 0, columns never below 1, and the first line
    shown is never negative. *)
Definition page_ok (p : VelPlot) : Prop :=
  (0 <= (sub_xy p).1)%Z /\ (1 <= (sub_xy p).2)%Z /\ (0 <= idx_line p)%Z.

Lemma on_key_page_run nav_flg k wrest x p :
  on_key_page nav_flg (mkKeyEvent k (Some wrest) x) p
  = ([], Done tt
       (let flg := if bool_decide (k ∈ redraw_keys) then 1%Z
                   else default 1%Z nav_flg in
        if (flg =? 1)%Z || (flg =? 3)%Z then on_draw_page (page_step k p)
        else page_step k p)).
Proof.
  unfold on_key_page. cbn [key inaxes_gid]. rewrite bind_modify. cbv zeta.
  by destruct (_ || _).
Qed.

(** The paging keys, pressed with the cursor in a panel, keep [page_ok]
    and the list of shown lines; only '=' can make the index negative, and
    the redraw that follows it puts the index back to 0 then.  When
    another full page follows the next one, '=' moves one page on and '-'
    after it moves back to where the index was. *)
Theorem on_key_page_keeps_bounds (nav_flg nav_flg' : option Z)
        (k : ascii) (wrest x : Q) (p : VelPlot) :
  k ∈ ["k"; "K"; "c"; "C"; "("; "-"; "="; "f"]%char ->
  page_ok p ->
  let n := ((sub_xy p).1 * (sub_xy p).2)%Z in
  let len := Z.of_nat (length (show_line p)) in
  (exists p',
     on_key_page nav_flg (mkKeyEvent k (Some wrest) x) p = ([], Done tt p') /\
     page_ok p' /\ show_line p' = show_line p) /\
  ((0 < n)%Z -> (idx_line p + 2 * n <= len)%Z ->
   exists p1 p2,
     on_key_page nav_flg (mkKeyEvent "=" (Some wrest) x) p
     = ([], Done tt p1) /\
     idx_line p1 = (idx_line p + n)%Z /\
     on_key_page nav_flg' (mkKeyEvent "-" (Some wrest) x) p1
     = ([], Done tt p2) /\
     p2 = p).
Proof.
  intros Hk (Hr & Hc & Hi) n len. split.
  - eexists. split; [apply on_key_page_run|].
    destruct p as [[rows cols] st idx sl fa fm sw vt wt av]. cbn in *.
    repeat (apply elem_of_cons in Hk as [->|Hk]);
      [..|by apply elem_of_nil in Hk]; cbv zeta;
      repeat case_bool_decide; cbn -[Z.mul Z.of_nat Z.max Z.min Z.sub Z.add];
      unfold on_draw_page, page_ok;
      cbn -[Z.mul Z.of_nat Z.max Z.min Z.sub Z.add];
      repeat case_match; repeat case_decide;
      cbn -[Z.mul Z.of_nat Z.max Z.min Z.sub Z.add] in *;
      try (exfalso;
           match goal with
           | H : _ ∉ redraw_keys |- _ =>
               apply H; unfold redraw_keys; by repeat constructor
           end);
      (split; [|done]); try nia.
  - intros Hn Hlen.
    assert (He : bool_decide ("="%char ∈ redraw_keys) = true)
      by (apply bool_decide_eq_true_2; unfold redraw_keys;
          by repeat constructor).
    assert (Hm : bool_decide ("-"%char ∈ redraw_keys) = true)
      by (apply bool_decide_eq_true_2; unfold redraw_keys;
          by repeat constructor).
    subst n len.
    destruct p as [[rows cols] st idx sl fa fm sw vt wt av].
    cbn in Hr, Hc, Hi, Hn, Hlen.
    assert (Hmin : Z.min (Z.of_nat (length sl) - rows * cols)
                         (idx + rows * cols) = (idx + rows * cols)%Z) by lia.
    set (p0 := mkVelPlot (rows, cols) st idx sl fa fm sw vt wt av).
    set (p1 := mkVelPlot (rows, cols) st (idx + rows * cols) sl
                         fa fm sw vt wt av).
    assert (H1 : on_draw_page (page_step "=" p0) = p1).
    { unfold on_draw_page, page_step, p0, p1.
      cbn -[Z.mul Z.of_nat Z.max Z.min Z.sub Z.add].
      rewrite Hmin, decide_False by lia. reflexivity. }
    assert (H2 : on_draw_page (page_step "-" p1) = p0).
    { unfold on_draw_page, page_step, p0, p1.
      cbn -[Z.mul Z.of_nat Z.max Z.min Z.sub Z.add].
      rewrite decide_False by lia. unfold set_idx_line.
      cbn -[Z.mul Z.of_nat Z.max Z.min Z.sub Z.add]. f_equal. lia. }
    exists p1, p0. rewrite !on_key_page_run, He, Hm. cbv zeta.
    cbn [Z.eqb orb Pos.eqb]. by rewrite H1, H2.
Qed.

(* ===================================================================== *)
(** ** Starting from the command line *)
(* ===================================================================== *)

(** A value [argparse] stores. *)
Inductive ArgValue :=
| ArgStr (s : string)
| ArgFloat (q : Q)
| ArgInt (i : Z).

(** The [Namespace] of [parse_args]: one attribute per declared argument;
    the attribute of an option that was not given holds [None]. *)
Definition Namespace := gmap string (option ArgValue).

(** The arguments [run_gui] declares: [in_file] and the options
    [-out_file], [-fwhm], [-previous_file], [-n_max_tuple],
    [-min_strength], [-min_ew]. *)
Definition parse_args (in_file : string) (out_file : option string)
           (fwhm_opt : option Q) (previous_file : option string)
           (n_max_tuple : option Z) (min_strength min_ew_opt : option Q)
  : Namespace :=
  <["in_file" := Some (ArgStr in_file)]>
  (<["out_file" := ArgStr <$> out_file]>
  (<["fwhm" := ArgFloat <$> fwhm_opt]>
  (<["previous_file" := ArgStr <$> previous_file]>
  (<["n_max_tuple" := ArgInt <$> n_max_tuple]>
  (<["min_strength" := ArgFloat <$> min_strength]>
  (<["min_ew" := ArgFloat <$> min_ew_opt]> ∅)))))).

(** [pargs.a] *)
Definition getattr (pargs : Namespace) (a : string)
  : result (option ArgValue) :=
  match pargs !! a with
  | Some v => Ok v
  | None => Err AttributeError
  end.

(** [try: x = pargs.a] / [except AttributeError: x = dflt] *)
Definition try_attr (pargs : Namespace) (a : string)
           (dflt : option ArgValue) : option ArgValue :=
  match getattr pargs a with
  | Ok v => v
  | Err _ => dflt
  end.

(** The arguments [run_gui] hands to [IGMGuessesGui]. *)
Record GuiArgs := mkGuiArgs {
  ga_ispec : option ArgValue;
  ga_outfil : option ArgValue;
  ga_fwhm : option ArgValue;
  ga_previous_file : option ArgValue;
  ga_zqso : option ArgValue;
  ga_n_max_tuple : option ArgValue;
  ga_min_strength : option ArgValue;
  ga_min_ew : option ArgValue
}.

Definition run_gui_args (pargs : Namespace) : result GuiArgs :=
  let outfil := try_attr pargs "out_file" None in
  let previous_file := try_attr pargs "previous_file" None in
  let fwhm_arg := try_attr pargs "smooth" None in
  let zqso := try_attr pargs "zqso" None in
  let n_max_tuple := try_attr pargs "n_max_tuple" None in
  let min_strength := try_attr pargs "min_strength" (Some (ArgFloat 0)) in
  let min_strength := match min_strength with
                      | None => Some (ArgFloat 0)
                      | Some v => Some v
                      end in
  let min_ew_arg := try_attr pargs "min_ew" (Some (ArgFloat (5 # 1000))) in
  let min_ew_arg := match min_ew_arg with
                    | None => Some (ArgFloat (5 # 1000))
                    | Some v => Some v
                    end in
  match getattr pargs "in_file" with
  | Ok f => Ok (mkGuiArgs f outfil fwhm_arg previous_file zqso n_max_tuple
                          min_strength min_ew_arg)
  | Err e => Err e
  end.

(** [IGMGuessesGui.__init__]: the output file and the FWHM it settles on. *)
Definition init_outfil (a : GuiArgs) : ArgValue :=
  match ga_outfil a with
  | None => ArgStr "IGM_model.json"
  | Some v => v
  end.

Definition init_fwhm (a : GuiArgs) : ArgValue :=
  match ga_fwhm a with
  | None => ArgFloat 3
  | Some v => v
  end.

(** [run_gui] reads the FWHM from [pargs.smooth], an attribute the parser
    does not declare: the [AttributeError] is caught and the FWHM is left
    to the default.  So whatever the command line gives for [-fwhm], the
    session works with FWHM 3 (the other options arrive: the output file or
    its default, the previous file, [min_ew] or its default 0.005); and
    with any command line, a previous file whose FWHM is not 3 stops
    [read_previous] with [ValueError], the session untouched. *)
Theorem run_gui_ignores_fwhm (in_file : string) (out_file : option string)
        (fwhm_opt : option Q) (previous_file : option string)
        (n_max_tuple : option Z) (min_strength min_ew_opt : option Q) :
  exists a,
    run_gui_args (parse_args in_file out_file fwhm_opt previous_file
                             n_max_tuple min_strength min_ew_opt) = Ok a /\
    init_fwhm a = ArgFloat 3 /\
    init_outfil a = ArgStr (default "IGM_model.json" out_file) /\
    ga_previous_file a = ArgStr <$> previous_file /\
    ga_min_ew a = Some (ArgFloat (default (5 # 1000) min_ew_opt)) /\
    forall (g : Gui) (d : IgmgDict),
      ArgFloat (fwhm g) = init_fwhm a -> ~ (d_fwhm d == 3)%Q ->
      read_previous d g = ([], Raised ValueError g).
Proof.
  eexists. split; [reflexivity|].
  split; [reflexivity|].
  split; [by destruct out_file|].
  split; [by destruct previous_file|].
  split; [by destruct min_ew_opt|].
  intros g d Hfw Hne.
  assert (H3 : ArgFloat (fwhm g) = ArgFloat 3) by (rewrite Hfw; reflexivity).
  injection H3 as H3.
  unfold read_previous. rewrite bind_gets, H3.
  destruct (Qeq_bool (d_fwhm d) 3) eqn:E; [|reflexivity].
  by apply Qeq_bool_iff in E.
Qed.

End Model.

(* ===================================================================== *)
(** * [xastropy/spec/utils.py]: the pixels of a window *)
(* ===================================================================== *)

(** [np.argmin] returns the first of the least entries: every entry before
    it is larger. *)
Lemma np_argmin_from_first (a : list Q) : forall best ibest i,
  ibest < i ->
  let r := np_argmin_from best ibest i a in
  (r = ibest \/ i <= r) /\
  exists v,
    (r = ibest /\ v = best \/ exists k, r = i + k /\ a !! k = Some v) /\
    (r <> ibest -> v < best)%Q /\
    forall k x, a !! k = Some x -> i + k < r -> (v < x)%Q.
Proof.
  induction a as [|y rest IH]; intros best ibest i Hlt; cbn [np_argmin_from].
  - cbn. split; [by left|]. exists best. split; [by left|].
    split; [done|]. by intros k x.
  - destruct (Qltb y best) eqn:E.
    + apply Qltb_lt in E.
      destruct (IH y i (S i) ltac:(lia)) as (Hr & v & Hidx & Hv & Hbefore).
      cbv zeta in *. set (r := np_argmin_from y i (S i) rest) in *.
      split; [right; lia|]. exists v. split; [|split].
      * right. destruct Hidx as [[-> ->]|(k & -> & Hk)].
        -- exists 0. split; [lia|done].
        -- exists (S k). split; [lia|done].
      * intros _. destruct Hidx as [[_ ->]|(k & Hk & _)]; [done|].
        assert (r <> i) by lia. specialize (Hv H). lra.
      * intros [|k] x Hx Hk; cbn in Hx.
        -- injection Hx as <-. apply Hv. lia.
        -- apply (Hbefore k x Hx). lia.
    + apply Qltb_ge in E.
      destruct (IH best ibest (S i) ltac:(lia)) as (Hr & v & Hidx & Hv & Hbefore).
      cbv zeta in *. set (r := np_argmin_from best ibest (S i) rest) in *.
      split; [destruct Hr; [by left|right; lia]|]. exists v. split; [|split].
      * destruct Hidx as [[-> ->]|(k & -> & Hk)]; [by left|].
        right. exists (S k). split; [lia|done].
      * done.
      * intros [|k] x Hx Hk; cbn in Hx.
        -- injection Hx as <-. assert (r <> ibest) by lia.
           specialize (Hv H). lra.
        -- apply (Hbefore k x Hx). lia.
Qed.

Lemma np_argmin_first (a : list Q) i :
  np_argmin a = Some i ->
  exists v, a !! i = Some v /\
    (forall k x, a !! k = Some x -> (v <= x)%Q) /\
    (forall k x, a !! k = Some x -> k < i -> (v < x)%Q).
Proof.
  destruct a as [|y r]; [done|]. cbn [np_argmin]. intros [= <-].
  destruct (np_argmin_spec (y :: r) ltac:(done)) as (i' & v & Hi' & Hv & Hmin).
  cbn [np_argmin] in Hi'. injection Hi' as <-.
  exists v. split; [done|]. split; [done|].
  destruct (np_argmin_from_first r y 0 1 ltac:(lia))
    as (Hr & v' & Hidx & Hv' & Hbefore).
  cbv zeta in *. set (i := np_argmin_from y 0 1 r) in *.
  assert (Hvv : (y :: r) !! i = Some v').
  { destruct Hidx as [[E ->]|(k & E & Hk)]; rewrite E; [done|exact Hk]. }
  rewrite Hv in Hvv. injection Hvv as <-. intros [|k] x Hx Hk; cbn in Hx.
  - injection Hx as <-. apply Hv'. lia.
  - apply (Hbefore k x Hx). lia.
Qed.

(** The arguments of [pix_minmax]: the window in wavelength, or a redshift,
    a rest wavelength and a window in velocity. *)
Inductive PixArgs :=
| WvWindow (wvmnx : Q * Q)
| VelWindow (zabs wrest : Q) (vmnx : Q * Q).

Definition pix_window (args : PixArgs) : Q * Q :=
  match args with
  | WvWindow w => w
  | VelWindow zabs wrest vmnx =>
      (((zabs + 1) * (wrest + wrest * vmnx.1 / c_mks))%Q,
       ((zabs + 1) * (wrest + wrest * vmnx.2 / c_mks))%Q)
  end.

(** [XSpectrum1D.pix_minmax]: the pixels, the window and the two end
    pixels; the pixels are also kept in [self.sub_pix]. *)
Definition pix_minmax (dispersion : list Q) (args : PixArgs)
  : result (list nat * (Q * Q) * (nat * nat)) :=
  let wvmnx := pix_window args in
  match np_argmin ((fun d => Qabs (d - wvmnx.1)) <$> dispersion) with
  | None => Err ValueError
  | Some pixmin =>
      match np_argmin ((fun d => Qabs (d - wvmnx.2)) <$> dispersion) with
      | None => Err ValueError
      | Some pixmax =>
          Ok (seq pixmin (pixmax + 1 - pixmin), wvmnx, (pixmin, pixmax))
      end
  end.

(** [XSpectrum1D.relative_vel], at one pixel of wavelength [d]. *)
Definition relative_vel (d wv_obs : Q) : Q := ((d - wv_obs) * c_mks / wv_obs)%Q.

Lemma abs_cross (dj di lo hi : Q) :
  (dj < di)%Q -> (lo <= hi)%Q ->
  (Qabs (di - lo) < Qabs (dj - lo))%Q ->
  (Qabs (dj - hi) <= Qabs (di - hi))%Q -> False.
Proof.
  intros Hd Hw H1 H2.
  destruct (Qlt_le_dec (di - lo) 0) as [A|A];
    [rewrite (Qabs_neg (di - lo)) in H1 by lra
    |rewrite (Qabs_pos (di - lo)) in H1 by lra];
  (destruct (Qlt_le_dec (dj - lo) 0) as [B|B];
    [rewrite (Qabs_neg (dj - lo)) in H1 by lra
    |rewrite (Qabs_pos (dj - lo)) in H1 by lra]);
  (destruct (Qlt_le_dec (dj - hi) 0) as [C|C];
    [rewrite (Qabs_neg (dj - hi)) in H2 by lra
    |rewrite (Qabs_pos (dj - hi)) in H2 by lra]);
  (destruct (Qlt_le_dec (di - hi) 0) as [D|D];
    [rewrite (Qabs_neg (di - hi)) in H2 by lra
    |rewrite (Qabs_pos (di - hi)) in H2 by lra]);
  lra.
Qed.

(** [pix_minmax].  On an empty spectrum it fails with the [ValueError] of
    [np.argmin].  On a spectrum whose wavelengths increase, for a window
    with ordered limits, it returns the pixels from [pixmin] to [pixmax],
    both included, at least one, all of them pixels of the spectrum;
    [pixmin] is a pixel nearest to the lower limit and [pixmax] one
    nearest to the upper limit.  The limits of a window in velocity are the
    wavelengths whose [relative_vel] with respect to [(1 + z) * wrest] are
    the two velocities. *)
Theorem pix_minmax_window (dispersion : list Q) (args : PixArgs) :
  (dispersion = [] -> pix_minmax dispersion args = Err ValueError) /\
  (dispersion <> [] ->
   (forall i j x y, i < j -> dispersion !! i = Some x ->
      dispersion !! j = Some y -> (x < y)%Q) ->
   ((pix_window args).1 <= (pix_window args).2)%Q ->
   exists pixmin pixmax dmin dmax,
     pix_minmax dispersion args
     = Ok (seq pixmin (pixmax + 1 - pixmin), pix_window args,
           (pixmin, pixmax)) /\
     pixmin <= pixmax /\ pixmax < length dispersion /\
     (forall i, i ∈ seq pixmin (pixmax + 1 - pixmin) <->
                pixmin <= i <= pixmax) /\
     dispersion !! pixmin = Some dmin /\ dispersion !! pixmax = Some dmax /\
     forall k d, dispersion !! k = Some d ->
       (Qabs (dmin - (pix_window args).1)
        <= Qabs (d - (pix_window args).1))%Q /\
       (Qabs (dmax - (pix_window args).2)
        <= Qabs (d - (pix_window args).2))%Q) /\
  (forall zabs wrest vmnx,
     args = VelWindow zabs wrest vmnx -> ~ ((1 + zabs) * wrest == 0)%Q ->
     (relative_vel (pix_window args).1 ((1 + zabs) * wrest) == vmnx.1)%Q /\
     (relative_vel (pix_window args).2 ((1 + zabs) * wrest) == vmnx.2)%Q).
Proof.
  split; [|split].
  - intros ->. done.
  - intros Hne Hinc Hwin. unfold pix_minmax.
    set (lo := (pix_window args).1) in *. set (hi := (pix_window args).2) in *.
    set (alo := (fun d => Qabs (d - lo)) <$> dispersion).
    set (ahi := (fun d => Qabs (d - hi)) <$> dispersion).
    assert (Halo : alo <> []) by (subst alo; by destruct dispersion).
    assert (Hahi : ahi <> []) by (subst ahi; by destruct dispersion).
    destruct (np_argmin_spec alo Halo) as (i & vi & Hi & _ & _).
    destruct (np_argmin_spec ahi Hahi) as (j & vj & Hj & _ & _).
    destruct (np_argmin_first alo i Hi) as (v1 & Hv1 & Hmin1 & Hfirst1).
    destruct (np_argmin_first ahi j Hj) as (v2 & Hv2 & Hmin2 & Hfirst2).
    subst alo ahi.
    apply list_lookup_fmap_Some in Hv1 as (di & -> & Hdi).
    apply list_lookup_fmap_Some in Hv2 as (dj & -> & Hdj).
    rewrite Hi, Hj.
    assert (Hij : i <= j).
    { destruct (decide (i <= j)) as [|Hgt]; [done|]. exfalso.
      assert (Hji : j < i) by lia.
      apply (abs_cross dj di lo hi).
      - by apply (Hinc j i).
      - done.
      - apply (Hfirst1 j); [|done].
        exact (lookup_fmap_Some_2 (fun d => Qabs (d - lo)) dispersion j _ Hdj).
      - apply (Hmin2 i).
        exact (lookup_fmap_Some_2 (fun d => Qabs (d - hi)) dispersion i _ Hdi). }
    exists i, j, di, dj. split; [done|]. split; [done|].
    split; [by eapply lookup_lt_Some|]. split.
    { intros k. rewrite elem_of_seq. lia. }
    split; [done|]. split; [done|].
    intros k d Hd. split.
    + apply (Hmin1 k).
      exact (lookup_fmap_Some_2 (fun d => Qabs (d - lo)) dispersion k _ Hd).
    + apply (Hmin2 k).
      exact (lookup_fmap_Some_2 (fun d => Qabs (d - hi)) dispersion k _ Hd).
  - intros zabs wrest vmnx -> Hnz. cbn [pix_window fst snd].
    unfold relative_vel, c_mks.
    split; field; split; try done;
      intros E; apply Hnz; rewrite E; ring.
Qed.

(* ===================================================================== *)
(** * [xastropy/igm/abs_sys/abssurvey.py]: the mask of a survey *)
(* ===================================================================== *)

Section Survey.

(** The absorption systems are objects of other modules. *)
Variable AbsSystem : Type.

Record AbslineSurvey := mkSurvey {
  abs_type : string;
  ref : string;
  _abs_sys : list AbsSystem;
  mask : option (list bool);   (* None, or a boolean array *)
  nsys : Z
}.

Definition set_mask (m : option (list bool)) (s : AbslineSurvey)
  : AbslineSurvey :=
  mkSurvey (abs_type s) (ref s) (_abs_sys s) m (nsys s).

(** [AbslineSurvey.init_mask] *)
Definition init_mask (s : AbslineSurvey) : AbslineSurvey :=
  if decide (0 < nsys s)%Z
  then set_mask (Some (replicate (Z.to_nat (nsys s)) true)) s
  else s.

(** [AbslineSurvey.__init__] *)
Definition survey_init (abs_type0 : string) (nsys0 : Z) (ref0 : string)
  : AbslineSurvey :=
  init_mask (mkSurvey abs_type0 ref0 [] None nsys0).

(** [a & b] on two boolean arrays: of one length, or with one of them of
    length 1, which numpy stretches; other shapes do not go together. *)
Definition np_and (a b : list bool) : result (list bool) :=
  if decide (length a = length b) then Ok (zip_with andb a b)
  else match a, b with
       | [x], _ => Ok (andb x <$> b)
       | _, [y] => Ok ((fun x => andb x y) <$> a)
       | _, _ => Err ValueError
       end.

(** [AbslineSurvey.upd_mask] for a boolean array [msk]; [self.mask == True]
    is the mask itself, and [False] when the mask is [None]. *)
Definition upd_mask (msk : list bool) (increment : bool) (s : AbslineSurvey)
  : result AbslineSurvey :=
  if decide (length msk = length (_abs_sys s)) then
    if negb increment then Ok (set_mask (Some msk) s)
    else
      match mask s with
      | None => Ok (set_mask (Some (andb false <$> msk)) s)
      | Some m =>
          match np_and m msk with
          | Ok m' => Ok (set_mask (Some m') s)
          | Err e => Err e
          end
      end
  else Err ValueError.

(** [upd_mask].  A mask of another length than the list of systems is
    refused with [ValueError].  On a survey whose mask has one entry per
    system, an incremental update returns the entry-wise conjunction: a
    system is shown afterwards only if it was shown before and the new
    mask shows it, so that the same update a second time changes nothing
    and two updates give the same mask in either order.  On a survey that
    has no mask yet (made with [nsys = 0]), an incremental update hides
    every system, whatever the new mask says. *)
Theorem upd_mask_increment (s : AbslineSurvey) (msk msk2 : list bool) :
  (length msk <> length (_abs_sys s) ->
   forall inc, upd_mask msk inc s = Err ValueError) /\
  (forall m,
     mask s = Some m -> length m = length (_abs_sys s) ->
     length msk = length (_abs_sys s) ->
     length msk2 = length (_abs_sys s) ->
     exists s1 m1,
       upd_mask msk true s = Ok s1 /\ mask s1 = Some m1 /\
       _abs_sys s1 = _abs_sys s /\ length m1 = length m /\
       (forall i, m1 !! i = Some true <->
                  m !! i = Some true /\ msk !! i = Some true) /\
       upd_mask msk true s1 = Ok s1 /\
       (exists s12 s2 s21,
          upd_mask msk2 true s1 = Ok s12 /\
          upd_mask msk2 true s = Ok s2 /\ upd_mask msk true s2 = Ok s21 /\
          s12 = s21)) /\
  (mask s = None -> length msk = length (_abs_sys s) ->
   exists s1,
     upd_mask msk true s = Ok s1 /\
     mask s1 = Some (replicate (length msk) false)).
Proof.
  split; [|split].
  - intros Hne inc. unfold upd_mask. by rewrite decide_False.
  - intros m Hm Hlm Hl1 Hl2.
    assert (Hand : forall a b : list bool, length a = length b ->
              np_and a b = Ok (zip_with andb a b)).
    { intros a b Hab. unfold np_and. by rewrite decide_True. }
    assert (Hupd : forall s0 m0 k, mask s0 = Some m0 ->
              length m0 = length (_abs_sys s0) ->
              length k = length (_abs_sys s0) ->
              upd_mask k true s0
              = Ok (set_mask (Some (zip_with andb m0 k)) s0)).
    { intros s0 m0 k H0 Hl0 Hk. unfold upd_mask.
      rewrite decide_True by done. cbn [negb]. rewrite H0.
      by rewrite Hand by congruence. }
    assert (Hlz : forall a b : list bool, length a = length b ->
              length (zip_with andb a b) = length a).
    { intros a b Hab. rewrite length_zip_with. lia. }
    exists (set_mask (Some (zip_with andb m msk)) s), (zip_with andb m msk).
    split; [by apply Hupd|]. split; [done|]. split; [done|].
    split; [apply Hlz; congruence|]. split; [|split].
    + intros i. rewrite lookup_zip_with.
      destruct (m !! i) as [[]|], (msk !! i) as [[]|]; cbn;
        (split; [intros H; try done; by split|by intros [? ?]]).
    + rewrite (Hupd _ (zip_with andb m msk) msk);
        [|done|cbn; rewrite Hlz; congruence|done].
      unfold set_mask. cbn. do 3 f_equal.
      apply list_eq. intros i. rewrite !lookup_zip_with.
      destruct (m !! i) as [[]|], (msk !! i) as [[]|]; done.
    + eexists _, _, _.
      split; [apply (Hupd _ (zip_with andb m msk) msk2);
              [done|cbn; rewrite Hlz; congruence|done]|].
      split; [by apply (Hupd s m msk2)|].
      split; [apply (Hupd _ (zip_with andb m msk2) msk);
              [done|cbn; rewrite Hlz; congruence|done]|].
      cbn. unfold set_mask. cbn. do 2 f_equal. apply list_eq. intros i.
      rewrite !lookup_zip_with.
      destruct (m !! i) as [[]|], (msk !! i) as [[]|], (msk2 !! i) as [[]|];
        done.
  - intros Hm Hl. eexists. unfold upd_mask.
    rewrite decide_True by done. cbn [negb]. rewrite Hm.
    split; [reflexivity|]. cbn. f_equal. clear.
    induction msk as [|b r IH]; [done|]. cbn. by rewrite IH.
Qed.

End Survey.

(* ===================================================================== *)
(** * The properties on the sample session *)
(* ===================================================================== *)

(** C1.  [update_model] is not a function of the registry and the spectrum
    alone.  With a registry whose only component has all its lines masked
    out (logN = 10), no line is kept for the model and the model array is
    left as it was: whatever flux [m] the model held before the call, it
    holds after it, while the registry, the masks and the spectrum are the
    same for every [m]. *)
Theorem update_model_keeps_stale_model
        (pow10 : Q -> Q) (voigt : list Q -> list AbsLine -> Q -> list Q)
        (m : list Q) :
  let g := sample_session [faint_comp] [0; 0; 0; 0]%Z m in
  exists g',
    update_model pow10 voigt g = ([], Done tt g') /\
    model_flux g' = m /\
    heap g' = heap g /\ all_comp g' = all_comp g /\
    spec_wavelength g' = spec_wavelength g.
Proof. cbv zeta. eexists. split; [reflexivity|]. by repeat split. Qed.

(** The sibling path: with an empty registry the model is reset to ones. *)
Lemma update_model_empty_registry
      (pow10 : Q -> Q) (voigt : list Q -> list AbsLine -> Q -> list Q) :
  model_flux (final_state
    (update_model pow10 voigt
       (sample_session [] [0; 0; 0; 0]%Z [1; 1 # 4; 1; 1]%Q)))
  = [1; 1; 1; 1]%Q.
Proof. reflexivity. Qed.

(** C7.  Two components carry the name z2.30000_HI, the first anchored on
    Lyman alpha, the second on Lyman beta.  In the Lyman beta panel the
    second is the only, hence the nearest, component: 'S' selects it, and
    'D', which removes by name, deletes the first and leaves the second in
    the registry. *)
Theorem on_key_delete_removes_namesake :
  let g := sample_session [sample_comp; sample_comp_beta]
                          [0; 0; 0; 0]%Z [1; 1; 1; 1]%Q in
  let press k := mkKeyEvent k (Some (10257222 # 10000)) 0 in
  all_comp g = [0; 1] /\
  fiddle_component
    (final_state (on_key_grab sample_pow10 sample_voigt sample_selected
                              (press "S"%char) g)) = Some 1 /\
  all_comp
    (final_state (on_key_grab sample_pow10 sample_voigt sample_selected
                              (press "D"%char) g)) = [1].
Proof. cbv zeta. repeat split; vm_compute; reflexivity. Qed.

(** The component of the sample session with its first line shown only. *)
Lemma mask_comp_lines_threshold_witness :
  length (_abslines sample_comp) <= length (mask_abslines sample_comp) /\
  exists w c',
    mask_comp_lines sample_pow10 (5 # 1000) sample_comp = (w, Done tt c') /\
    _abslines c' = _abslines sample_comp /\
    mask_abslines c' !! 1 = Some 0%Z.
Proof.
  assert (H : length (_abslines sample_comp)
              <= length (mask_abslines sample_comp)) by (cbn; lia).
  split; [exact H|].
  destruct (mask_comp_lines_threshold sample_pow10 (5 # 1000) sample_comp H)
    as (w & c' & Hrun & Hl & Hall).
  exists w, c'. split; [exact Hrun|]. split; [exact Hl|].
  destruct (Hall 1 (sample_line HI_1025 12) eq_refl) as (_ & Hlow & _).
  apply Hlow. vm_compute. reflexivity.
Defined.

Lemma mask_comp_lines_keeps_display_only_witness :
  let c := set_mask_abslines [1; 0]%Z sample_comp in
  exists w c',
    mask_comp_lines sample_pow10 (5 # 1000) c = (w, Done tt c') /\
    mask_abslines c' !! 0 = Some 1%Z.
Proof.
  cbv zeta.
  destruct (mask_comp_lines_keeps_display_only sample_pow10 (5 # 1000)
              (set_mask_abslines [1; 0]%Z sample_comp))
    as (w & c' & Hrun & _ & Hkeep).
  - cbn. lia.
  - constructor; [right; left; reflexivity|].
    constructor; [left; reflexivity|]. constructor.
  - exists w, c'. split; [exact Hrun|].
    apply (Hkeep 0 (sample_line HI_1215 12) eq_refl eq_refl).
    vm_compute. discriminate.
Defined.

(** C6, the claim as written, fails: with no matching transition the
    failure is an [IndexError]. *)
Lemma create_component_empty_IndexError :
  empty_catalogue (121567 # 100) = [] /\
  create_component empty_catalogue sample_atomic_data sample_fmt_z5
    (23 # 10) (121567 # 100) ((-200)%Q, 200%Q) = Err IndexError /\
  @Err AbsComponent IndexError <> Err ValueError.
Proof. repeat split. discriminate. Qed.

Lemma create_component_lines_witness :
  create_component empty_catalogue sample_atomic_data sample_fmt_z5
    (23 # 10) (121567 # 100) ((-200)%Q, 200%Q) = Err IndexError /\
  exists c,
    create_component sample_catalogue sample_atomic_data sample_fmt_z5
      (23 # 10) (121567 # 100) ((-200)%Q, 200%Q) = Ok c /\
    length (_abslines c) = 2 /\
    mask_abslines c !! 1 = Some 2%Z.
Proof.
  split.
  - apply (proj1 (create_component_lines empty_catalogue sample_atomic_data
                    sample_fmt_z5 (23 # 10) (121567 # 100)
                    ((-200)%Q, 200%Q))).
    reflexivity.
  - destruct (proj2 (create_component_lines sample_catalogue sample_atomic_data
                       sample_fmt_z5 (23 # 10) (121567 # 100)
                       ((-200)%Q, 200%Q)))
      as (c & Hc & _ & _ & _ & Hlen & _ & Hlines).
    + vm_compute. discriminate.
    + exists c. split; [exact Hc|]. split; [exact Hlen|].
      destruct (Hlines 1 HI_1025 eq_refl) as (line & _ & _ & _ & _ & Hm).
      exact Hm.
Defined.

Lemma read_previous_fwhm_check_witness :
  let g := sample_session [] [0; 0; 0; 0]%Z [1; 1; 1; 1]%Q in
  let rp := read_previous sample_pow10 sample_catalogue sample_atomic_data
              sample_fmt_z5 sample_voigt sample_from_dict_name in
  rp (mkIgmgDict ∅ "q1422.fits" (5 # 2) None) g = ([], Raised ValueError g) /\
  (rp (mkIgmgDict ∅ "other.fits" 3 None) g).1
  = WarnSpecFileMismatch :: (rp (mkIgmgDict ∅ "q1422.fits" 3 None) g).1.
Proof.
  cbv zeta. split.
  - apply (proj1 (read_previous_fwhm_check sample_pow10 sample_catalogue
                    sample_atomic_data sample_fmt_z5 sample_voigt
                    sample_from_dict_name
                    (mkIgmgDict ∅ "q1422.fits" (5 # 2) None)
                    (sample_session [] [0; 0; 0; 0]%Z [1; 1; 1; 1]%Q))).
    intros H. vm_compute in H. discriminate H.
  - destruct (proj2 (read_previous_fwhm_check sample_pow10 sample_catalogue
                       sample_atomic_data sample_fmt_z5 sample_voigt
                       sample_from_dict_name
                       (mkIgmgDict ∅ "other.fits" 3 None)
                       (sample_session [] [0; 0; 0; 0]%Z [1; 1; 1; 1]%Q)))
      as [_ Hwarn].
    + vm_compute. reflexivity.
    + vm_compute. discriminate.
    + apply (Hwarn (sample_session [] [0; 0; 0; 0]%Z [1; 1; 1; 1]%Q)).
      reflexivity.
Defined.

Lemma write_out_keeps_registry_witness :
  let g := sample_session [sample_comp] [0; 0; 1; 0]%Z [1; 1; 1; 1]%Q in
  all_comp (final_state (write_out g)) = [0] /\
  heap (final_state (write_out g)) !! 0 = Some sample_comp.
Proof.
  cbv zeta.
  destruct (write_out_keeps_registry
              (sample_session [sample_comp] [0; 0; 1; 0]%Z [1; 1; 1; 1]%Q))
    as (Hcomp & _ & Hobj & _).
  split; [exact Hcomp|].
  exact (proj1 (Hobj 0 sample_comp eq_refl)).
Defined.

(** C2, the claim as written, fails: the component of the sample session has
    the mask array [2; 0]; written out and read back into a fresh session
    with the same FWHM, threshold and spectrum, it has the mask array [2]. *)
Lemma round_trip_drops_masked_lines :
  let g := sample_session [sample_comp] [0; 0; 1; 0]%Z [1; 1; 1; 1]%Q in
  let g0 := sample_session [] [0; 0; 0; 0]%Z [1; 1; 1; 1]%Q in
  exists out g' w s2,
    write_out g = ([], Done out g') /\
    read_previous sample_pow10 sample_catalogue sample_atomic_data
      sample_fmt_z5 sample_voigt sample_from_dict_name out g0
    = (w, Done tt s2) /\
    mask_abslines <$> heap g = [[2; 0]%Z] /\
    mask_abslines <$> heap s2 = [[2]%Z] /\
    length <$> (_abslines <$> heap s2) = [1].
Proof.
  cbv zeta. eexists _, _, _, _.
  split; [vm_compute; reflexivity|].
  split; [vm_compute; reflexivity|].
  repeat split.
Qed.

Lemma sample_comp_settled : settled sample_pow10 (5 # 1000) sample_comp.
Proof.
  split; [reflexivity|]. intros i line m Hi Hm Hne.
  destruct i as [|[|i]]; cbn in Hi, Hm.
  - injection Hi as <-. vm_compute. reflexivity.
  - injection Hm as <-. by destruct Hne.
  - discriminate Hi.
Defined.

Lemma write_read_round_trip_witness :
  let g := sample_session [sample_comp] [0; 0; 1; 0]%Z [1; 1; 1; 1]%Q in
  let g0 := sample_session [] [0; 0; 0; 0]%Z [1; 1; 1; 1]%Q in
  exists out g' w s2,
    write_out g = ([], Done out g') /\
    read_previous sample_pow10 sample_catalogue sample_atomic_data
      sample_fmt_z5 sample_voigt sample_from_dict_name out g0
    = (w, Done tt s2) /\
    exists l' c', l' ∈ all_comp s2 /\ heap s2 !! l' = Some c' /\
                  round_trip_of sample_comp c'.
Proof.
  cbv zeta.
  destruct (write_read_round_trip sample_pow10 sample_catalogue
              sample_atomic_data sample_fmt_z5 sample_voigt
              sample_from_dict_name
              (sample_session [sample_comp] [0; 0; 1; 0]%Z [1; 1; 1; 1]%Q)
              (sample_session [] [0; 0; 0; 0]%Z [1; 1; 1; 1]%Q)
              [sample_comp])
    as [(out & g' & w & s2 & Hw & Hr & _ & Hforth) _].
  - repeat constructor.
  - constructor; [exact sample_comp_settled|constructor].
  - discriminate.
  - vm_compute. reflexivity.
  - reflexivity.
  - discriminate.
  - reflexivity.
  - cbn. lia.
  - exists out, g', w, s2. split; [exact Hw|]. split; [exact Hr|].
    apply Hforth.
    + repeat constructor. apply not_elem_of_nil.
    + apply list_elem_of_here.
Defined.

Lemma mask_length_invariant_witness :
  let g := sample_session [sample_comp] [0; 0; 1; 0]%Z [1; 1; 1; 1]%Q in
  let g0 := sample_session [] [0; 0; 0; 0]%Z [1; 1; 1; 1]%Q in
  (exists c,
     create_component sample_catalogue sample_atomic_data sample_fmt_z5
       (23 # 10) (121567 # 100) ((-200)%Q, 200%Q) = Ok c /\
     length (mask_abslines c) = length (_abslines c)) /\
  (exists w c',
     mask_comp_lines sample_pow10 (5 # 100) sample_comp = (w, Done tt c') /\
     length (mask_abslines c') = length (_abslines c')) /\
  (exists out g' w s2,
     write_out g = ([], Done out g') /\
     read_previous sample_pow10 sample_catalogue sample_atomic_data
       sample_fmt_z5 sample_voigt sample_from_dict_name out g0
     = (w, Done tt s2) /\
     all_comp s2 <> [] /\
     forall l', l' ∈ all_comp s2 ->
       exists c', heap s2 !! l' = Some c' /\
         length (mask_abslines c') = length (_abslines c')).
Proof.
  cbv zeta.
  destruct (mask_length_invariant sample_pow10 sample_catalogue
              sample_atomic_data sample_fmt_z5 sample_voigt
              sample_from_dict_name) as (Hnew & Hmask & Htrip).
  split; [|split].
  - destruct (create_component sample_catalogue sample_atomic_data
                sample_fmt_z5 (23 # 10) (121567 # 100) ((-200)%Q, 200%Q))
      as [c|e] eqn:E.
    + exists c. split; [reflexivity|]. exact (Hnew _ _ _ _ E).
    + vm_compute in E. discriminate E.
  - apply Hmask. reflexivity.
  - apply (Htrip (sample_session [sample_comp] [0; 0; 1; 0]%Z [1; 1; 1; 1]%Q)
                 (sample_session [] [0; 0; 0; 0]%Z [1; 1; 1; 1]%Q)
                 [sample_comp]).
    + repeat constructor.
    + repeat constructor.
    + discriminate.
    + vm_compute. reflexivity.
    + discriminate.
    + reflexivity.
    + cbn. lia.
Defined.

(** The component of the sample session, synchronised and masked. *)
Lemma sync_then_mask_settles_witness :
  length (mask_abslines sample_comp) = length (_abslines sample_comp) /\
  exists w c',
    (sync_comp_lines ;; mask_comp_lines sample_pow10 (5 # 1000)) sample_comp
    = (w, Done tt c') /\
    attrib c' = attrib sample_comp /\
    settled sample_pow10 (5 # 1000) c'.
Proof.
  split; [reflexivity|].
  apply (sync_then_mask_settles sample_pow10 (5 # 1000) sample_comp).
  reflexivity.
Defined.

(** 'S' in the Lyman beta panel of a session with one component anchored
    on Lyman alpha and one on Lyman beta. *)
Lemma on_key_select_nearest_witness :
  let g := sample_session [sample_comp; sample_comp_beta]
                          [0; 0; 0; 0]%Z [1; 1; 1; 1]%Q in
  let cs := [sample_comp; sample_comp_beta] in
  let wrest := (10257222 # 10000)%Q in
  exists i l c,
    all_comp g !! i = Some l /\ cs !! i = Some c /\
    (wrest == init_wrest c)%Q /\
    on_key_grab sample_pow10 sample_voigt sample_selected
                (mkKeyEvent "S" (Some wrest) 0) g
    = ([], Done tt (set_fiddle_component (Some l) g)) /\
    forall c2, c2 ∈ cs -> (wrest == init_wrest c2)%Q ->
      (Qabs (dvz_of (vp_z g) c + 0) <= Qabs (dvz_of (vp_z g) c2 + 0))%Q.
Proof.
  cbv zeta.
  apply (on_key_select_nearest sample_pow10 sample_voigt sample_selected
           (sample_session [sample_comp; sample_comp_beta]
                           [0; 0; 0; 0]%Z [1; 1; 1; 1]%Q)
           [sample_comp; sample_comp_beta] (10257222 # 10000) 0).
  - repeat constructor.
  - intros H. vm_compute in H. discriminate H.
  - right. left. reflexivity.
Defined.

(** 'D' in the Lyman beta panel when the two components carry different
    names. *)
Lemma on_key_delete_nearest_witness :
  let beta := set_name "z2.30000_HI_b" sample_comp_beta in
  let g := sample_session [sample_comp; beta]
                          [0; 0; 0; 0]%Z [1; 1; 1; 1]%Q in
  let wrest := (10257222 # 10000)%Q in
  let g' := final_state
              (on_key_grab sample_pow10 sample_voigt sample_selected
                           (mkKeyEvent "D" (Some wrest) 0) g) in
  exists i c,
    [sample_comp; beta] !! i = Some c /\
    (wrest == init_wrest c)%Q /\
    (forall c2, c2 ∈ [sample_comp; beta] -> (wrest == init_wrest c2)%Q ->
       (Qabs (dvz_of (vp_z g) c + 0) <= Qabs (dvz_of (vp_z g) c2 + 0))%Q) /\
    all_comp g' = delete i (all_comp g) /\
    all_items g' = delete i (all_items g).
Proof.
  cbv zeta.
  apply (on_key_delete_nearest sample_pow10 sample_voigt sample_selected
           (sample_session
              [sample_comp; set_name "z2.30000_HI_b" sample_comp_beta]
              [0; 0; 0; 0]%Z [1; 1; 1; 1]%Q)
           [sample_comp; set_name "z2.30000_HI_b" sample_comp_beta]
           (10257222 # 10000) 0).
  - repeat constructor.
  - reflexivity.
  - apply NoDup_cons. split; [|apply NoDup_singleton].
    intros [E|[]%elem_of_nil]%elem_of_cons. discriminate E.
  - intros H. vm_compute in H. discriminate H.
  - right. left. reflexivity.
Defined.


(** Two recomputations in a row on the sample session. *)
Lemma update_model_idempotent_witness :
  let g := sample_session [sample_comp] [0; 0; 0; 0]%Z [1; 1; 1; 1]%Q in
  exists g',
    update_model sample_pow10 sample_voigt g = ([], Done tt g') /\
    update_model sample_pow10 sample_voigt g' = ([], Done tt g').
Proof.
  cbv zeta.
  apply (update_model_idempotent sample_pow10 sample_voigt
           (sample_session [sample_comp] [0; 0; 0; 0]%Z [1; 1; 1; 1]%Q)).
  - constructor; [|constructor].
    exists sample_comp. split; [reflexivity|]. unfold fits_mask. cbn. lia.
  - right. discriminate.
Defined.

(* ===================================================================== *)
(** ** Cursor commands, files and masks on the sample session *)
(* ===================================================================== *)

(** The velocity plot as it starts, with fourteen lines to show. *)
Definition sample_view : VelPlot :=
  {| sub_xy := (3, 2)%Z; subxy_state := "In"; idx_line := 0;
     show_line := seq 0 14; flag_add := false; flag_mask := false;
     sel_wrest := 0; vtmp := 0; wtmp := 0; avmnx := (0%Q, 0%Q) |}.

(** The sample session with its component selected. *)
Definition selected_session : Gui :=
  set_fiddle_component (Some 0)
    (sample_session [sample_comp] [0; 0; 0; 0]%Z [1; 1; 1; 1]%Q).

Lemma selected_session_ok : registry_ok selected_session.
Proof.
  constructor; [|constructor].
  exists sample_comp. split; [reflexivity|]. unfold fits_mask. cbn. lia.
Defined.

(** A session without components, written and read back. *)
Lemma read_previous_file_without_components_witness :
  let g := sample_session [] [0; 0; 1; 0]%Z [1; 1; 1; 1]%Q in
  let g0 := sample_session [] [0; 0; 0; 0]%Z [1; 1 # 2; 1; 1]%Q in
  exists out w s2,
    write_out g = ([], Done out g) /\
    d_cmps out = ∅ /\
    read_previous sample_pow10 sample_catalogue sample_atomic_data
      sample_fmt_z5 sample_voigt sample_from_dict_name out g0
    = (w, Raised AttributeError s2) /\
    all_comp s2 = [] /\
    heap s2 = heap g0 /\
    fiddle_component s2 = fiddle_component g0 /\
    model_flux s2 = (fun _ => 1%Q) <$> model_flux g0.
Proof.
  cbv zeta.
  apply (read_previous_file_without_components sample_pow10 sample_catalogue
           sample_atomic_data sample_fmt_z5 sample_voigt
           sample_from_dict_name
           (sample_session [] [0; 0; 1; 0]%Z [1; 1; 1; 1]%Q)
           (sample_session [] [0; 0; 0; 0]%Z [1; 1 # 2; 1; 1]%Q)).
  - reflexivity.
  - reflexivity.
  - reflexivity.
  - reflexivity.
  - cbn. lia.
Defined.

(** Two components of one name: the file holds one record. *)
Lemma write_out_one_record_per_name_witness :
  let cs := [sample_comp; sample_comp_beta] in
  let g := sample_session cs [0; 0; 0; 0]%Z [1; 1; 1; 1]%Q in
  exists out g',
    write_out g = ([], Done out g') /\
    dom (d_cmps out) = list_to_set (name <$> cs) /\
    forall k r, d_cmps out !! k = Some r ->
      exists i c, cs !! i = Some c /\ name c = k /\
        r = to_record (pruned c) /\
        forall j c', i < j -> cs !! j = Some c' -> name c' <> k.
Proof.
  cbv zeta.
  apply (write_out_one_record_per_name
           (sample_session [sample_comp; sample_comp_beta]
                           [0; 0; 0; 0]%Z [1; 1; 1; 1]%Q)
           [sample_comp; sample_comp_beta]).
  - repeat constructor.
  - constructor; [|constructor; [|constructor]]; unfold fits_mask; cbn; lia.
Defined.


(** 'N' with the component of the sample session selected. *)
Lemma on_key_fiddle_step_witness :
  let g := selected_session in
  exists w g',
    on_key_fiddle sample_pow10 sample_voigt (Err ValueError)
                  (mkKeyEvent "N" (Some (121567 # 100)%Q) 0) g
    = (w, Done tt g') /\
    edited sample_pow10 g 0
      (set_attrib (fiddle_step "N" (attrib sample_comp)) sample_comp) g'.
Proof.
  cbv zeta.
  apply (proj2 (on_key_fiddle_step sample_pow10 sample_voigt (Err ValueError)
                  selected_session (121567 # 100) 0) 0 sample_comp "N"%char).
  - exact selected_session_ok.
  - discriminate.
  - reflexivity.
  - reflexivity.
  - reflexivity.
  - left.
Defined.


(** The space bar, 100 km/s to the red. *)
Lemma on_key_space_moves_witness :
  let g := sample_session [sample_comp] [0; 0; 0; 0]%Z [1; 1; 1; 1]%Q in
  exists g',
    on_key_space (mkKeyEvent " " (Some (121567 # 100)%Q) 100) g
    = ([], Done tt g') /\
    set_vp_z (vp_z g) g' = g /\
    (1 + vp_z g' == (1 + vp_z g) * (1 + 100 / c_mks))%Q.
Proof.
  cbv zeta.
  destruct (on_key_space_moves
              (sample_session [sample_comp] [0; 0; 0; 0]%Z [1; 1; 1; 1]%Q)
              (121567 # 100) 100) as (g' & Hrun & Hrest & Hz & _).
  exists g'. split; [exact Hrun|]. split; [exact Hrest|exact Hz].
Defined.

(** 'X' twice in the Lyman alpha panel, 1000 km/s to either side. *)
Lemma on_key_mask_marks_witness :
  let s := mkSession
             (sample_session [sample_comp] [0; 0; 0; 0]%Z [1; 1; 1; 1]%Q)
             sample_view in
  let wrest := (121567 # 100)%Q in
  let W1 := (wrest * (1 + vp_z (gui s)) * (1 + (- 1000) / c_mks))%Q in
  let W2 := (wrest * (1 + vp_z (gui s)) * (1 + 1000 / c_mks))%Q in
  exists s',
    (on_key_mask (mkKeyEvent "X" (Some wrest) (- 1000)) ;;
     on_key_mask (mkKeyEvent "X" (Some wrest) 1000)) s = ([], Done tt s') /\
    flag_mask (view s') = false /\
    set_bad_pixels (bad_pixels (gui s)) (gui s') = gui s /\
    length (bad_pixels (gui s')) = length (bad_pixels (gui s)) /\
    forall i w b,
      spec_wavelength (gui s) !! i = Some w ->
      bad_pixels (gui s) !! i = Some b ->
      ((W1 < w < W2)%Q \/ (W2 < w < W1)%Q ->
       bad_pixels (gui s') !! i = Some 1%Z) /\
      (~ ((W1 < w < W2)%Q \/ (W2 < w < W1)%Q) ->
       bad_pixels (gui s') !! i = Some b).
Proof.
  cbv zeta.
  apply (on_key_mask_marks
           (mkSession
              (sample_session [sample_comp] [0; 0; 0; 0]%Z [1; 1; 1; 1]%Q)
              sample_view)
           "X" "X" (121567 # 100) (121567 # 100) (- 1000) 1000).
  - reflexivity.
  - reflexivity.
  - right. left.
  - right. left.
Defined.

(** The bad pixels of the sample session, written and read back. *)
Lemma bad_pixels_round_trip_witness :
  let g := sample_session [sample_comp] [0; 0; 1; 0]%Z [1; 1; 1; 1]%Q in
  let g0 := sample_session [] [0; 0; 0; 0]%Z [1; 1; 1; 1]%Q in
  exists out g',
    write_out g = ([], Done out g') /\
    bad_pixels
      (final_state
         (read_previous sample_pow10 sample_catalogue sample_atomic_data
            sample_fmt_z5 sample_voigt sample_from_dict_name out g0))
    = bad_pixels g.
Proof.
  cbv zeta.
  apply (bad_pixels_round_trip sample_pow10 sample_catalogue
           sample_atomic_data sample_fmt_z5 sample_voigt
           sample_from_dict_name
           (sample_session [sample_comp] [0; 0; 1; 0]%Z [1; 1; 1; 1]%Q)
           (sample_session [] [0; 0; 0; 0]%Z [1; 1; 1; 1]%Q)
           [sample_comp]).
  - repeat constructor.
  - constructor; [|constructor]. unfold fits_mask. cbn. lia.
  - reflexivity.
  - repeat constructor; (by left) || (by right).
  - reflexivity.
Defined.

(** 'R' with the component of the sample session selected. *)
Lemma on_key_refit_witness :
  let g := selected_session in
  let ev := mkKeyEvent "R" (Some (121567 # 100)%Q) 0 in
  (forall p, exists w g',
     on_key_fiddle sample_pow10 sample_voigt (Ok p) ev g = (w, Done tt g') /\
     edited sample_pow10 g 0
       (set_attrib (fitted sample_pow10 p (attrib sample_comp)) sample_comp)
       g') /\
  (forall e,
     on_key_fiddle sample_pow10 sample_voigt (Err e) ev g
     = ([], Raised e g)).
Proof.
  cbv zeta.
  apply (on_key_refit sample_pow10 sample_voigt selected_session 0
           sample_comp (121567 # 100) 0).
  - exact selected_session_ok.
  - discriminate.
  - reflexivity.
  - reflexivity.
  - reflexivity.
Defined.

(** 'A' twice in the Lyman alpha panel of a session without components,
    100 km/s to either side. *)
Lemma on_key_add_component_witness :
  let s := mkSession (sample_session [] [0; 0; 0; 0]%Z [1; 1; 1; 1]%Q)
                     sample_view in
  let wrest := (121567 # 100)%Q in
  let p := (13%Q, (23 # 10)%Q, 25%Q) in
  exists w s' c',
    (on_key_add sample_pow10 sample_catalogue sample_atomic_data
                sample_fmt_z5 sample_voigt (Err ValueError)
                (mkKeyEvent "A" (Some wrest) (- 100)) ;;
     on_key_add sample_pow10 sample_catalogue sample_atomic_data
                sample_fmt_z5 sample_voigt (Ok p)
                (mkKeyEvent "A" (Some wrest) 100)) s = (w, Done tt s') /\
    all_comp (gui s') = [0] /\
    all_items (gui s') = [name c'] /\
    fiddle_component (gui s') = Some 0 /\
    heap (gui s') !! 0 = Some c' /\
    (zcomp c' == vp_z (gui s)
                 + (1 + vp_z (gui s)) * ((- 100 + 100) / 2) / c_mks)%Q /\
    ((vlim c').2 == Qabs (100 - - 100) / 2)%Q /\
    attrib c' = fitted sample_pow10 p (comp_init_attrib c') /\
    length (_abslines c') = 2 /\
    settled sample_pow10 (min_ew (gui s)) c'.
Proof.
  cbv zeta.
  destruct (on_key_add_component sample_pow10 sample_catalogue
              sample_atomic_data sample_fmt_z5 sample_voigt
              (mkSession (sample_session [] [0; 0; 0; 0]%Z [1; 1; 1; 1]%Q)
                         sample_view)
              (121567 # 100) (121567 # 100) (- 100) 100 4000 5000
              (Err ValueError) (13%Q, (23 # 10)%Q, 25%Q) HI_1215 [HI_1025])
    as (w & s' & c' & Hrun & _ & Hcomp & Hitems & Hf & _ & Hheap & _ & Hz
        & _ & Hv & _ & Hattr & Hlen & _ & Hset & _).
  - reflexivity.
  - constructor.
  - reflexivity.
  - reflexivity.
  - apply Qle_bool_iff. vm_compute. reflexivity.
  - apply Qle_bool_iff. vm_compute. reflexivity.
  - apply Qle_bool_iff. vm_compute. reflexivity.
  - apply Qle_bool_iff. vm_compute. reflexivity.
  - reflexivity.
  - exists w, s', c'. split; [exact Hrun|]. split; [exact Hcomp|].
    split; [exact Hitems|]. split; [exact Hf|]. split; [exact Hheap|].
    split; [exact Hz|]. split; [exact Hv|]. split; [exact Hattr|].
    split; [exact Hlen|exact Hset].
Defined.

(** The next page and back, from the first of fourteen lines on pages of
    six. *)
Lemma on_key_page_keeps_bounds_witness :
  (exists p',
     on_key_page None (mkKeyEvent "=" (Some (121567 # 100)%Q) 0) sample_view
     = ([], Done tt p') /\
     page_ok p' /\ show_line p' = show_line sample_view) /\
  (exists p1 p2,
     on_key_page None (mkKeyEvent "=" (Some (121567 # 100)%Q) 0) sample_view
     = ([], Done tt p1) /\
     idx_line p1 = 6%Z /\
     on_key_page None (mkKeyEvent "-" (Some (121567 # 100)%Q) 0) p1
     = ([], Done tt p2) /\
     p2 = sample_view).
Proof.
  destruct (on_key_page_keeps_bounds None None "=" (121567 # 100) 0
              sample_view) as [H1 H2].
  - do 6 right. left.
  - unfold page_ok. cbn. lia.
  - split; [exact H1|]. apply H2; cbn; lia.
Defined.

(** The command line [in_file.fits -fwhm 5.5]. *)
Lemma run_gui_ignores_fwhm_witness :
  exists a,
    run_gui_args (parse_args "q1422.fits" None (Some (55 # 10)%Q) None None
                             None None) = Ok a /\
    init_fwhm a = ArgFloat 3 /\
    init_outfil a = ArgStr "IGM_model.json".
Proof.
  destruct (run_gui_ignores_fwhm sample_pow10 sample_catalogue
              sample_atomic_data sample_fmt_z5 sample_voigt
              sample_from_dict_name "q1422.fits" None (Some (55 # 10)%Q)
              None None None None) as (a & Hrun & Hf & Ho & _).
  exists a. split; [exact Hrun|]. split; [exact Hf|exact Ho].
Defined.

(** A spectrum of four pixels and the window from 4005 to 4600. *)
Lemma pix_minmax_window_witness :
  let d := [4000; 4011; 4500; 5000]%Q in
  let args := WvWindow (4005%Q, 4600%Q) in
  exists pixmin pixmax dmin dmax,
    pix_minmax d args
    = Ok (seq pixmin (pixmax + 1 - pixmin), pix_window args,
          (pixmin, pixmax)) /\
    pixmin <= pixmax /\ pixmax < length d /\
    d !! pixmin = Some dmin /\ d !! pixmax = Some dmax.
Proof.
  cbv zeta.
  destruct (pix_minmax_window [4000; 4011; 4500; 5000]%Q
              (WvWindow (4005%Q, 4600%Q))) as (_ & H & _).
  destruct H as (i & j & di & dj & Hrun & Hij & Hj & _ & Hdi & Hdj & _).
  - discriminate.
  - intros i j x y Hlt Hx Hy.
    destruct i as [|[|[|[|i]]]]; destruct j as [|[|[|[|j]]]];
      cbn in Hx, Hy; try discriminate; try lia;
      injection Hx as <-; injection Hy as <-; reflexivity.
  - cbn. apply Qle_bool_iff. reflexivity.
  - exists i, j, di, dj. repeat (split; [assumption|]). assumption.
Defined.

(** A survey of three systems, masked twice. *)
Lemma upd_mask_increment_witness :
  let s := mkSurvey nat "LLS" "" [1; 2; 3] (Some [true; true; false]) 3 in
  exists s1 m1,
    upd_mask nat [true; false; true] true s = Ok s1 /\
    mask nat s1 = Some m1 /\
    length m1 = 3 /\
    (forall i, m1 !! i = Some true <->
               [true; true; false] !! i = Some true /\
               [true; false; true] !! i = Some true) /\
    upd_mask nat [true; false; true] true s1 = Ok s1.
Proof.
  cbv zeta.
  destruct (upd_mask_increment nat
              (mkSurvey nat "LLS" "" [1; 2; 3] (Some [true; true; false]) 3)
              [true; false; true] [false; true; true]) as (_ & H & _).
  destruct (H [true; true; false] eq_refl eq_refl eq_refl eq_refl)
    as (s1 & m1 & Hrun & Hm & _ & Hlen & Hand & Hidem & _).
  exists s1, m1. split; [exact Hrun|]. split; [exact Hm|].
  split; [exact Hlen|]. split; [exact Hand|exact Hidem].
Defined.
